(** * Circuit-lab: union-find net merger and circuit simulator

    A shallow embedding of [unionFind.js] and [circuitSimulator.js]
    (the translation / interpretation pipeline around the cktsim DC
    solver), together with the properties the specification states
    about them, and of their callers: the message of [StatusBar.jsx]
    and the editor state, reducer and handlers of [App.jsx]. *)

From Stdlib Require Import Floats.
From stdpp Require Import base option list strings relations pretty gmap.
From stdpp Require Import sorting.

Set Warnings "-inexact-float".
Local Open Scope string_scope.
Local Open Scope list_scope.

(** ** JavaScript [Map] and [Set] keyed by strings

    A JS [Map] iterates in insertion order, and [set] on a key that is
    already present keeps the key's position.  Both facts matter to the
    simulator (net numbering follows the iteration order of
    [parent.keys()]), so the map is an association list in insertion
    order. *)
Module JsMap.
Section defs.
Context {V : Type}.

Fixpoint get (k : string) (m : list (string * V)) : option V :=
  match m with
  | [] => None
  | (k', v) :: m' => if decide (k' = k) then Some v else get k m'
  end.

Definition has (k : string) (m : list (string * V)) : bool :=
  match get k m with Some _ => true | None => false end.

Fixpoint set (k : string) (v : V) (m : list (string * V)) : list (string * V) :=
  match m with
  | [] => [(k, v)]
  | (k', v') :: m' =>
      if decide (k' = k) then (k, v) :: m' else (k', v') :: set k v m'
  end.

Definition keys (m : list (string * V)) : list string := m.*1.

(** Not a [Map] method used by the program: dropping a key, for the
    counting argument that bounds the length of parent chains. *)
Definition remove (k : string) (m : list (string * V)) : list (string * V) :=
  filter (λ kv, kv.1 ≠ k) m.
End defs.
End JsMap.

(** [Set.add]: appends unless already a member. *)
Definition set_add (x : string) (s : list string) : list string :=
  if decide (x ∈ s) then s else s ++ [x].

(** ** unionFind.js *)
Module UnionFind.

(** A rank read from the table: [None] stands for [undefined] / [NaN]
    (a key that was never ranked); every comparison with it is false
    and adding one to it gives it back, as in JavaScript. *)
Definition num_lt (a b : option nat) : bool :=
  match a, b with
  | Some a, Some b => bool_decide (a < b)
  | _, _ => false
  end.

Definition num_succ (a : option nat) : option nat := S <$> a.

Record t := mk {
  parent : list (string * string);
  rank : list (string * option nat)
}.

(** [new UnionFind()] *)
Definition new : t := mk [] [].

Definition rank_get (k : string) (uf : t) : option nat :=
  match JsMap.get k (rank uf) with Some r => r | None => None end.

Definition makeSet (x : string) (uf : t) : t :=
  if JsMap.has x (parent uf) then uf
  else mk (JsMap.set x x (parent uf)) (JsMap.set x (Some 0) (rank uf)).

(** [find] recurses along parent pointers; the recursion is not
    structural, so it is driven by a counter of remaining calls.
    [None] means the counter ran out. *)
Fixpoint find_rec (fuel : nat) (uf : t) (x : string) : option (t * string) :=
  match fuel with
  | O => None
  | S fuel' =>
      let uf1 := makeSet x uf in
      match JsMap.get x (parent uf1) with
      | None => None (* unreachable: makeSet has just registered x *)
      | Some p =>
          if decide (p = x) then Some (uf1, p)
          else
            match find_rec fuel' uf1 p with
            | None => None
            | Some (uf2, r) =>
                let uf3 := mk (JsMap.set x r (parent uf2)) (rank uf2) in
                match JsMap.get x (parent uf3) with
                | Some r' => Some (uf3, r')
                | None => None
                end
            end
      end
  end.

(** One call per key on the longest possible parent chain, plus one. *)
Definition find (uf : t) (x : string) : option (t * string) :=
  find_rec (S (length (parent uf))) uf x.

Definition union (uf : t) (x y : string) : option t :=
  '(uf1, rootX) ← find uf x;
  '(uf2, rootY) ← find uf1 y;
  if decide (rootX = rootY) then Some uf2
  else
    let rankX := rank_get rootX uf2 in
    let rankY := rank_get rootY uf2 in
    if num_lt rankX rankY then
      Some (mk (JsMap.set rootX rootY (parent uf2)) (rank uf2))
    else if num_lt rankY rankX then
      Some (mk (JsMap.set rootY rootX (parent uf2)) (rank uf2))
    else
      Some (mk (JsMap.set rootY rootX (parent uf2))
               (JsMap.set rootX (num_succ rankX) (rank uf2))).

Definition connected (uf : t) (x y : string) : option (t * bool) :=
  '(uf1, rootX) ← find uf x;
  '(uf2, rootY) ← find uf1 y;
  Some (uf2, bool_decide (rootX = rootY)).

(** [getRoots]: the loop runs over [parent.keys()]; [find] on a
    registered key adds no key (lemma [getRoots_keys] below), so the
    keys seen are those present when the loop starts. *)
Fixpoint getRoots_loop (elems : list string) (uf : t) (roots : list string)
  : option (t * list string) :=
  match elems with
  | [] => Some (uf, roots)
  | e :: elems' =>
      '(uf', r) ← find uf e;
      getRoots_loop elems' uf' (set_add r roots)
  end.

Definition getRoots (uf : t) : option (t * list string) :=
  getRoots_loop (JsMap.keys (parent uf)) uf [].

(** A run of [union] calls on one instance, in order. *)
Fixpoint unions (es : list (string * string)) (uf : t) : option t :=
  match es with
  | [] => Some uf
  | (a, b) :: es' => uf' ← union uf a b; unions es' uf'
  end.

End UnionFind.

(** ** circuitSimulator.js *)

(** *** Input collections

    Positions ([x], [y]) play no part in the simulation and are left
    out.  An absent collection behaves as an empty one ([!nodes?.length],
    [connections || []]), so the three collections are lists. *)

Inductive ComponentType := Battery | Bulb | Potentiometer.

Inductive Role :=
  battery_plus | battery_minus | bulb_terminal | potentiometer_terminal.

#[global] Instance ComponentType_eq_dec : EqDecision ComponentType.
Proof. solve_decision. Defined.

#[global] Instance Role_eq_dec : EqDecision Role.
Proof. solve_decision. Defined.

Module Component.
Record t := mk { id : string; type : ComponentType; resistance : option float }.
End Component.

Module Node.
Record t := mk { id : string; componentId : string; role : option Role }.
End Node.

Module Connection.
Record t := mk { fromNodeId : string; toNodeId : string }.
End Connection.

Record CircuitInput := mkInput {
  nodes : list Node.t;
  connections : list Connection.t;
  components : list Component.t
}.

(** *** Circuit constants *)
Definition BATTERY_VOLTAGE : float := 9%float.
Definition BATTERY_INTERNAL_RESISTANCE : float := 0.1%float.
Definition BULB_RESISTANCE : float := 500%float.
Definition CURRENT_THRESHOLD : float := 0.001%float.
Definition NORMAL_CURRENT : float := 0.018%float.
Definition BURNOUT_CURRENT : float := 0.05%float.
Definition SHORT_CIRCUIT_CURRENT : float := 0.1%float.
Definition DEFAULT_POT_RESISTANCE : float := 500%float.

(** [Math.min] / [Math.max] on two numbers: NaN is contagious and
    [-0] is below [+0]. *)
Definition Math_min (a b : float) : float :=
  if PrimFloat.is_nan a || PrimFloat.is_nan b then nan
  else if (a <? b)%float then a
  else if (b <? a)%float then b
  else if PrimFloat.get_sign a then a else b.

Definition Math_max (a b : float) : float :=
  if PrimFloat.is_nan a || PrimFloat.is_nan b then nan
  else if (a <? b)%float then b
  else if (b <? a)%float then a
  else if PrimFloat.get_sign a then b else a.

(** Truthiness of an optional number ([pot.resistance || 500]):
    [undefined], [0], [-0] and [NaN] are falsy. *)
Definition truthy_number (r : option float) : bool :=
  match r with
  | None => false
  | Some f => negb (PrimFloat.is_zero f || PrimFloat.is_nan f)
  end.

(** *** Outcome of a call: a value, an exception that escapes, or the
    recursion counter of [find] running out. *)
Inductive Outcome (A : Type) :=
| Returns (a : A)
| Throws
| OutOfFuel.
Arguments Returns {A} a.
Arguments Throws {A}.
Arguments OutOfFuel {A}.

#[global] Instance Outcome_ret : MRet Outcome := λ A a, Returns a.

#[global] Instance Outcome_bind : MBind Outcome := λ A B f m,
  match m with
  | Returns a => f a
  | Throws => Throws
  | OutOfFuel => OutOfFuel
  end.

#[global] Instance Outcome_fmap : FMap Outcome := λ A B f m,
  match m with
  | Returns a => Returns (f a)
  | Throws => Throws
  | OutOfFuel => OutOfFuel
  end.

Definition run {A} (o : option A) : Outcome A :=
  match o with Some a => Returns a | None => OutOfFuel end.

(** *** The cktsim collaborator

    Modelled from the spec: [cktsim.js] (the [Circuit] class with
    [gnd_node], [node], [v], [r] and [dc]) is a third-party solver
    whose source is not available.  The netlist under construction is
    the list of node names and of elements handed over, in call order.
    An element's value is recorded as the number whose [String(..)] the
    program passes.  What the collaborator answers is left open, as a
    parameter [E : Cktsim] of the simulator: the handle it assigns to a
    node, whether a call raises, and the result of the DC analysis
    (a solved map, [undefined], or an exception). *)
Inductive Device :=
| VSource (n1 n2 : option Z) (value : float) (name : string)
| Resistor (n1 n2 : option Z) (value : float) (name : string).

Record Circuit := mkCircuit {
  node_names : list string;
  devices : list Device
}.

Inductive BuilderCall :=
| CallNode (name : string)
| CallDevice (d : Device).

Inductive DcOutcome :=
| DcSolved (dcResult : gmap string float)
| DcUndefined
| DcThrows.

Record Cktsim := mkCktsim {
  gnd_node : Z;
  node_index : Circuit → string → Z;
  raises : Circuit → BuilderCall → bool;
  dc : Circuit → DcOutcome
}.

Definition ckt_new : Circuit := mkCircuit [] [].

Definition ckt_node (E : Cktsim) (ckt : Circuit) (name : string)
  : Outcome (Circuit * Z) :=
  if raises E ckt (CallNode name) then Throws
  else Returns (mkCircuit (node_names ckt ++ [name]) (devices ckt),
                node_index E ckt name).

Definition ckt_add (E : Cktsim) (ckt : Circuit) (d : Device) : Outcome Circuit :=
  if raises E ckt (CallDevice d) then Throws
  else Returns (mkCircuit (node_names ckt) (devices ckt ++ [d])).

(** *** Result records

    The initial bulb state has four fields; the computed one adds
    [isBurnedOut], [brightness], [voltageNode1] and [voltageNode2],
    which are therefore optional. *)
Record BulbState := mkBulbState {
  isOn : bool;
  isBurnedOut : option bool;
  brightness : option float;
  current : float;
  voltage : float;
  voltageNode1 : option float;
  voltageNode2 : option float;
  power : float
}.

(** *** Plain objects keyed by ids

    [result.bulbStates] is a plain object ([{}]) written with
    [o[k] = v], where [v] is an object.  Such a write creates or replaces
    the own property [k], except under the key ["__proto__"]: there the
    setter inherited from [Object.prototype] makes [v] the prototype of
    [o], and no own property appears.  [own] holds the own properties
    (what [Object.keys] and [Object.entries] list), [proto] the
    prototype once a write has set it.  [o !! k] is the value the writes
    have left under [k], which [o[k]] reads back: the own property, or
    under ["__proto__"] the prototype so set. *)
Record JsObject (V : Type) := mkJsObject {
  own : gmap string V;
  proto : option V
}.
Arguments mkJsObject {V} own proto.
Arguments own {V} _.
Arguments proto {V} _.

#[global] Instance JsObject_empty {V} : Empty (JsObject V) := mkJsObject ∅ None.

(** [o[k] = v] *)
#[global] Instance JsObject_insert {V} : Insert string V (JsObject V) :=
  λ k v o,
    if decide (k = "__proto__") then mkJsObject (own o) (Some v)
    else mkJsObject (<[k := v]> (own o)) (proto o).

#[global] Instance JsObject_lookup {V} : Lookup string V (JsObject V) :=
  λ k o, if decide (k = "__proto__") then proto o else own o !! k.

Record SimulationResult := mkResult {
  hasClosedLoop : bool;
  bulbsOnCount : nat;
  bulbStates : JsObject BulbState;
  nodeVoltages : gmap string float;
  totalCurrent : float;
  batteryIndices : list nat
}.

(** *** Helpers shared by the loops of [simulateCircuit] *)

(** [components.filter((c) => c.type === ty)] *)
Definition ofType (ty : ComponentType) (cs : list Component.t) : list Component.t :=
  filter (λ c, Component.type c = ty) cs.

(** [nodes.filter((n) => n.componentId === id)] *)
Definition nodesOf (id : string) (ns : list Node.t) : list Node.t :=
  filter (λ n, Node.componentId n = id) ns.

(** [ns.find((n) => n.role === r)] *)
Definition findRole (r : Role) (ns : list Node.t) : option Node.t :=
  List.find (λ n, bool_decide (Node.role n = Some r)) ns.

(** *** buildElectricalNets *)
Fixpoint nodeToNet_loop (ns : list Node.t) (uf : UnionFind.t)
  (nodeToNet : list (string * string))
  : option (UnionFind.t * list (string * string)) :=
  match ns with
  | [] => Some (uf, nodeToNet)
  | n :: ns' =>
      '(uf', r) ← UnionFind.find uf (Node.id n);
      nodeToNet_loop ns' uf' (JsMap.set (Node.id n) r nodeToNet)
  end.

Definition wires (conns : list Connection.t) : list (string * string) :=
  (λ c, (Connection.fromNodeId c, Connection.toNodeId c)) <$> conns.

Definition registerNodes (ns : list Node.t) (uf : UnionFind.t) : UnionFind.t :=
  foldl (λ uf n, UnionFind.makeSet (Node.id n) uf) uf ns.

Definition buildElectricalNets (ns : list Node.t) (conns : list Connection.t)
  : option (UnionFind.t * list (string * string)) :=
  let uf0 := registerNodes ns UnionFind.new in
  uf1 ← UnionFind.unions (wires conns) uf0;
  nodeToNet_loop ns uf1 [].

(** *** assignNetNames *)

(** The [roots.forEach] loop, with its [netCounter]. *)
Definition nameRoots_step (groundNet : option string)
  (st : list (string * string) * nat) (root : string)
  : list (string * string) * nat :=
  if decide (Some root = groundNet) then (JsMap.set root "gnd" st.1, st.2)
  else (JsMap.set root ("net" +:+ pretty st.2) st.1, S st.2).

Definition nameRoots (groundNet : option string) (roots : list string)
  : list (string * string) :=
  (foldl (nameRoots_step groundNet) ([], 1) roots).1.

(** The ground root: [uf.find] of the first node tagged [battery_minus]. *)
Definition findGround (uf : UnionFind.t) (ns : list Node.t)
  : option (UnionFind.t * option string) :=
  match findRole battery_minus ns with
  | Some n => '(uf', r) ← UnionFind.find uf (Node.id n); Some (uf', Some r)
  | None => Some (uf, None)
  end.

Definition assignNetNames (uf : UnionFind.t) (ns : list Node.t)
  : option (list (string * string) * option string) :=
  '(uf1, groundNet) ← findGround uf ns;
  '(_, roots) ← UnionFind.getRoots uf1;
  Some (nameRoots groundNet roots, groundNet).

(** *** getNetName

    [nodeToNet.get(nodeId)] may be [undefined] ([None]), and so may the
    result; an empty name falls through [||] to the root. *)
Definition getNetName (nodeId : string) (nodeToNet netNames : list (string * string))
  : option string :=
  match JsMap.get nodeId nodeToNet with
  | None => None
  | Some netRoot =>
      match JsMap.get netRoot netNames with
      | Some name => if decide (name = "") then Some netRoot else Some name
      | None => Some netRoot
      end
  end.

(** *** getShortedBatteryIds *)
Definition terminalsShorted (id : string) (ns : list Node.t)
  (nodeToNet : list (string * string)) : bool :=
  let batteryNodes := nodesOf id ns in
  match findRole battery_plus batteryNodes, findRole battery_minus batteryNodes with
  | Some plusNode, Some minusNode =>
      bool_decide (JsMap.get (Node.id plusNode) nodeToNet
                   = JsMap.get (Node.id minusNode) nodeToNet)
  | _, _ => false
  end.

Definition getShortedBatteryIds (cs : list Component.t) (ns : list Node.t)
  (nodeToNet : list (string * string)) : list string :=
  foldl (λ shorted battery,
           if terminalsShorted (Component.id battery) ns nodeToNet
           then set_add (Component.id battery) shorted else shorted)
        [] (ofType Battery cs).

(** *** getAllBatteryIndices *)
Definition getAllBatteryIndices (cs : list Component.t) : list nat :=
  imap (λ idx _, idx + 1) (ofType Battery cs).

(** *** simulateCircuit, steps 1 to 3: translation into a netlist *)

Record Nets := mkNets {
  nodeToNet : list (string * string);
  netNames : list (string * string);
  netToIndex : list (string * Z)
}.

(** [getNodeIndex]: [netToIndex.get] of an undefined name is undefined. *)
Definition getNodeIndex (nets : Nets) (nodeId : string) : option Z :=
  match getNetName nodeId (nodeToNet nets) (netNames nets) with
  | Some netName => JsMap.get netName (netToIndex nets)
  | None => None
  end.

(** One solver node per net other than ground, in [netNames] order. *)
Fixpoint createNodes (E : Cktsim) (entries : list (string * string))
  (st : Circuit * list (string * Z)) : Outcome (Circuit * list (string * Z)) :=
  match entries with
  | [] => Returns st
  | (_, netName) :: rest =>
      if decide (netName = "gnd") then createNodes E rest st
      else
        '(ckt, idx) ← ckt_node E st.1 netName;
        createNodes E rest (ckt, JsMap.set netName idx st.2)
  end.

(** Lines 347-364: the elements of a battery that is not skipped. *)
Definition addLiveBattery (E : Cktsim) (nets : Nets) (ns : list Node.t)
  (battery : Component.t) (ckt : Circuit) : Outcome Circuit :=
  let batteryNodes := nodesOf (Component.id battery) ns in
  match findRole battery_plus batteryNodes, findRole battery_minus batteryNodes with
  | Some plusNode, Some minusNode =>
      let plusIdx := getNodeIndex nets (Node.id plusNode) in
      let minusIdx := getNodeIndex nets (Node.id minusNode) in
      '(ckt1, internalIdx) ←
        ckt_node E ckt ("_" +:+ Component.id battery +:+ "_internal");
      ckt2 ← ckt_add E ckt1
        (VSource (Some internalIdx) minusIdx BATTERY_VOLTAGE (Component.id battery));
      ckt_add E ckt2
        (Resistor plusIdx (Some internalIdx) BATTERY_INTERNAL_RESISTANCE
           (Component.id battery +:+ "_Rint"))
  | _, _ => Returns ckt
  end.

(** [batteries.forEach((battery, index) => ...)]: the state is the
    netlist and [result.batteryIndices]. *)
Definition addBattery (E : Cktsim) (nets : Nets) (shorted : list string)
  (ns : list Node.t) (index : nat) (battery : Component.t)
  (st : Circuit * list nat) : Outcome (Circuit * list nat) :=
  if decide (Component.id battery ∈ shorted) then Returns (st.1, st.2 ++ [index + 1])
  else
    ckt ← addLiveBattery E nets ns battery st.1;
    Returns (ckt, st.2).

Fixpoint addBatteries (E : Cktsim) (nets : Nets) (shorted : list string)
  (ns : list Node.t) (batteries : list Component.t) (index : nat)
  (st : Circuit * list nat) : Outcome (Circuit * list nat) :=
  match batteries with
  | [] => Returns st
  | battery :: rest =>
      st' ← addBattery E nets shorted ns index battery st;
      addBatteries E nets shorted ns rest (S index) st'
  end.

Definition addBulb (E : Cktsim) (nets : Nets) (ns : list Node.t)
  (bulb : Component.t) (ckt : Circuit) : Outcome Circuit :=
  match nodesOf (Component.id bulb) ns with
  | [n1; n2] =>
      ckt_add E ckt
        (Resistor (getNodeIndex nets (Node.id n1)) (getNodeIndex nets (Node.id n2))
           BULB_RESISTANCE (Component.id bulb))
  | _ => Returns ckt
  end.

Definition potResistance (pot : Component.t) : float :=
  match Component.resistance pot with
  | Some r => if truthy_number (Some r) then r else DEFAULT_POT_RESISTANCE
  | None => DEFAULT_POT_RESISTANCE
  end.

Definition addPot (E : Cktsim) (nets : Nets) (ns : list Node.t)
  (pot : Component.t) (ckt : Circuit) : Outcome Circuit :=
  match nodesOf (Component.id pot) ns with
  | [n1; n2] =>
      ckt_add E ckt
        (Resistor (getNodeIndex nets (Node.id n1)) (getNodeIndex nets (Node.id n2))
           (potResistance pot) (Component.id pot))
  | _ => Returns ckt
  end.

(** A [forEach] whose body may raise. *)
Fixpoint forEachM {A S : Type} (f : A → S → Outcome S) (l : list A) (s : S)
  : Outcome S :=
  match l with
  | [] => Returns s
  | a :: l' => s' ← f a s; forEachM f l' s'
  end.

Definition defaultBulbState : BulbState :=
  mkBulbState false None None 0%float 0%float None None 0%float.

Definition initBulbStates (cs : list Component.t) : JsObject BulbState :=
  foldl (λ states bulb, <[Component.id bulb := defaultBulbState]> states)
        ∅ (ofType Bulb cs).

(** The result returned for empty input. *)
Definition emptyResult : SimulationResult :=
  mkResult false 0 ∅ ∅ 0%float [].

(** The [result] object after its bulb states are initialised. *)
Definition initResult (cs : list Component.t) : SimulationResult :=
  mkResult false 0 (initBulbStates cs) ∅ 0%float [].

(** [!groundNet]: [null] and the empty string are falsy. *)
Definition falsy_string (s : option string) : bool :=
  match s with
  | None => true
  | Some s => bool_decide (s = "")
  end.

(** What translation hands to the solving step: the nets, the netlist
    and the [result] object as it stands (bulb defaults, indices of
    self-shorted batteries). *)
Record Translation := mkTranslation {
  t_nets : Nets;
  t_ckt : Circuit;
  t_result : SimulationResult
}.

(** Lines 250-402.  [inl r]: the function returns [r] before any
    netlist is built.  [inr t]: translation is complete. *)
Definition translate (E : Cktsim) (c : CircuitInput)
  : Outcome (SimulationResult + Translation) :=
  if Nat.eqb (length (nodes c)) 0 || Nat.eqb (length (components c)) 0
  then Returns (inl emptyResult)
  else
    let result := initResult (components c) in
    '(uf, nodeToNet) ← run (buildElectricalNets (nodes c) (connections c));
    '(netNames, groundNet) ← run (assignNetNames uf (nodes c));
    if falsy_string groundNet then Returns (inl result)
    else
      '(ckt0, netToIndex) ←
        createNodes E netNames (ckt_new, [("gnd", gnd_node E)]);
      let nets := mkNets nodeToNet netNames netToIndex in
      let shortedBatteryIds := getShortedBatteryIds (components c) (nodes c) nodeToNet in
      '(ckt1, indices) ←
        addBatteries E nets shortedBatteryIds (nodes c)
          (ofType Battery (components c)) 0 (ckt0, batteryIndices result);
      ckt2 ← forEachM (addBulb E nets (nodes c)) (ofType Bulb (components c)) ckt1;
      ckt3 ← forEachM (addPot E nets (nodes c)) (ofType Potentiometer (components c)) ckt2;
      Returns (inr (mkTranslation nets ckt3
        (mkResult (hasClosedLoop result) (bulbsOnCount result) (bulbStates result)
           (nodeVoltages result) (totalCurrent result) indices))).

(** *** simulateCircuit, steps 4 and 5: solving and interpretation *)

(** [net === 'gnd' ? 0 : (dcResult[net] ?? 0)]; an undefined name
    indexes the property ["undefined"]. *)
Definition terminalVoltage (dcResult : gmap string float) (net : option string)
  : float :=
  match net with
  | Some name =>
      if decide (name = "gnd") then 0%float
      else default 0%float (dcResult !! name)
  | None => default 0%float (dcResult !! "undefined")
  end.

(** Lines 458-488: the state of a two-terminal bulb from its terminal
    voltages. *)
Definition computeBulbState (v1 v2 : float) : BulbState :=
  let voltageDrop := PrimFloat.abs (v1 - v2) in
  let current := (voltageDrop / BULB_RESISTANCE)%float in
  let power := (voltageDrop * current)%float in
  let isBurnedOut := (BURNOUT_CURRENT <? current)%float in
  let isOn := negb isBurnedOut && (CURRENT_THRESHOLD <? current)%float in
  let brightness :=
    if isOn then
      Math_max 0%float
        (Math_min ((current - CURRENT_THRESHOLD)
                   / (NORMAL_CURRENT - CURRENT_THRESHOLD))%float 2%float)
    else 0%float in
  mkBulbState isOn (Some isBurnedOut) (Some brightness) current voltageDrop
    (Some v1) (Some v2) power.

(** Copy of the non-current entries of the solved map:
    [result.nodeVoltages[key] = value] for every entry whose key does
    not start with ["I("].  [nodeVoltages] is a plain object and the
    values are numbers: under the key ["__proto__"] the inherited
    setter ignores a number, so that write stores nothing. *)
Definition copyVoltages (dcResult : gmap string float) (r : SimulationResult)
  : SimulationResult :=
  mkResult (hasClosedLoop r) (bulbsOnCount r) (bulbStates r)
    (filter (λ kv : string * float,
               String.prefix "I(" kv.1 = false ∧ kv.1 ≠ "__proto__") dcResult
       ∪ nodeVoltages r)
    (totalCurrent r) (batteryIndices r).

Definition currentKey (battery : Component.t) : string :=
  "I(" +:+ Component.id battery +:+ ")".

(** Body of the [batteries.forEach] of lines 436-441. *)
Definition readBatteryCurrent (dcResult : gmap string float)
  (r : SimulationResult) (battery : Component.t) : SimulationResult :=
  match dcResult !! currentKey battery with
  | Some i =>
      mkResult (hasClosedLoop r) (bulbsOnCount r) (bulbStates r)
        (nodeVoltages r) (PrimFloat.abs i) (batteryIndices r)
  | None => r
  end.

(** Body of the [bulbs.forEach] of lines 448-500. *)
Definition interpretBulb (nets : Nets) (ns : list Node.t)
  (dcResult : gmap string float) (r : SimulationResult) (bulb : Component.t)
  : SimulationResult :=
  match nodesOf (Component.id bulb) ns with
  | [n1; n2] =>
      let net1 := getNetName (Node.id n1) (nodeToNet nets) (netNames nets) in
      let net2 := getNetName (Node.id n2) (nodeToNet nets) (netNames nets) in
      let state :=
        computeBulbState (terminalVoltage dcResult net1)
                         (terminalVoltage dcResult net2) in
      let states := <[Component.id bulb := state]> (bulbStates r) in
      if isOn state then
        mkResult true (S (bulbsOnCount r)) states
          (nodeVoltages r) (totalCurrent r) (batteryIndices r)
      else
        mkResult (hasClosedLoop r) (bulbsOnCount r) states
          (nodeVoltages r) (totalCurrent r) (batteryIndices r)
  | _ => r
  end.

(** Lines 502-505. *)
Definition closedLoopCheck (r : SimulationResult) : SimulationResult :=
  if negb (hasClosedLoop r) && (CURRENT_THRESHOLD <? totalCurrent r)%float then
    mkResult true (bulbsOnCount r) (bulbStates r) (nodeVoltages r)
      (totalCurrent r) (batteryIndices r)
  else r.

(** Lines 507-511. *)
Definition shortCircuitCheck (cs : list Component.t) (r : SimulationResult)
  : SimulationResult :=
  if (SHORT_CIRCUIT_CURRENT <? totalCurrent r)%float
     && Nat.eqb (bulbsOnCount r) 0
     && Nat.ltb 0 (length (ofType Battery cs))
  then
    mkResult (hasClosedLoop r) (bulbsOnCount r) (bulbStates r) (nodeVoltages r)
      (totalCurrent r) (getAllBatteryIndices cs)
  else r.

(** [result.batteryIndices = getAllBatteryIndices(components)] *)
Definition flagAllBatteries (cs : list Component.t) (r : SimulationResult)
  : SimulationResult :=
  mkResult (hasClosedLoop r) (bulbsOnCount r) (bulbStates r) (nodeVoltages r)
    (totalCurrent r) (getAllBatteryIndices cs).

(** Step 5, on a solved map. *)
Definition interpret (c : CircuitInput) (t : Translation)
  (dcResult : gmap string float) : SimulationResult :=
  let r1 := copyVoltages dcResult (t_result t) in
  let r2 := foldl (readBatteryCurrent dcResult) r1 (ofType Battery (components c)) in
  let r3 := foldl (interpretBulb (t_nets t) (nodes c) dcResult) r2
                  (ofType Bulb (components c)) in
  shortCircuitCheck (components c) (closedLoopCheck r3).

(** Lines 405-518: the [try] block and its [catch]. *)
Definition solveAndInterpret (E : Cktsim) (c : CircuitInput) (t : Translation)
  : SimulationResult :=
  match dc E (t_ckt t) with
  | DcThrows => flagAllBatteries (components c) (t_result t)
  | DcUndefined => flagAllBatteries (components c) (t_result t)
  | DcSolved dcResult => interpret c t dcResult
  end.

Definition simulateCircuit (E : Cktsim) (c : CircuitInput)
  : Outcome SimulationResult :=
  tr ← translate E c;
  match tr with
  | inl r => Returns r
  | inr t => Returns (solveAndInterpret E c t)
  end.

(** *** A concrete collaborator and circuit, for running the model *)

(** Handles count up from 0, ground is -1, nothing raises. *)
Definition counting (solve : Circuit → DcOutcome) : Cktsim :=
  mkCktsim (-1) (λ ckt _, Z.of_nat (length (node_names ckt))) (λ _ _, false) solve.

(** One battery (component 1, terminals 2 and 3) and one bulb
    (component 4, terminals 5 and 6), wired in a loop. *)
Definition lamp : CircuitInput :=
  mkInput
    [Node.mk "2" "1" (Some battery_plus); Node.mk "3" "1" (Some battery_minus);
     Node.mk "5" "4" (Some bulb_terminal); Node.mk "6" "4" (Some bulb_terminal)]
    [Connection.mk "2" "5"; Connection.mk "6" "3"]
    [Component.mk "1" Battery None; Component.mk "4" Bulb None].

Definition lamp_solution : gmap string float :=
  {[ "net1" := 8.9982%float; "_1_internal" := 9%float; "I(1)" := (-0.0179964)%float ]}.

(** ** Specification-side notions for the union-find tables *)

(** [root_at p n x r]: following parent pointers from [x] reaches the
    representative [r] in [n] steps.  A key that is not registered is
    its own representative, since [find] registers it on first use. *)
Inductive root_at (p : list (string * string)) : nat → string → string → Prop :=
| root_absent x : JsMap.get x p = None → root_at p 0 x x
| root_self x : JsMap.get x p = Some x → root_at p 0 x x
| root_step n x y r :
    JsMap.get x p = Some y → y ≠ x → root_at p n y r → root_at p (S n) x r.

Definition rootof (p : list (string * string)) (x r : string) : Prop :=
  ∃ n, root_at p n x r.

(** Every chain of parent pointers ends: the forest has no cycle. *)
Definition acyclic (p : list (string * string)) : Prop :=
  ∀ x, ∃ r, rootof p x r.

(** [p'] keeps every representative of [p]. *)
Definition preserves (p p' : list (string * string)) : Prop :=
  ∀ x r, rootof p x r → rootof p' x r.

Definition same_set (p : list (string * string)) (x y : string) : Prop :=
  ∃ r, rootof p x r ∧ rootof p y r.

(** The undirected graph of the [union] calls made so far, and its
    connected components. *)
Definition union_edge (es : list (string * string)) : relation string :=
  λ a b, (a, b) ∈ es.

Definition same_component (es : list (string * string)) : relation string :=
  rtsc (union_edge es).

(** The sets after [union(x, y)], in terms of the sets before. *)
Definition merged (p : list (string * string)) (x y z w : string) : Prop :=
  same_set p z w
  ∨ (same_set p z x ∧ same_set p y w)
  ∨ (same_set p z y ∧ same_set p x w).

(** The forest [p] has exactly the components of the edge list [es]. *)
Definition represents (p : list (string * string)) (es : list (string * string))
  : Prop :=
  acyclic p ∧ ∀ z w, same_set p z w ↔ same_component es z w.

(** Every parent recorded in the table is itself a registered key. *)
Definition closed (p : list (string * string)) : Prop :=
  ∀ k v, JsMap.get k p = Some v → is_Some (JsMap.get v p).

(** The collaborator never raises while the netlist is built. *)
Definition quiet (E : Cktsim) : Prop := ∀ ckt call, raises E ckt call = false.

(** *** Further concrete inputs *)

(** A single bulb (component 4, terminals 5 and 6) and nothing else. *)
Definition bulb_only : CircuitInput :=
  mkInput
    [Node.mk "5" "4" (Some bulb_terminal); Node.mk "6" "4" (Some bulb_terminal)]
    []
    [Component.mk "4" Bulb None].

(** Two loops on a common ground: battery 1 drives bulb 4, battery 7
    drives potentiometer 10 set to 1000 ohm. *)
Definition two_loops : CircuitInput :=
  mkInput
    [Node.mk "2" "1" (Some battery_plus); Node.mk "3" "1" (Some battery_minus);
     Node.mk "5" "4" (Some bulb_terminal); Node.mk "6" "4" (Some bulb_terminal);
     Node.mk "8" "7" (Some battery_plus); Node.mk "9" "7" (Some battery_minus);
     Node.mk "11" "10" (Some potentiometer_terminal);
     Node.mk "12" "10" (Some potentiometer_terminal)]
    [Connection.mk "2" "5"; Connection.mk "6" "3"; Connection.mk "8" "11";
     Connection.mk "12" "9"; Connection.mk "3" "9"]
    [Component.mk "1" Battery None; Component.mk "4" Bulb None;
     Component.mk "7" Battery None;
     Component.mk "10" Potentiometer (Some 1000%float)].

Definition two_loops_solution : gmap string float :=
  {[ "net1" := 8.9982%float; "net2" := 8.9991%float;
     "_1_internal" := 9%float; "_7_internal" := 9%float;
     "I(1)" := (-0.017996)%float; "I(7)" := (-0.008999)%float ]}.

(** Two batteries in series closed on themselves (18 V across their
    internal resistances), and the current a solver finds for them. *)
Definition series_short : CircuitInput :=
  mkInput
    [Node.mk "2" "1" (Some battery_plus); Node.mk "3" "1" (Some battery_minus);
     Node.mk "5" "4" (Some battery_plus); Node.mk "6" "4" (Some battery_minus)]
    [Connection.mk "2" "6"; Connection.mk "5" "3"]
    [Component.mk "1" Battery None; Component.mk "4" Battery None].

Definition series_short_solution : gmap string float :=
  {[ "net1" := 9%float; "_1_internal" := 9%float; "_4_internal" := 18%float;
     "I(1)" := (-90)%float; "I(4)" := (-90)%float ]}.

(** The lamp circuit solved by a collaborator that reports the
    internal node and the branch current but not the bulb's net. *)
Definition lamp_partial_solution : gmap string float :=
  {[ "_1_internal" := 9%float; "I(1)" := (-0.0179964)%float ]}.

(** A potentiometer (component 7, terminals 8 and 9) whose stored
    resistance is 0, in series with the battery of the lamp circuit. *)
Definition dimmer : CircuitInput :=
  mkInput
    [Node.mk "2" "1" (Some battery_plus); Node.mk "3" "1" (Some battery_minus);
     Node.mk "8" "7" (Some potentiometer_terminal);
     Node.mk "9" "7" (Some potentiometer_terminal)]
    [Connection.mk "2" "8"; Connection.mk "9" "3"]
    [Component.mk "1" Battery None; Component.mk "7" Potentiometer (Some 0%float)].

(** A battery whose two terminals are wired together (component 1),
    next to a working battery and bulb. *)
Definition self_short : CircuitInput :=
  mkInput
    [Node.mk "2" "1" (Some battery_plus); Node.mk "3" "1" (Some battery_minus);
     Node.mk "5" "4" (Some battery_plus); Node.mk "6" "4" (Some battery_minus);
     Node.mk "8" "7" (Some bulb_terminal); Node.mk "9" "7" (Some bulb_terminal)]
    [Connection.mk "2" "3"; Connection.mk "5" "8"; Connection.mk "9" "6";
     Connection.mk "6" "3"]
    [Component.mk "1" Battery None; Component.mk "4" Battery None;
     Component.mk "7" Bulb None].


(** A collaborator that raises whenever an element is added. *)
Definition rejecting : Cktsim :=
  mkCktsim (-1) (λ ckt _, Z.of_nat (length (node_names ckt)))
    (λ _ call, match call with CallDevice _ => true | CallNode _ => false end)
    (λ _, DcUndefined).

(** ** App.jsx: the editor state, its reducer and its handlers

    Component types, tools and ids are strings, positions are numbers;
    an id that may be [null] is an [option]. *)
Module App.

Module Component.
Record t := mk {
  id : string; type : string; x : float; y : float; resistance : option float
}.
End Component.

Module Node.
Record t := mk {
  id : string; componentId : string; x : float; y : float; role : option Role
}.
End Node.

Module Connection.
Record t := mk { id : string; fromNodeId : option string; toNodeId : string }.
End Connection.

Record State := mkState {
  components : list Component.t;
  nodes : list Node.t;
  connections : list Connection.t;
  selectedTool : string;
  pendingWireStartNodeId : option string;
  hoverPosition : option (float * float);
  isDraggingFromPalette : option string
}.

Definition initialState : State := mkState [] [] [] "select" None None None.

(** The strings ['left'] and ['right'] of the two call sites. *)
Inductive Side := left_side | right_side.

(** [getTerminalPositions]: the positions [(x, y)] of the left and of
    the right terminal. *)
Definition getTerminalPositions (type : string) (x y : float)
  : (float * float) * (float * float) :=
  let terminalY := (y + 1)%float in
  if decide (type = "battery") then
    ((x - 1, terminalY), (x + 1, terminalY))%float
  else if decide (type = "bulb") then
    ((x, terminalY), (x + 1, terminalY))%float
  else if decide (type = "potentiometer") then
    ((x, terminalY), (x + 2, terminalY))%float
  else ((x - 1, terminalY), (x + 1, terminalY))%float.

Definition getRole (type : string) (side : Side) : option Role :=
  if decide (type = "battery") then
    Some (match side with left_side => battery_minus | right_side => battery_plus end)
  else if decide (type = "bulb") then Some bulb_terminal
  else if decide (type = "potentiometer") then Some potentiometer_terminal
  else None.

Inductive Action :=
| PLACE_COMPONENT (componentType : string) (x y : float)
    (componentId nodeAId nodeBId : string)
| DELETE_COMPONENT (componentId : string)
| MOVE_COMPONENT (componentId : string) (newX newY : float)
| ADJUST_RESISTANCE (componentId : string)
| START_WIRE (nodeId : string)
| COMPLETE_WIRE (connectionId toNodeId : string)
| CANCEL_WIRE
| DELETE_WIRE (connectionId : string)
| SET_SELECTED_TOOL (tool : string)
| START_PALETTE_DRAG (toolId : string)
| SET_HOVER_POSITION (position : option (float * float))
| DRAG_END
| CANCEL_PLACEMENT
| OTHER_ACTION (type : string).

(** Truthiness of an id: [null] and the empty string are falsy. *)
Definition truthy_id (s : option string) : bool :=
  match s with
  | Some s => negb (bool_decide (s = ""))
  | None => false
  end.

(** [ids.includes(id)] for an id that may be [null]. *)
Definition includes (ids : list string) (id : option string) : bool :=
  match id with
  | Some s => bool_decide (s ∈ ids)
  | None => false
  end.

Definition presets : list float :=
  [100; 250; 500; 1000; 2000; 5000; 10000]%float.

(** [presets.indexOf(r)]: strict equality of numbers; [None] is -1. *)
Definition indexOf (l : list float) (r : option float) : option nat :=
  match r with
  | Some f => fst <$> list_find (λ p, (p =? f)%float = true) l
  | None => None
  end.

(** [(currentIdx + 1) % presets.length] *)
Definition nextIdx (currentIdx : option nat) : nat :=
  match currentIdx with
  | Some i => (i + 1) mod length presets
  | None => 0
  end.

(** The [map] callback of [ADJUST_RESISTANCE]. *)
Definition adjust (componentId : string) (c : Component.t) : Component.t :=
  if decide (Component.id c = componentId ∧ Component.type c = "potentiometer")
  then
    Component.mk (Component.id c) (Component.type c) (Component.x c)
      (Component.y c) (presets !! nextIdx (indexOf presets (Component.resistance c)))
  else c.

(** [[...componentNodes].sort((a, b) => a.x - b.x)] on two nodes. *)
Definition sortByX (a b : Node.t) : Node.t * Node.t :=
  if (0 <? Node.x a - Node.x b)%float then (b, a) else (a, b).

Definition moveTo (n : Node.t) (pos : float * float) : Node.t :=
  Node.mk (Node.id n) (Node.componentId n) pos.1 pos.2 (Node.role n).

Definition circuitReducer (state : State) (action : Action) : State :=
  match action with
  | PLACE_COMPONENT componentType x y componentId nodeAId nodeBId =>
      let newComponent :=
        if decide (componentType = "potentiometer")
        then Component.mk componentId componentType x y (Some 500%float)
        else Component.mk componentId componentType x y None in
      let terminals := getTerminalPositions componentType x y in
      let nodeA :=
        Node.mk nodeAId componentId terminals.1.1 terminals.1.2
          (getRole componentType left_side) in
      let nodeB :=
        Node.mk nodeBId componentId terminals.2.1 terminals.2.2
          (getRole componentType right_side) in
      mkState (components state ++ [newComponent])
        (nodes state ++ [nodeA; nodeB]) (connections state)
        (selectedTool state) (pendingWireStartNodeId state) None None
  | DELETE_COMPONENT componentId =>
      let componentNodeIds :=
        Node.id <$> filter (λ n, Node.componentId n = componentId) (nodes state) in
      let newPendingWireStartNodeId :=
        if truthy_id (pendingWireStartNodeId state)
           && includes componentNodeIds (pendingWireStartNodeId state)
        then None else pendingWireStartNodeId state in
      mkState
        (filter (λ c, Component.id c ≠ componentId) (components state))
        (filter (λ n, Node.componentId n ≠ componentId) (nodes state))
        (filter (λ c, negb (includes componentNodeIds (Connection.fromNodeId c))
                      && negb (includes componentNodeIds
                                 (Some (Connection.toNodeId c))) = true)
                (connections state))
        (selectedTool state) newPendingWireStartNodeId
        (hoverPosition state) (isDraggingFromPalette state)
  | MOVE_COMPONENT componentId newX newY =>
      match List.find (λ c, bool_decide (Component.id c = componentId))
              (components state) with
      | None => state
      | Some component =>
          let terminals :=
            getTerminalPositions (Component.type component) newX newY in
          let componentNodes :=
            filter (λ n, Node.componentId n = componentId) (nodes state) in
          let newNodes :=
            match componentNodes with
            | [a; b] =>
                let sortedNodes := sortByX a b in
                let leftNodeId := Node.id sortedNodes.1 in
                let rightNodeId := Node.id sortedNodes.2 in
                (λ n, if decide (Node.id n = leftNodeId) then moveTo n terminals.1
                      else if decide (Node.id n = rightNodeId)
                           then moveTo n terminals.2
                           else n) <$> nodes state
            | _ => nodes state
            end in
          mkState
            ((λ c, if decide (Component.id c = componentId)
                   then Component.mk (Component.id c) (Component.type c)
                          newX newY (Component.resistance c)
                   else c) <$> components state)
            newNodes (connections state) (selectedTool state)
            (pendingWireStartNodeId state) (hoverPosition state)
            (isDraggingFromPalette state)
      end
  | ADJUST_RESISTANCE componentId =>
      mkState (adjust componentId <$> components state) (nodes state)
        (connections state) (selectedTool state) (pendingWireStartNodeId state)
        (hoverPosition state) (isDraggingFromPalette state)
  | START_WIRE nodeId =>
      mkState (components state) (nodes state) (connections state)
        (selectedTool state) (Some nodeId) (hoverPosition state)
        (isDraggingFromPalette state)
  | COMPLETE_WIRE connectionId toNodeId =>
      let newConnection :=
        Connection.mk connectionId (pendingWireStartNodeId state) toNodeId in
      mkState (components state) (nodes state)
        (connections state ++ [newConnection]) (selectedTool state) None
        (hoverPosition state) (isDraggingFromPalette state)
  | CANCEL_WIRE =>
      mkState (components state) (nodes state) (connections state)
        (selectedTool state) None (hoverPosition state)
        (isDraggingFromPalette state)
  | DELETE_WIRE connectionId =>
      mkState (components state) (nodes state)
        (filter (λ c, Connection.id c ≠ connectionId) (connections state))
        (selectedTool state) (pendingWireStartNodeId state)
        (hoverPosition state) (isDraggingFromPalette state)
  | SET_SELECTED_TOOL tool =>
      mkState (components state) (nodes state) (connections state) tool
        (pendingWireStartNodeId state) (hoverPosition state)
        (isDraggingFromPalette state)
  | START_PALETTE_DRAG toolId =>
      mkState (components state) (nodes state) (connections state)
        (selectedTool state) (pendingWireStartNodeId state)
        (hoverPosition state) (Some toolId)
  | SET_HOVER_POSITION position =>
      mkState (components state) (nodes state) (connections state)
        (selectedTool state) (pendingWireStartNodeId state) position
        (isDraggingFromPalette state)
  | DRAG_END =>
      mkState (components state) (nodes state) (connections state)
        (selectedTool state) (pendingWireStartNodeId state) None None
  | CANCEL_PLACEMENT =>
      mkState (components state) (nodes state) (connections state) "select"
        (pendingWireStartNodeId state) None None
  | OTHER_ACTION _ => state
  end.

(** *** The handlers of [App]

    [nextId] is the module-level counter of [makeId]; a handler reads
    the state of the current render and dispatches one action.  The
    counter is a double: it counts exactly up to [2^53] and stays
    there, and its string is its decimal. *)
Record Editor := mkEditor { nextId : N; state : State }.

Definition initialEditor : Editor := mkEditor 1 initialState.

Definition makeId (n : N) : string * N :=
  (pretty n, if (n <? 2 ^ 53)%N then (n + 1)%N else n).

Inductive Event :=
| PlaceComponent (type : string) (x y : float)
| AdjustResistance (componentId : string)
| MoveComponent (componentId : string) (newX newY : float)
| DeleteComponent (componentId : string)
| DeleteWire (connectionId : string)
| NodeClickForWire (nodeId : string)
| CancelWire
| CancelPlacement
| PaletteDragStart (toolId : string)
| HoverChange (position : option (float * float))
| DragEnd
| SelectTool (tool : string).

Definition handle (e : Editor) (ev : Event) : Editor :=
  let dispatch := λ action, mkEditor (nextId e) (circuitReducer (state e) action) in
  match ev with
  | PlaceComponent type x y =>
      let '(componentId, n1) := makeId (nextId e) in
      let '(nodeAId, n2) := makeId n1 in
      let '(nodeBId, n3) := makeId n2 in
      mkEditor n3
        (circuitReducer (state e)
           (PLACE_COMPONENT type x y componentId nodeAId nodeBId))
  | AdjustResistance componentId => dispatch (ADJUST_RESISTANCE componentId)
  | MoveComponent componentId newX newY =>
      dispatch (MOVE_COMPONENT componentId newX newY)
  | DeleteComponent componentId => dispatch (DELETE_COMPONENT componentId)
  | DeleteWire connectionId => dispatch (DELETE_WIRE connectionId)
  | NodeClickForWire nodeId =>
      if negb (truthy_id (pendingWireStartNodeId (state e))) then
        dispatch (START_WIRE nodeId)
      else if bool_decide (pendingWireStartNodeId (state e) = Some nodeId) then
        dispatch CANCEL_WIRE
      else
        let '(connectionId, n1) := makeId (nextId e) in
        mkEditor n1 (circuitReducer (state e) (COMPLETE_WIRE connectionId nodeId))
  | CancelWire => dispatch CANCEL_WIRE
  | CancelPlacement => dispatch CANCEL_PLACEMENT
  | PaletteDragStart toolId => dispatch (START_PALETTE_DRAG toolId)
  | HoverChange position => dispatch (SET_HOVER_POSITION position)
  | DragEnd => dispatch DRAG_END
  | SelectTool tool => dispatch (SET_SELECTED_TOOL tool)
  end.

(** What the user interface can make the handlers do: it places the
    three parts of the palette, and a click is on a node that is
    drawn.  An event must also leave the counter exact. *)
Definition valid (e : Editor) (ev : Event) : bool :=
  match ev with
  | PlaceComponent type _ _ =>
      bool_decide (type ∈ ["battery"; "bulb"; "potentiometer"])
      && (nextId e + 2 <? 2 ^ 53)%N
  | NodeClickForWire nodeId =>
      bool_decide (nodeId ∈ Node.id <$> nodes (state e))
      && (nextId e <? 2 ^ 53)%N
  | _ => true
  end.

(** A session: the handlers called one after the other. *)
Fixpoint run (evs : list Event) (e : Editor) : option Editor :=
  match evs with
  | [] => Some e
  | ev :: evs' => if valid e ev then run evs' (handle e ev) else None
  end.

(** All ids of a state. *)
Definition all_ids (s : State) : list string :=
  (Component.id <$> components s) ++ (Node.id <$> nodes s)
  ++ (Connection.id <$> connections s).

End App.

(** *** What [App] passes to [simulateCircuit]

    [simulateCircuit({ nodes, connections, components })] reads the ids,
    types, roles and resistances.  The simulator is modelled on the
    three component types and on wires with both ends set; for other
    states there is no input. *)
Definition parseType (type : string) : option ComponentType :=
  if decide (type = "battery") then Some Battery
  else if decide (type = "bulb") then Some Bulb
  else if decide (type = "potentiometer") then Some Potentiometer
  else None.

Definition toComponent (c : App.Component.t) : option Component.t :=
  ty ← parseType (App.Component.type c);
  Some (Component.mk (App.Component.id c) ty (App.Component.resistance c)).

Definition toNode (n : App.Node.t) : Node.t :=
  Node.mk (App.Node.id n) (App.Node.componentId n) (App.Node.role n).

Definition toConnection (w : App.Connection.t) : option Connection.t :=
  from ← App.Connection.fromNodeId w;
  Some (Connection.mk from (App.Connection.toNodeId w)).

Definition toInput (s : App.State) : option CircuitInput :=
  cs ← mapM toComponent (App.components s);
  ws ← mapM toConnection (App.connections s);
  Some (mkInput (toNode <$> App.nodes s) ws cs).

(** *** Well-formed editor states (specification side) *)

(** The component id and role of the two terminals of a component, left
    then right. *)
Definition terminals_of (c : App.Component.t) : list (string * option Role) :=
  [(App.Component.id c, App.getRole (App.Component.type c) App.left_side);
   (App.Component.id c, App.getRole (App.Component.type c) App.right_side)].

Record well_formed (e : App.Editor) : Prop := mk_well_formed {
  wf_counter : (1 ≤ App.nextId e ≤ 2 ^ 53)%N;
  wf_fresh : ∀ id, id ∈ App.all_ids (App.state e) →
               ∃ k : N, id = pretty k ∧ (1 ≤ k < App.nextId e)%N;
  wf_nodup : NoDup (App.all_ids (App.state e));
  wf_terminals :
    (λ n, (App.Node.componentId n, App.Node.role n)) <$> App.nodes (App.state e)
    = App.components (App.state e) ≫= terminals_of;
  wf_parts : ∀ c, c ∈ App.components (App.state e) →
               App.Component.type c ∈ ["battery"; "bulb"; "potentiometer"]
               ∧ (App.Component.type c = "potentiometer" →
                  ∃ p, App.Component.resistance c = Some p ∧ p ∈ App.presets);
  wf_wires : ∀ w, w ∈ App.connections (App.state e) →
               ∃ a, App.Connection.fromNodeId w = Some a
                    ∧ a ∈ App.Node.id <$> App.nodes (App.state e)
                    ∧ App.Connection.toNodeId w
                      ∈ App.Node.id <$> App.nodes (App.state e)
                    ∧ a ≠ App.Connection.toNodeId w;
  wf_pending : ∀ n, App.pendingWireStartNodeId (App.state e) = Some n →
                 n ∈ App.Node.id <$> App.nodes (App.state e)
}.

(** Actions that change positions, the pending wire or the tool, and
    nothing the simulator reads. *)
Definition layout_only (a : App.Action) : bool :=
  match a with
  | App.MOVE_COMPONENT _ _ _ | App.START_WIRE _ | App.CANCEL_WIRE
  | App.SET_SELECTED_TOOL _ | App.START_PALETTE_DRAG _
  | App.SET_HOVER_POSITION _ | App.DRAG_END | App.CANCEL_PLACEMENT
  | App.OTHER_ACTION _ => true
  | _ => false
  end.

(** *** A concrete session

    A battery and a bulb are placed, then four clicks draw the wires
    from the battery's plus to the bulb and from the bulb back to the
    battery's minus. *)
Definition lamp_session : list App.Event :=
  [App.PlaceComponent "battery" 5 5; App.PlaceComponent "bulb" 10 5;
   App.NodeClickForWire "3"; App.NodeClickForWire "5";
   App.NodeClickForWire "6"; App.NodeClickForWire "2"].

Definition lamp_editor : App.Editor :=
  default App.initialEditor (App.run lamp_session App.initialEditor).

(** A battery and a potentiometer are placed and the resistance button
    is pressed once. *)
Definition dimmer_session : list App.Event :=
  [App.PlaceComponent "battery" 5 5; App.PlaceComponent "potentiometer" 10 5;
   App.AdjustResistance "4"].

Definition dimmer_editor : App.Editor :=
  default App.initialEditor (App.run dimmer_session App.initialEditor).

(** ** StatusBar.jsx: the status message

    [StatusBar] reads [hasClosedLoop], [bulbsOnCount] and
    [batteryIndices] from its [simulation] property, [simulation || {}]
    standing for an absent one: its fields are then [undefined], and
    [batteryIndices] defaults to the empty array. *)
Inductive MessageType := msg_info | msg_error | msg_success | msg_warning.

#[global] Instance MessageType_eq_dec : EqDecision MessageType.
Proof. solve_decision. Defined.

(** [array.join(sep)] on the strings of the elements. *)
Fixpoint join (sep : string) (l : list string) : string :=
  match l with
  | [] => ""
  | [x] => x
  | x :: l' => x +:+ sep +:+ join sep l'
  end.

Definition PLACEHOLDER_MESSAGE : string :=
  "Place a battery and a bulb, then use wires to connect them.".

Definition statusMessage (simulation : option SimulationResult)
  : MessageType * string :=
  let hasClosedLoop := from_option hasClosedLoop false simulation in
  let bulbsOnCount := bulbsOnCount <$> simulation in
  let batteryIndices := from_option batteryIndices [] simulation in
  if Nat.ltb 0 (length batteryIndices) then
    let batteryList :=
      match batteryIndices with
      | [i] => "Battery " +:+ pretty i
      | _ => "Batteries " +:+ join " and " (pretty <$> batteryIndices)
      end in
    (msg_error, batteryList +:+ " connected incorrectly. Check wiring.")
  else if from_option (Nat.ltb 0) false bulbsOnCount && hasClosedLoop then
    (msg_success, "Nice! You built a complete circuit and lit the bulb.")
  else if hasClosedLoop && bool_decide (bulbsOnCount = Some 0) then
    (msg_warning,
     "You have a loop, but no bulb in the current path yet. Try wiring through a bulb.")
  else if negb hasClosedLoop then
    (msg_info,
     "Circuit is open. Make sure both sides of the battery are connected.")
  else (msg_info, PLACEHOLDER_MESSAGE).

(** ** Lit bulbs

    Whether the loop of lines 448-500 counts a bulb as on: it has two
    terminals and the state computed from their voltages is on. *)
Definition bulbLit (nets : Nets) (ns : list Node.t) (dcResult : gmap string float)
  (bulb : Component.t) : bool :=
  match nodesOf (Component.id bulb) ns with
  | [n1; n2] =>
      isOn (computeBulbState
              (terminalVoltage dcResult
                 (getNetName (Node.id n1) (nodeToNet nets) (netNames nets)))
              (terminalVoltage dcResult
                 (getNetName (Node.id n2) (nodeToNet nets) (netNames nets))))
  | _ => false
  end.

(** ** The netlist, as the solver sees it *)

(** The element a component with exactly two terminals adds to the
    netlist: a resistor between the handles of its two nets. *)
Definition resistorElement (nets : Nets) (ns : list Node.t)
  (value : Component.t → float) (c : Component.t) : list Device :=
  match nodesOf (Component.id c) ns with
  | [n1; n2] =>
      [Resistor (getNodeIndex nets (Node.id n1)) (getNodeIndex nets (Node.id n2))
         (value c) (Component.id c)]
  | _ => []
  end.



(** The result of a call that returns (the empty result when it
    raises). *)
Definition result_of (E : Cktsim) (c : CircuitInput) : SimulationResult :=
  match simulateCircuit E c with
  | Returns r => r
  | _ => emptyResult
  end.


(** The translation of a circuit that reaches the solver (a netlist
    without elements when it does not). *)
Definition translation_of (E : Cktsim) (c : CircuitInput) : Translation :=
  match translate E c with
  | Returns (inr t) => t
  | _ => mkTranslation (mkNets [] [] []) ckt_new emptyResult
  end.


(** The two node handles of an element; [None] is [undefined]. *)
Definition device_nodes (d : Device) : list (option Z) :=
  match d with
  | VSource n1 n2 _ _ | Resistor n1 n2 _ _ => [n1; n2]
  end.

(** ** unionFind.js, continued: [getGroups] and runs of operations *)

(** [getGroups]: [groups] maps a root to the array of its elements;
    [groups.get(root).push(element)] extends the array in place, so the
    root keeps its position in the map. *)
Fixpoint getGroups_loop (elems : list string) (uf : UnionFind.t)
  (groups : list (string * list string))
  : option (UnionFind.t * list (string * list string)) :=
  match elems with
  | [] => Some (uf, groups)
  | e :: elems' =>
      '(uf', root) ← UnionFind.find uf e;
      let groups1 :=
        if JsMap.has root groups then groups else JsMap.set root [] groups in
      match JsMap.get root groups1 with
      | Some members =>
          getGroups_loop elems' uf' (JsMap.set root (members ++ [e]) groups1)
      | None => None (* unreachable: the root has just been given an array *)
      end
  end.

Definition getGroups (uf : UnionFind.t)
  : option (UnionFind.t * list (string * list string)) :=
  getGroups_loop (JsMap.keys (UnionFind.parent uf)) uf [].

(** Any use of one instance: a sequence of method calls. *)
Inductive UFOp :=
| OpMakeSet (x : string)
| OpFind (x : string)
| OpUnion (x y : string)
| OpConnected (x y : string)
| OpGetRoots
| OpGetGroups.

Definition uf_step (uf : UnionFind.t) (op : UFOp) : option UnionFind.t :=
  match op with
  | OpMakeSet x => Some (UnionFind.makeSet x uf)
  | OpFind x => fst <$> UnionFind.find uf x
  | OpUnion x y => UnionFind.union uf x y
  | OpConnected x y => fst <$> UnionFind.connected uf x y
  | OpGetRoots => fst <$> UnionFind.getRoots uf
  | OpGetGroups => fst <$> getGroups uf
  end.

Fixpoint uf_run (ops : list UFOp) (uf : UnionFind.t) : option UnionFind.t :=
  match ops with
  | [] => Some uf
  | op :: ops' => uf' ← uf_step uf op; uf_run ops' uf'
  end.

(** The argument pairs of the [union] calls of a run. *)
Definition uf_edges (ops : list UFOp) : list (string * string) :=
  omap (λ op, match op with OpUnion x y => Some (x, y) | _ => None end) ops.

(** The rank of a key as a number (0 when the table has none). *)
Definition rk (uf : UnionFind.t) (k : string) : nat :=
  default 0 (UnionFind.rank_get k uf).

(** Every registered key has a numeric rank, and the rank grows
    strictly from a key to its parent. *)
Definition ranked (uf : UnionFind.t) : Prop :=
  (∀ k, k ∈ JsMap.keys (UnionFind.parent uf) →
        is_Some (UnionFind.rank_get k uf))
  ∧ ∀ x y, JsMap.get x (UnionFind.parent uf) = Some y → y ≠ x →
           (rk uf x < rk uf y)%nat.

(** A representative of rank [n] stands for at least [2 ^ n] keys. *)
Definition roomy (uf : UnionFind.t) : Prop :=
  ∀ r, JsMap.get r (UnionFind.parent uf) = Some r →
       ∃ l : list string, NoDup l ∧ (2 ^ rk uf r ≤ length l)%nat
            ∧ ∀ k, k ∈ l → k ∈ JsMap.keys (UnionFind.parent uf)
                           ∧ rootof (UnionFind.parent uf) k r.

(** What every table reachable from [new UnionFind()] satisfies. *)
Definition sound (uf : UnionFind.t) (es : list (string * string)) : Prop :=
  represents (UnionFind.parent uf) es
  ∧ closed (UnionFind.parent uf)
  ∧ ranked uf
  ∧ roomy uf.

(** ** Facts about plain objects *)

Lemma obj_lookup_empty {V} (k : string) : (∅ : JsObject V) !! k = None.
Proof.
  unfold lookup, JsObject_lookup. simpl. by destruct (decide _).
Qed.

Lemma obj_lookup_insert_eq {V} (o : JsObject V) k v : <[k := v]> o !! k = Some v.
Proof.
  unfold lookup at 1, JsObject_lookup, insert, JsObject_insert.
  destruct (decide (k = "__proto__")); simpl; [done|].
  apply lookup_insert_eq.
Qed.

Lemma obj_lookup_insert_ne {V} (o : JsObject V) k k' v :
  k ≠ k' → <[k := v]> o !! k' = o !! k'.
Proof.
  intros Hne. unfold lookup, JsObject_lookup, insert, JsObject_insert.
  destruct (decide (k = "__proto__")) as [->|Hk],
    (decide (k' = "__proto__")) as [->|Hk']; simpl; try done.
  by apply lookup_insert_ne.
Qed.

Lemma obj_lookup_own {V} (o : JsObject V) k :
  k ≠ "__proto__" → o !! k = own o !! k.
Proof. intros Hk. unfold lookup at 1, JsObject_lookup. by rewrite decide_False. Qed.

Lemma obj_lookup_proto {V} (o : JsObject V) : o !! "__proto__" = proto o.
Proof. done. Qed.

Lemma obj_own_insert {V} (o : JsObject V) k v k' :
  own (<[k := v]> o) !! k'
  = if decide (k = k' ∧ k ≠ "__proto__") then Some v else own o !! k'.
Proof.
  unfold insert at 1, JsObject_insert.
  destruct (decide (k = "__proto__")) as [->|Hk]; simpl.
  - by rewrite decide_False by (intros [_ ?]; done).
  - destruct (decide (k = k')) as [->|Hne].
    + by rewrite lookup_insert_eq, decide_True.
    + rewrite lookup_insert_ne by done. by rewrite decide_False by (intros [? _]; done).
Qed.

(** ** Facts about the insertion-ordered map *)
Section JsMap_facts.
Context {V : Type}.
Implicit Types (m : list (string * V)) (k : string) (v : V).

Lemma get_set_eq k v m : JsMap.get k (JsMap.set k v m) = Some v.
Proof.
  induction m as [|[k' v'] m IH]; simpl.
  - by rewrite decide_True.
  - destruct (decide (k' = k)) as [->|Hne]; simpl.
    + by rewrite decide_True.
    + by rewrite decide_False.
Qed.

Lemma get_set_ne k k' v m :
  k ≠ k' → JsMap.get k' (JsMap.set k v m) = JsMap.get k' m.
Proof.
  intros Hne. induction m as [|[k0 v0] m IH]; simpl.
  - by rewrite decide_False.
  - destruct (decide (k0 = k)) as [->|Hk]; simpl.
    + by rewrite !decide_False.
    + destruct (decide (k0 = k')); [done | apply IH].
Qed.

Lemma get_None_keys k m : JsMap.get k m = None ↔ k ∉ JsMap.keys m.
Proof.
  unfold JsMap.keys. induction m as [|[k' v'] m IH]; simpl.
  - split; [intros _; apply not_elem_of_nil | done].
  - rewrite not_elem_of_cons. destruct (decide (k' = k)) as [->|Hne].
    + split; [done | intros [? _]; done].
    + rewrite IH. split; [intros ?; split; [congruence | done] | intros [_ ?]; done].
Qed.

Lemma get_Some_keys k m : is_Some (JsMap.get k m) ↔ k ∈ JsMap.keys m.
Proof.
  destruct (JsMap.get k m) eqn:Hg.
  - split; [intros _ | eauto].
    destruct (decide (k ∈ JsMap.keys m)) as [|Hn]; [done|].
    apply get_None_keys in Hn. congruence.
  - split; [intros [? ?]; done |].
    intros Hin. apply get_None_keys in Hg. done.
Qed.

Lemma set_present k v m :
  is_Some (JsMap.get k m) → JsMap.keys (JsMap.set k v m) = JsMap.keys m.
Proof.
  unfold JsMap.keys. induction m as [|[k' v'] m IH]; simpl.
  - intros [? ?]; done.
  - destruct (decide (k' = k)) as [->|Hne]; simpl; [done|].
    intros H. f_equal. by apply IH.
Qed.

Lemma set_absent k v m :
  JsMap.get k m = None → JsMap.set k v m = m ++ [(k, v)].
Proof.
  induction m as [|[k' v'] m IH]; simpl; [done|].
  destruct (decide (k' = k)); [done|]. intros H. by rewrite IH.
Qed.

Lemma keys_set_subseteq k v m : JsMap.keys m ⊆ JsMap.keys (JsMap.set k v m).
Proof.
  destruct (JsMap.get k m) eqn:Hg.
  - rewrite set_present; [done | eauto].
  - rewrite set_absent by done. unfold JsMap.keys. rewrite fmap_app.
    apply list_subseteq_app_l. done.
Qed.

Lemma get_remove_ne k k' m :
  k ≠ k' → JsMap.get k' (JsMap.remove k m) = JsMap.get k' m.
Proof.
  intros Hne. unfold JsMap.remove.
  induction m as [|[k0 v0] m IH]; [done|].
  rewrite filter_cons. simpl. destruct (decide (k0 ≠ k)) as [Hk|Hk]; simpl.
  - destruct (decide (k0 = k')); [done | apply IH].
  - apply dec_stable in Hk. subst k0. rewrite decide_False by done. apply IH.
Qed.

Lemma length_remove k m :
  is_Some (JsMap.get k m) → length (JsMap.remove k m) < length m.
Proof.
  unfold JsMap.remove. induction m as [|[k0 v0] m IH]; simpl.
  - intros [? ?]; done.
  - rewrite filter_cons. simpl. destruct (decide (k0 = k)) as [->|Hne].
    + intros _. rewrite decide_False by (intros H; by apply H).
      pose proof (length_filter (λ kv : string * V, kv.1 ≠ k) m). lia.
    + intros H. rewrite decide_True by done. simpl. specialize (IH H). lia.
Qed.
End JsMap_facts.

(** ** Parent forests *)

Lemma root_at_fun p n x r n' r' :
  root_at p n x r → root_at p n' x r' → n = n' ∧ r = r'.
Proof.
  intros H. revert n' r'.
  induction H as [x Hx|x Hx|n x y r Hx Hne H IH]; intros n' r' H';
    inversion H'; subst; try done; try congruence.
  assert (y0 = y) as -> by congruence.
  destruct (IH _ _ H2) as [-> ->]. done.
Qed.

Lemma rootof_fun p x r r' : rootof p x r → rootof p x r' → r = r'.
Proof. intros [n H] [n' H']. by destruct (root_at_fun _ _ _ _ _ _ H H'). Qed.

Lemma root_at_root p n x r : root_at p n x r → root_at p 0 r r.
Proof. induction 1; eauto using root_at. Qed.

Lemma rootof_root p x r : rootof p x r → rootof p r r.
Proof. intros [n H]. exists 0. eauto using root_at_root. Qed.

(** A representative has no parent other than itself. *)
Lemma root_at_0_get p r y : root_at p 0 r r → JsMap.get r p = Some y → y = r.
Proof. inversion 1; congruence. Qed.

Lemma rootof_moved_present p x r : rootof p x r → x ≠ r → is_Some (JsMap.get x p).
Proof. intros [n H] Hne. inversion H; subst; eauto; done. Qed.

Lemma root_at_remove p x m y r :
  root_at p m y r →
  (∀ k r', root_at p k x r' → m < k) →
  root_at (JsMap.remove x p) m y r.
Proof.
  induction 1 as [y Hy|y Hy|n y z r Hy Hne H IH]; intros Hdeep.
  - apply root_absent. apply get_None_keys. apply get_None_keys in Hy.
    intros Hin. apply Hy. unfold JsMap.keys, JsMap.remove in *.
    apply list_elem_of_fmap in Hin as [kv [-> Hin]].
    apply list_elem_of_filter in Hin as [_ Hin].
    apply list_elem_of_fmap. eauto.
  - assert (x ≠ y) as Hxy.
    { intros ->. specialize (Hdeep 0 y (root_self _ _ Hy)). lia. }
    apply root_self. by rewrite get_remove_ne.
  - assert (x ≠ y) as Hxy.
    { intros ->. specialize (Hdeep (S n) r (root_step _ _ _ _ _ Hy Hne H)). lia. }
    eapply root_step; [by rewrite get_remove_ne | done |].
    apply IH. intros k r' Hk. specialize (Hdeep k r' Hk). lia.
Qed.

(** A chain of parent pointers visits each key at most once. *)
Lemma root_at_bound (n : nat) : ∀ p x r, root_at p n x r → (n ≤ length p)%nat.
Proof.
  induction n as [|n IH]; intros p x r H; [lia|].
  inversion H as [| |n0 x0 y r0 Hx Hne Hy]; subst.
  assert (root_at (JsMap.remove x p) n y r) as Hrem.
  { apply root_at_remove; [done|]. intros k r' Hk.
    destruct (root_at_fun _ _ _ _ _ _ H Hk) as [<- _]. lia. }
  apply IH in Hrem.
  assert (length (JsMap.remove x p) < length p) by (apply length_remove; eauto).
  lia.
Qed.

Lemma preserves_refl p : preserves p p.
Proof. by intros x r. Qed.

Lemma preserves_trans p1 p2 p3 :
  preserves p1 p2 → preserves p2 p3 → preserves p1 p3.
Proof. intros H1 H2 x r H. eauto. Qed.

Lemma preserves_acyclic p p' : acyclic p → preserves p p' → acyclic p'.
Proof. intros Hp Hpp x. destruct (Hp x) as [r Hr]. eauto. Qed.

Lemma preserves_rootof p p' x r :
  acyclic p → preserves p p' → rootof p' x r ↔ rootof p x r.
Proof.
  intros Hp Hpp. split; [|apply Hpp].
  intros H'. destruct (Hp x) as [r0 Hr0].
  by rewrite (rootof_fun _ _ _ _ H' (Hpp _ _ Hr0)).
Qed.

Lemma preserves_same_set p p' x y :
  acyclic p → preserves p p' → same_set p' x y ↔ same_set p x y.
Proof.
  intros Hp Hpp. unfold same_set. split; intros [r [Hx Hy]]; exists r.
  - by rewrite <- !(preserves_rootof p p').
  - by rewrite !(preserves_rootof p p').
Qed.

(** Registering a fresh key as its own parent changes no representative. *)
Lemma register_preserves p x :
  JsMap.get x p = None → preserves p (JsMap.set x x p).
Proof.
  intros Hx y r [n H]. induction H as [y Hy|y Hy|n y z r Hy Hne H IH].
  - exists 0. destruct (decide (x = y)) as [->|Hxy].
    + apply root_self, get_set_eq.
    + apply root_absent. by rewrite get_set_ne.
  - exists 0. apply root_self.
    rewrite get_set_ne; [done | congruence].
  - destruct IH as [n' IH]. exists (S n').
    eapply root_step; [|done|done].
    rewrite get_set_ne; [done | congruence].
Qed.

(** Path compression: pointing [x] at its own representative. *)
Lemma compress_preserves p x r :
  rootof p x r → x ≠ r → preserves p (JsMap.set x r p).
Proof.
  intros Hxr Hne y ry [n H].
  induction H as [y Hy|y Hy|n y z ry Hy Hnz H IH].
  - assert (x ≠ y) as Hxy.
    { intros ->. apply Hne. eapply rootof_fun; [|done].
      exists 0. by apply root_absent. }
    exists 0. apply root_absent. by rewrite get_set_ne.
  - assert (x ≠ y) as Hxy.
    { intros ->. apply Hne. eapply rootof_fun; [|done].
      exists 0. by apply root_self. }
    exists 0. apply root_self. by rewrite get_set_ne.
  - destruct (decide (x = y)) as [->|Hxy].
    + assert (ry = r) as ->.
      { eapply rootof_fun; [|done]. exists (S n). eauto using root_at. }
      exists 1. eapply root_step; [apply get_set_eq | congruence |].
      destruct Hxr as [k Hk]. apply root_at_root in Hk.
      inversion Hk; subst.
      * apply root_absent. by rewrite get_set_ne.
      * apply root_self. by rewrite get_set_ne.
    + destruct IH as [n' IH]. exists (S n').
      apply (root_step _ n' y z ry); [by rewrite get_set_ne | done | done].
Qed.

(** Linking the representative [a] under another representative [b]. *)
Lemma link_rootof p a b z r :
  rootof p a a → rootof p b b → a ≠ b →
  rootof p z r →
  rootof (JsMap.set a b p) z (if decide (r = a) then b else r).
Proof.
  intros [ka Ha] [kb Hb] Hab [n H].
  assert (root_at p 0 a a) as Ha0 by eauto using root_at_root.
  assert (root_at p 0 b b) as Hb0 by eauto using root_at_root.
  assert (root_at (JsMap.set a b p) 0 b b) as Hb'.
  { inversion Hb0; subst.
    - apply root_absent. by rewrite get_set_ne.
    - apply root_self. by rewrite get_set_ne. }
  clear Ha Hb ka kb.
  induction H as [y Hy|y Hy|n y z r Hy Hnz H IH].
  - destruct (decide (y = a)) as [->|Hya].
    + exists 1. eapply root_step; [apply get_set_eq | congruence | done].
    + exists 0. apply root_absent. rewrite get_set_ne; [done | congruence].
  - destruct (decide (y = a)) as [->|Hya].
    + exists 1. eapply root_step; [apply get_set_eq | congruence | done].
    + exists 0. apply root_self. rewrite get_set_ne; [done | congruence].
  - assert (a ≠ y) as Hay.
    { intros ->. apply Hnz. by eapply root_at_0_get. }
    destruct IH as [n' IH]. exists (S n').
    apply (root_step _ n' y z _); [by rewrite get_set_ne | done | done].
Qed.

Lemma makeSet_preserves uf x :
  preserves (UnionFind.parent uf) (UnionFind.parent (UnionFind.makeSet x uf)).
Proof.
  unfold UnionFind.makeSet, JsMap.has.
  destruct (JsMap.get x (UnionFind.parent uf)) eqn:Hx; simpl.
  - apply preserves_refl.
  - by apply register_preserves.
Qed.

Lemma makeSet_registers uf x :
  is_Some (JsMap.get x (UnionFind.parent (UnionFind.makeSet x uf))).
Proof.
  unfold UnionFind.makeSet, JsMap.has.
  destruct (JsMap.get x (UnionFind.parent uf)) eqn:Hx; simpl.
  - rewrite Hx. eauto.
  - rewrite get_set_eq. eauto.
Qed.

Lemma makeSet_keys uf x :
  JsMap.keys (UnionFind.parent uf)
    ⊆ JsMap.keys (UnionFind.parent (UnionFind.makeSet x uf)).
Proof.
  unfold UnionFind.makeSet. destruct (JsMap.has _ _); simpl; [done|].
  apply keys_set_subseteq.
Qed.

(** With enough calls left, [find] returns the representative and keeps
    every representative of the forest. *)
Lemma find_rec_spec p n x r :
  root_at p n x r →
  ∀ rk fuel, (n < fuel)%nat →
  ∃ uf', UnionFind.find_rec fuel (UnionFind.mk p rk) x = Some (uf', r)
         ∧ preserves p (UnionFind.parent uf').
Proof.
  induction 1 as [x Hx|x Hx|n x y r Hx Hne H IH]; intros rk fuel Hfuel;
    (destruct fuel as [|fuel]; [lia|]); simpl.
  - unfold UnionFind.makeSet, JsMap.has. simpl. rewrite Hx. simpl.
    rewrite get_set_eq. rewrite decide_True by done.
    eexists. split; [done|]. simpl. by apply register_preserves.
  - unfold UnionFind.makeSet, JsMap.has. simpl. rewrite Hx. simpl.
    rewrite Hx. rewrite decide_True by done.
    eexists. split; [done|]. apply preserves_refl.
  - unfold UnionFind.makeSet, JsMap.has. simpl. rewrite Hx. simpl.
    rewrite Hx. rewrite decide_False by done.
    destruct (IH rk fuel) as [[p2 rk2] [-> Hpres]]; [lia|]. simpl in *.
    rewrite get_set_eq. eexists. split; [done|]. simpl.
    eapply preserves_trans; [done|].
    apply compress_preserves.
    + apply Hpres. exists (S n). eauto using root_at.
    + intros ->. apply root_at_root in H. apply Hne. by eapply root_at_0_get.
Qed.

Lemma find_spec uf x :
  acyclic (UnionFind.parent uf) →
  ∃ uf' r, UnionFind.find uf x = Some (uf', r)
           ∧ rootof (UnionFind.parent uf) x r
           ∧ preserves (UnionFind.parent uf) (UnionFind.parent uf').
Proof.
  intros Hac. destruct (Hac x) as [r [n H]].
  destruct uf as [p rk]. simpl in *.
  destruct (find_rec_spec p n x r H rk (S (length p))) as [uf' [Hf Hpres]].
  { apply root_at_bound in H. lia. }
  exists uf', r. split; [done|]. split; [by exists n | done].
Qed.

(** Keys only accumulate, and the argument of [find] is registered. *)
Lemma find_rec_keys fuel : ∀ uf x uf' r,
  UnionFind.find_rec fuel uf x = Some (uf', r) →
  JsMap.keys (UnionFind.parent uf) ⊆ JsMap.keys (UnionFind.parent uf')
  ∧ x ∈ JsMap.keys (UnionFind.parent uf').
Proof.
  induction fuel as [|fuel IH]; intros uf x uf' r; simpl; [done|].
  pose proof (makeSet_keys uf x) as Hk.
  pose proof (makeSet_registers uf x) as Hreg.
  destruct (JsMap.get x _) as [p|] eqn:Hx; [|done].
  destruct (decide (p = x)) as [->|Hne].
  - intros [= <- <-]. split; [done|]. apply get_Some_keys. eauto.
  - destruct (UnionFind.find_rec fuel _ p) as [[uf2 r2]|] eqn:Hrec; [|done].
    simpl. rewrite get_set_eq. intros [= <- <-]. simpl.
    apply IH in Hrec as [Hsub _].
    split.
    + etrans; [apply Hk|]. etrans; [apply Hsub|]. apply keys_set_subseteq.
    + apply get_Some_keys. rewrite get_set_eq. eauto.
Qed.

Lemma find_keys uf x uf' r :
  UnionFind.find uf x = Some (uf', r) →
  JsMap.keys (UnionFind.parent uf) ⊆ JsMap.keys (UnionFind.parent uf')
  ∧ x ∈ JsMap.keys (UnionFind.parent uf').
Proof. apply find_rec_keys. Qed.

Lemma same_set_root p x r : rootof p x r → same_set p x r.
Proof. intros H. exists r. eauto using rootof_root. Qed.

Lemma same_set_sym p x y : same_set p x y → same_set p y x.
Proof. intros [r [? ?]]. by exists r. Qed.

Lemma same_set_trans p x y z : same_set p x y → same_set p y z → same_set p x z.
Proof.
  intros [r [Hx Hy]] [r' [Hy' Hz]]. exists r.
  by destruct (rootof_fun _ _ _ _ Hy Hy').
Qed.

Lemma same_set_rootof p x y r : same_set p x y → rootof p y r → rootof p x r.
Proof. intros [r' [Hx Hy]] Hr. by destruct (rootof_fun _ _ _ _ Hy Hr). Qed.

(** After linking [a] under [b], two keys share a set exactly when
    they did before or when their sets were those of [a] and [b]. *)
Lemma link_same_set p a b :
  acyclic p → rootof p a a → rootof p b b → a ≠ b →
  acyclic (JsMap.set a b p)
  ∧ ∀ z w, same_set (JsMap.set a b p) z w ↔
           same_set p z w
           ∨ (rootof p z a ∧ rootof p w b)
           ∨ (rootof p z b ∧ rootof p w a).
Proof.
  intros Hac Ha Hb Hab. split.
  - intros z. destruct (Hac z) as [r Hr]. eexists. by apply link_rootof.
  - intros z w. destruct (Hac z) as [rz Hz]. destruct (Hac w) as [rw Hw].
    pose proof (link_rootof p a b z rz Ha Hb Hab Hz) as Hz'.
    pose proof (link_rootof p a b w rw Ha Hb Hab Hw) as Hw'.
    split.
    + intros [r [Hzr Hwr]].
      pose proof (rootof_fun _ _ _ _ Hz' Hzr) as E1.
      pose proof (rootof_fun _ _ _ _ Hw' Hwr) as E2.
      destruct (decide (rz = a)) as [->|Hza], (decide (rw = a)) as [->|Hwa].
      * left. by exists a.
      * subst r. subst rw. right. left. done.
      * subst r. subst rz. right. right. done.
      * subst r. subst rw. left. by exists rz.
    + intros [[r [Hzr Hwr]]|[[Hza Hwb]|[Hzb Hwa]]].
      * rewrite (rootof_fun _ _ _ _ Hz Hzr) in Hz'.
        rewrite (rootof_fun _ _ _ _ Hw Hwr) in Hw'. eexists; eauto.
      * rewrite (rootof_fun _ _ _ _ Hz Hza) in Hz'.
        rewrite (rootof_fun _ _ _ _ Hw Hwb) in Hw'.
        rewrite decide_True in Hz' by done.
        rewrite decide_False in Hw' by done. by exists b.
      * rewrite (rootof_fun _ _ _ _ Hz Hzb) in Hz'.
        rewrite (rootof_fun _ _ _ _ Hw Hwa) in Hw'.
        rewrite decide_False in Hz' by done.
        rewrite decide_True in Hw' by done. by exists b.
Qed.

(** [union] always returns, keeps the forest acyclic, and merges
    exactly the sets of its two arguments. *)
Lemma union_spec uf x y :
  acyclic (UnionFind.parent uf) →
  ∃ uf', UnionFind.union uf x y = Some uf'
         ∧ acyclic (UnionFind.parent uf')
         ∧ ∀ z w, same_set (UnionFind.parent uf') z w
                  ↔ merged (UnionFind.parent uf) x y z w.
Proof.
  intros Hac. unfold UnionFind.union.
  destruct (find_spec uf x Hac) as (uf1 & rx & -> & Hx & Hp1). simpl.
  pose proof (preserves_acyclic _ _ Hac Hp1) as Hac1.
  destruct (find_spec uf1 y Hac1) as (uf2 & ry & -> & Hy & Hp2). simpl.
  pose proof (preserves_acyclic _ _ Hac1 Hp2) as Hac2.
  pose proof (preserves_trans _ _ _ Hp1 Hp2) as Hp.
  set (p := UnionFind.parent uf) in *. set (p2 := UnionFind.parent uf2) in *.
  assert (rootof p y ry) as Hy0 by (by apply (preserves_rootof p _ y ry Hac Hp1)).
  assert (∀ z w, same_set p2 z w ↔ same_set p z w) as Hsame
    by (intros; by apply preserves_same_set).
  assert (∀ a b, a ≠ b →
            (a = rx ∧ b = ry) ∨ (a = ry ∧ b = rx) →
            acyclic (JsMap.set a b p2)
            ∧ ∀ z w, same_set (JsMap.set a b p2) z w ↔ merged p x y z w) as Hlink.
  { intros a b Hab Hcase.
    assert (rootof p2 a a ∧ rootof p2 b b) as [Ha Hb].
    { destruct Hcase as [[-> ->]|[-> ->]]; split;
        apply Hp; eauto using rootof_root. }
    destruct (link_same_set p2 a b Hac2 Ha Hb Hab) as [Hac' Hiff].
    split; [done|]. intros z w. rewrite Hiff. unfold merged.
    rewrite Hsame.
    assert (∀ u, rootof p2 u rx ↔ same_set p u x) as Hrx.
    { intros u. rewrite (preserves_rootof p p2) by done. split.
      - intros Hu. by exists rx.
      - intros Hu. by eapply same_set_rootof. }
    assert (∀ u, rootof p2 u ry ↔ same_set p u y) as Hry.
    { intros u. rewrite (preserves_rootof p p2) by done. split.
      - intros Hu. by exists ry.
      - intros Hu. by eapply same_set_rootof. }
    destruct Hcase as [[-> ->]|[-> ->]]; rewrite !Hrx, !Hry;
      intuition eauto using same_set_sym. }
  destruct (decide (rx = ry)) as [->|Hne].
  - eexists. split; [done|]. split; [done|].
    intros z w. etrans; [apply Hsame|]. unfold merged. split; [by left|].
    assert (same_set p x y) as Hxy by (by exists ry).
    intros [?|[[? ?]|[? ?]]]; eauto using same_set_trans, same_set_sym.
  - destruct (UnionFind.num_lt _ _); [|destruct (UnionFind.num_lt _ _)];
      (eexists; split; [done|]; simpl; apply Hlink; [congruence | eauto]).
Qed.

(** Adding the edge [(a, b)] to the graph merges the components of [a]
    and [b] and nothing else. *)
Lemma same_component_snoc es a b z w :
  same_component (es ++ [(a, b)]) z w ↔
  same_component es z w
  ∨ (same_component es z a ∧ same_component es b w)
  ∨ (same_component es z b ∧ same_component es a w).
Proof.
  unfold same_component. split.
  - intros H. induction H as [z|z z1 w Hstep Hrest IH]; [by left|].
    assert (sc (union_edge es) z z1
            ∨ (z = a ∧ z1 = b) ∨ (z = b ∧ z1 = a)) as Hcase.
    { destruct Hstep as [Hs|Hs]; unfold union_edge in Hs;
        apply elem_of_app in Hs as [Hs|Hs%list_elem_of_singleton].
      - left. by left.
      - right. left. by inversion Hs.
      - left. by right.
      - right. right. by inversion Hs. }
    destruct Hcase as [Hs|[[-> ->]|[-> ->]]].
    + assert (rtsc (union_edge es) z z1) as Hzz1 by (by apply rtc_once).
      destruct IH as [?|[[? ?]|[? ?]]].
      * left. by etrans.
      * right. left. split; [by etrans | done].
      * right. right. split; [by etrans | done].
    + destruct IH as [?|[[? ?]|[? ?]]].
      * right. left. done.
      * left. etrans; [symmetry|]; done.
      * left. done.
    + destruct IH as [?|[[? ?]|[? ?]]].
      * right. right. done.
      * left. done.
      * left. etrans; [symmetry|]; done.
  - assert (∀ u v, rtsc (union_edge es) u v → rtsc (union_edge (es ++ [(a, b)])) u v)
      as Hmono.
    { intros u v. apply (rtsc_congruence (λ s, s)).
      intros u' v' Huv. unfold union_edge in *. apply elem_of_app. by left. }
    assert (rtsc (union_edge (es ++ [(a, b)])) a b) as Hab.
    { apply rtsc_lr. unfold union_edge. apply elem_of_app. right.
      by apply list_elem_of_singleton. }
    intros [H|[[H1 H2]|[H1 H2]]].
    + by apply Hmono.
    + etrans; [by apply Hmono|]. etrans; [done|]. by apply Hmono.
    + etrans; [by apply Hmono|]. etrans; [by symmetry|]. by apply Hmono.
Qed.

Lemma represents_new : represents (UnionFind.parent UnionFind.new) [].
Proof.
  assert (∀ x, rootof [] x x) as Hroot.
  { intros x. exists 0. by apply root_absent. }
  split.
  - intros x. eauto.
  - intros z w. split.
    + intros [r [Hz Hw]].
      destruct (rootof_fun _ _ _ _ (Hroot z) Hz).
      destruct (rootof_fun _ _ _ _ (Hroot w) Hw). done.
    + intros H. unfold same_component in H.
      induction H as [z|z z1 w Hstep Hrest IH].
      * exists z. eauto.
      * destruct Hstep as [Hs|Hs]; unfold union_edge in Hs; by apply elem_of_nil in Hs.
Qed.

Lemma represents_preserves p p' es :
  represents p es → preserves p p' → represents p' es.
Proof.
  intros [Hac Hiff] Hp. split; [by eapply preserves_acyclic|].
  intros z w. by rewrite preserves_same_set.
Qed.

Lemma union_represents uf es a b :
  represents (UnionFind.parent uf) es →
  ∃ uf', UnionFind.union uf a b = Some uf'
         ∧ represents (UnionFind.parent uf') (es ++ [(a, b)]).
Proof.
  intros [Hac Hiff].
  destruct (union_spec uf a b Hac) as (uf' & Hu & Hac' & Hm).
  exists uf'. split; [done|]. split; [done|].
  intros z w. rewrite Hm, same_component_snoc. unfold merged.
  by rewrite !Hiff.
Qed.

Lemma unions_represents es : ∀ uf done,
  represents (UnionFind.parent uf) done →
  ∃ uf', UnionFind.unions es uf = Some uf'
         ∧ represents (UnionFind.parent uf') (done ++ es).
Proof.
  induction es as [|[a b] es IH]; intros uf done Hrep; simpl.
  - exists uf. by rewrite app_nil_r.
  - destruct (union_represents uf done a b Hrep) as (uf1 & -> & Hrep1). simpl.
    destruct (IH uf1 _ Hrep1) as (uf' & Hu & Hrep').
    exists uf'. split; [done|]. by rewrite <- app_assoc in Hrep'.
Qed.

Lemma connected_spec uf x y :
  acyclic (UnionFind.parent uf) →
  ∃ uf' b, UnionFind.connected uf x y = Some (uf', b)
           ∧ preserves (UnionFind.parent uf) (UnionFind.parent uf')
           ∧ (b = true ↔ same_set (UnionFind.parent uf) x y).
Proof.
  intros Hac. unfold UnionFind.connected.
  destruct (find_spec uf x Hac) as (uf1 & rx & -> & Hx & Hp1). simpl.
  pose proof (preserves_acyclic _ _ Hac Hp1) as Hac1.
  destruct (find_spec uf1 y Hac1) as (uf2 & ry & -> & Hy & Hp2). simpl.
  apply (preserves_rootof _ _ y ry Hac Hp1) in Hy.
  eexists _, _. split; [done|]. split; [by eapply preserves_trans|].
  rewrite bool_decide_eq_true. split.
  - intros ->. by exists ry.
  - intros [r [Hxr Hyr]].
    by rewrite (rootof_fun _ _ _ _ Hx Hxr), (rootof_fun _ _ _ _ Hy Hyr).
Qed.

(** ** Net building always returns *)

Lemma registerNodes_preserves ns : ∀ uf,
  preserves (UnionFind.parent uf) (UnionFind.parent (registerNodes ns uf)).
Proof.
  unfold registerNodes. induction ns as [|n ns IH]; intros uf; simpl.
  - apply preserves_refl.
  - eapply preserves_trans; [apply makeSet_preserves | apply IH].
Qed.

Lemma nodeToNet_loop_spec ns : ∀ uf m,
  acyclic (UnionFind.parent uf) →
  ∃ uf' m', nodeToNet_loop ns uf m = Some (uf', m')
            ∧ preserves (UnionFind.parent uf) (UnionFind.parent uf').
Proof.
  induction ns as [|n ns IH]; intros uf m Hac; simpl.
  - eexists _, _. split; [done | apply preserves_refl].
  - destruct (find_spec uf (Node.id n) Hac) as (uf1 & r & -> & _ & Hp1). simpl.
    destruct (IH uf1 (JsMap.set (Node.id n) r m)) as (uf' & m' & -> & Hp').
    { by eapply preserves_acyclic. }
    eexists _, _. split; [done | by eapply preserves_trans].
Qed.

(** [buildElectricalNets] returns, and its forest has the components
    of the wire graph. *)
Lemma buildElectricalNets_spec ns conns :
  ∃ uf nodeToNet,
    buildElectricalNets ns conns = Some (uf, nodeToNet)
    ∧ represents (UnionFind.parent uf) (wires conns).
Proof.
  unfold buildElectricalNets.
  assert (represents (UnionFind.parent (registerNodes ns UnionFind.new)) [])
    as Hrep0.
  { eapply represents_preserves; [apply represents_new|].
    apply registerNodes_preserves. }
  destruct (unions_represents (wires conns) _ [] Hrep0) as (uf1 & -> & Hrep1).
  simpl in *.
  destruct (nodeToNet_loop_spec ns uf1 [] (proj1 Hrep1)) as (uf & m & -> & Hp).
  exists uf, m. split; [done|]. by eapply represents_preserves.
Qed.

Lemma elem_of_set_add x y s : y ∈ set_add x s ↔ y = x ∨ y ∈ s.
Proof.
  unfold set_add. destruct (decide (x ∈ s)) as [Hin|Hout].
  - split; [by right | intros [->|?]; done].
  - rewrite elem_of_app, list_elem_of_singleton. tauto.
Qed.

Lemma NoDup_set_add x s : NoDup s → NoDup (set_add x s).
Proof.
  intros Hs. unfold set_add. destruct (decide (x ∈ s)) as [Hin|Hout]; [done|].
  apply NoDup_app. split; [done|]. split.
  - intros y Hy ->%list_elem_of_singleton. done.
  - apply NoDup_singleton.
Qed.

(** [getRoots] returns the representatives of the registered keys,
    each once. *)
Lemma getRoots_loop_spec elems : ∀ uf acc,
  acyclic (UnionFind.parent uf) → NoDup acc →
  ∃ uf' roots,
    UnionFind.getRoots_loop elems uf acc = Some (uf', roots)
    ∧ preserves (UnionFind.parent uf) (UnionFind.parent uf')
    ∧ NoDup roots
    ∧ ∀ r, r ∈ roots ↔
           r ∈ acc ∨ ∃ e, e ∈ elems ∧ rootof (UnionFind.parent uf) e r.
Proof.
  induction elems as [|e elems IH]; intros uf acc Hac Hnd; simpl.
  - eexists _, _. split; [done|]. split; [apply preserves_refl|].
    split; [done|]. intros r. split; [by left|].
    intros [?|[e [He _]]]; [done | by apply elem_of_nil in He].
  - destruct (find_spec uf e Hac) as (uf1 & re & -> & Hre & Hp1). simpl.
    pose proof (preserves_acyclic _ _ Hac Hp1) as Hac1.
    destruct (IH uf1 (set_add re acc) Hac1 (NoDup_set_add _ _ Hnd))
      as (uf' & roots & -> & Hp' & Hnd' & Hiff).
    eexists _, _. split; [done|]. split; [by eapply preserves_trans|].
    split; [done|]. intros r. rewrite Hiff, elem_of_set_add. split.
    + intros [[->|?]|[e' [He' Hr]]].
      * right. exists e. split; [left | done].
      * by left.
      * right. exists e'. split; [by right|].
        by apply (preserves_rootof _ _ e' r Hac Hp1).
    + intros [?|[e' [He' Hr]]]; [left; by right|].
      apply elem_of_cons in He' as [->|He'].
      * left. left. by eapply rootof_fun.
      * right. exists e'. split; [done | by apply Hp1].
Qed.

Lemma getRoots_spec uf :
  acyclic (UnionFind.parent uf) →
  ∃ uf' roots,
    UnionFind.getRoots uf = Some (uf', roots)
    ∧ NoDup roots
    ∧ ∀ r, r ∈ roots ↔
           ∃ e, e ∈ JsMap.keys (UnionFind.parent uf)
                ∧ rootof (UnionFind.parent uf) e r.
Proof.
  intros Hac. unfold UnionFind.getRoots.
  destruct (getRoots_loop_spec (JsMap.keys (UnionFind.parent uf)) uf [] Hac)
    as (uf' & roots & Hg & _ & Hnd & Hiff); [apply NoDup_nil_2|].
  exists uf', roots. split; [done|]. split; [done|].
  intros r. rewrite Hiff. split; [|by right].
  intros [H|H]; [by apply elem_of_nil in H | done].
Qed.

Lemma findGround_spec uf ns :
  acyclic (UnionFind.parent uf) →
  ∃ uf1 groundNet,
    findGround uf ns = Some (uf1, groundNet)
    ∧ preserves (UnionFind.parent uf) (UnionFind.parent uf1)
    ∧ match findRole battery_minus ns with
      | Some m => ∃ g, groundNet = Some g
                       ∧ UnionFind.find uf (Node.id m) = Some (uf1, g)
                       ∧ rootof (UnionFind.parent uf) (Node.id m) g
      | None => groundNet = None
      end.
Proof.
  intros Hac. unfold findGround. destruct (findRole battery_minus ns) as [m|].
  - destruct (find_spec uf (Node.id m) Hac) as (uf1 & g & Hf & Hg & Hp1).
    rewrite Hf. simpl. eexists _, _. split; [done|]. split; [done|]. eauto.
  - eexists _, _. split; [done|]. split; [apply preserves_refl | done].
Qed.

Lemma assignNetNames_total uf ns :
  acyclic (UnionFind.parent uf) →
  ∃ names groundNet,
    assignNetNames uf ns = Some (names, groundNet)
    ∧ (findRole battery_minus ns = None → groundNet = None).
Proof.
  intros Hac. unfold assignNetNames.
  destruct (findGround_spec uf ns Hac) as (uf1 & g & -> & Hp & Hg). simpl.
  destruct (getRoots_spec uf1) as (uf2 & roots & -> & _).
  { by eapply preserves_acyclic. }
  simpl. eexists _, _. split; [done|]. intros Hnone. by rewrite Hnone in Hg.
Qed.

(** ** The translation step *)

(** What a completed translation went through. *)
Lemma translate_inr E c t :
  translate E c = Returns (inr t) →
  ∃ uf nodeToNet netNames g ckt0 netToIndex ckt1 indices ckt2,
    nodes c ≠ [] ∧ components c ≠ []
    ∧ buildElectricalNets (nodes c) (connections c) = Some (uf, nodeToNet)
    ∧ assignNetNames uf (nodes c) = Some (netNames, Some g) ∧ g ≠ ""
    ∧ createNodes E netNames (ckt_new, [("gnd", gnd_node E)])
      = Returns (ckt0, netToIndex)
    ∧ t_nets t = mkNets nodeToNet netNames netToIndex
    ∧ addBatteries E (t_nets t)
        (getShortedBatteryIds (components c) (nodes c) nodeToNet) (nodes c)
        (ofType Battery (components c)) 0 (ckt0, []) = Returns (ckt1, indices)
    ∧ forEachM (addBulb E (t_nets t) (nodes c)) (ofType Bulb (components c)) ckt1
      = Returns ckt2
    ∧ forEachM (addPot E (t_nets t) (nodes c))
        (ofType Potentiometer (components c)) ckt2 = Returns (t_ckt t)
    ∧ t_result t
      = mkResult false 0 (initBulbStates (components c)) ∅ 0%float indices.
Proof.
  unfold translate.
  destruct (nodes c) as [|n ns] eqn:Hns; [done|].
  destruct (components c) as [|cmp cs] eqn:Hcs; [done|].
  simpl.
  destruct (buildElectricalNets (n :: ns) (connections c))
    as [[uf nodeToNet]|] eqn:Hnets; [|done].
  simpl.
  destruct (assignNetNames uf (n :: ns)) as [[netNames groundNet]|] eqn:Hnames;
    [|done].
  simpl.
  destruct groundNet as [g|]; [|done]. simpl.
  case_bool_decide as Hg; [done|].
  destruct (createNodes E netNames _) as [[ckt0 netToIndex]| |] eqn:Hcreate;
    [|done..].
  simpl.
  destruct (addBatteries E _ _ _ _ _ _) as [[ckt1 indices]| |] eqn:Hb; [|done..].
  simpl.
  destruct (forEachM (addBulb E _ _) _ _) as [ckt2| |] eqn:Hbulbs; [|done..].
  simpl.
  destruct (forEachM (addPot E _ _) _ _) as [ckt3| |] eqn:Hpots; [|done..].
  simpl. intros [= <-]. simpl.
  by exists uf, nodeToNet, netNames, g, ckt0, netToIndex, ckt1, indices, ckt2.
Qed.

Lemma simulateCircuit_inr E c t :
  translate E c = Returns (inr t) →
  simulateCircuit E c = Returns (solveAndInterpret E c t).
Proof. unfold simulateCircuit. by intros ->. Qed.

Lemma getAllBatteryIndices_seq cs :
  getAllBatteryIndices cs = seq 1 (length (ofType Battery cs)).
Proof.
  unfold getAllBatteryIndices. generalize (ofType Battery cs). intros l.
  rewrite (imap_seq_0 l (λ j, j + 1)). rewrite <- fmap_S_seq.
  apply list_fmap_ext. intros; lia.
Qed.

Lemma findRole_none r ns :
  Forall (λ n, Node.role n ≠ Some r) ns → findRole r ns = None.
Proof.
  unfold findRole. induction 1 as [|n ns Hn _ IH]; simpl; [done|].
  by rewrite bool_decide_eq_false_2.
Qed.

Lemma initBulbStates_lookup cs id :
  initBulbStates cs !! id
  = if decide (id ∈ Component.id <$> ofType Bulb cs)
    then Some defaultBulbState else None.
Proof.
  unfold initBulbStates. generalize (ofType Bulb cs). intros l.
  induction l as [|b l IH] using rev_ind; [apply obj_lookup_empty|].
  rewrite foldl_app, fmap_app. simpl.
  destruct (decide (Component.id b = id)) as [<-|Hne].
  - rewrite obj_lookup_insert_eq. rewrite decide_True; [done|].
    apply elem_of_app. right. by apply list_elem_of_singleton.
  - rewrite obj_lookup_insert_ne by done. rewrite IH.
    destruct (decide (id ∈ Component.id <$> l)) as [Hin|Hout].
    + rewrite decide_True; [done|]. apply elem_of_app. by left.
    + rewrite decide_False; [done|].
      intros [?|?%list_elem_of_singleton]%elem_of_app; done.
Qed.

(** The own entries and the prototype of the initial bulb states. *)
Lemma initBulbStates_own cs id :
  own (initBulbStates cs) !! id
  = if decide (id ∈ Component.id <$> ofType Bulb cs ∧ id ≠ "__proto__")
    then Some defaultBulbState else None.
Proof.
  unfold initBulbStates. generalize (ofType Bulb cs). intros l.
  induction l as [|b l IH] using rev_ind.
  - destruct (decide _) as [[H _]|_]; [by apply elem_of_nil in H | done].
  - rewrite foldl_app, fmap_app. simpl. rewrite obj_own_insert, IH.
    destruct (decide (Component.id b = id ∧ Component.id b ≠ "__proto__"))
      as [[<- Hp]|Hno].
    + rewrite decide_True; [done|]. split; [|done].
      apply elem_of_app. right. by apply list_elem_of_singleton.
    + destruct (decide (id ∈ Component.id <$> l ∧ id ≠ "__proto__"))
        as [[Hin Hp]|Hout].
      * rewrite decide_True; [done|]. split; [|done].
        apply elem_of_app. by left.
      * rewrite decide_False; [done|]. intros [Hin Hp]. 
        apply elem_of_app in Hin as [Hin|Hin%list_elem_of_singleton].
        -- by apply Hout.
        -- subst id. by apply Hno.
Qed.

Lemma initBulbStates_proto cs :
  proto (initBulbStates cs)
  = if decide ("__proto__" ∈ Component.id <$> ofType Bulb cs)
    then Some defaultBulbState else None.
Proof. rewrite <- obj_lookup_proto. apply initBulbStates_lookup. Qed.

(** ** The interpretation step, field by field *)

Lemma readBatteryCurrent_fold m bs : ∀ r,
  let r' := foldl (readBatteryCurrent m) r bs in
  totalCurrent r'
  = match last (omap (λ b, m !! currentKey b) bs) with
    | Some i => PrimFloat.abs i
    | None => totalCurrent r
    end
  ∧ hasClosedLoop r' = hasClosedLoop r
  ∧ bulbsOnCount r' = bulbsOnCount r
  ∧ bulbStates r' = bulbStates r
  ∧ nodeVoltages r' = nodeVoltages r
  ∧ batteryIndices r' = batteryIndices r.
Proof.
  induction bs as [|b bs IH] using rev_ind; intros r; simpl; [done|].
  rewrite foldl_app, omap_app. simpl.
  destruct (IH r) as (Ht & Hc & Hn & Hs & Hv & Hi).
  set (r0 := foldl (readBatteryCurrent m) r bs) in *.
  unfold readBatteryCurrent.
  destruct (m !! currentKey b) as [i|]; simpl.
  - by rewrite last_snoc.
  - by rewrite app_nil_r.
Qed.

Lemma interpretBulb_fold_other nets ns m bulbs : ∀ r,
  let r' := foldl (interpretBulb nets ns m) r bulbs in
  totalCurrent r' = totalCurrent r
  ∧ nodeVoltages r' = nodeVoltages r
  ∧ batteryIndices r' = batteryIndices r.
Proof.
  induction bulbs as [|b bulbs IH] using rev_ind; intros r; simpl; [done|].
  rewrite foldl_app. simpl. destruct (IH r) as (Ht & Hv & Hi).
  set (r0 := foldl (interpretBulb nets ns m) r bulbs) in *.
  unfold interpretBulb.
  destruct (nodesOf _ ns) as [|n1 [|n2 [|? ?]]]; try done.
  by destruct (isOn _).
Qed.

(** The entry of a two-terminal bulb after the bulb loop. *)
Lemma interpretBulb_fold_lookup nets ns m bulbs b n1 n2 : ∀ r,
  b ∈ bulbs → nodesOf (Component.id b) ns = [n1; n2] →
  bulbStates (foldl (interpretBulb nets ns m) r bulbs) !! Component.id b
  = Some (computeBulbState
            (terminalVoltage m
               (getNetName (Node.id n1) (nodeToNet nets) (netNames nets)))
            (terminalVoltage m
               (getNetName (Node.id n2) (nodeToNet nets) (netNames nets)))).
Proof.
  intros r Hin Hnodes. induction bulbs as [|x bulbs IH] using rev_ind.
  - by apply elem_of_nil in Hin.
  - rewrite foldl_app. simpl.
    destruct (decide (Component.id x = Component.id b)) as [Heq|Hne].
    + unfold interpretBulb at 1. rewrite Heq, Hnodes.
      destruct (isOn _); simpl; by rewrite obj_lookup_insert_eq.
    + assert (b ∈ bulbs) as Hb.
      { apply elem_of_app in Hin as [?|Hx%list_elem_of_singleton]; [done|].
        by subst. }
      unfold interpretBulb at 1.
      destruct (nodesOf (Component.id x) ns) as [|a1 [|a2 [|? ?]]]; try by apply IH.
      destruct (isOn _); simpl; rewrite obj_lookup_insert_ne by done; by apply IH.
Qed.

Lemma closedLoopCheck_fields r :
  bulbsOnCount (closedLoopCheck r) = bulbsOnCount r
  ∧ bulbStates (closedLoopCheck r) = bulbStates r
  ∧ nodeVoltages (closedLoopCheck r) = nodeVoltages r
  ∧ totalCurrent (closedLoopCheck r) = totalCurrent r
  ∧ batteryIndices (closedLoopCheck r) = batteryIndices r.
Proof. unfold closedLoopCheck. by destruct (_ && _). Qed.

Lemma shortCircuitCheck_fields cs r :
  hasClosedLoop (shortCircuitCheck cs r) = hasClosedLoop r
  ∧ bulbsOnCount (shortCircuitCheck cs r) = bulbsOnCount r
  ∧ bulbStates (shortCircuitCheck cs r) = bulbStates r
  ∧ nodeVoltages (shortCircuitCheck cs r) = nodeVoltages r
  ∧ totalCurrent (shortCircuitCheck cs r) = totalCurrent r.
Proof. unfold shortCircuitCheck. by destruct (_ && _). Qed.

Lemma interpret_totalCurrent c t m :
  totalCurrent (t_result t) = 0%float →
  totalCurrent (interpret c t m)
  = match last (omap (λ b, m !! currentKey b) (ofType Battery (components c))) with
    | Some i => PrimFloat.abs i
    | None => 0%float
    end.
Proof.
  intros H0. unfold interpret.
  destruct (shortCircuitCheck_fields (components c)
    (closedLoopCheck
       (foldl (interpretBulb (t_nets t) (nodes c) m)
          (foldl (readBatteryCurrent m) (copyVoltages m (t_result t))
             (ofType Battery (components c)))
          (ofType Bulb (components c))))) as (_ & _ & _ & _ & ->).
  destruct (closedLoopCheck_fields
    (foldl (interpretBulb (t_nets t) (nodes c) m)
       (foldl (readBatteryCurrent m) (copyVoltages m (t_result t))
          (ofType Battery (components c)))
       (ofType Bulb (components c)))) as (_ & _ & _ & -> & _).
  destruct (interpretBulb_fold_other (t_nets t) (nodes c) m
    (ofType Bulb (components c))
    (foldl (readBatteryCurrent m) (copyVoltages m (t_result t))
       (ofType Battery (components c)))) as (-> & _ & _).
  destruct (readBatteryCurrent_fold m (ofType Battery (components c))
    (copyVoltages m (t_result t))) as (-> & _).
  simpl. by rewrite H0.
Qed.

Lemma interpret_bulbStates c t m :
  bulbStates (interpret c t m)
  = bulbStates
      (foldl (interpretBulb (t_nets t) (nodes c) m)
         (foldl (readBatteryCurrent m) (copyVoltages m (t_result t))
            (ofType Battery (components c)))
         (ofType Bulb (components c))).
Proof.
  unfold interpret.
  destruct (shortCircuitCheck_fields (components c)
    (closedLoopCheck
       (foldl (interpretBulb (t_nets t) (nodes c) m)
          (foldl (readBatteryCurrent m) (copyVoltages m (t_result t))
             (ofType Battery (components c)))
          (ofType Bulb (components c))))) as (_ & _ & -> & _).
  destruct (closedLoopCheck_fields
    (foldl (interpretBulb (t_nets t) (nodes c) m)
       (foldl (readBatteryCurrent m) (copyVoltages m (t_result t))
          (ofType Battery (components c)))
       (ofType Bulb (components c)))) as (_ & -> & _).
  done.
Qed.

Lemma terminalVoltage_insert_absent (m : gmap string float) name net :
  m !! name = None →
  terminalVoltage (<[name := 0%float]> m) net = terminalVoltage m net.
Proof.
  intros Hnone. unfold terminalVoltage.
  destruct net as [n|].
  - destruct (decide (n = "gnd")); [done|].
    destruct (decide (name = n)) as [->|Hne].
    + by rewrite lookup_insert_eq, Hnone.
    + by rewrite lookup_insert_ne.
  - destruct (decide (name = "undefined")) as [->|Hne].
    + by rewrite lookup_insert_eq, Hnone.
    + by rewrite lookup_insert_ne.
Qed.

(** ** Elements added to the netlist *)

Lemma ckt_add_devices E ckt d ckt' :
  ckt_add E ckt d = Returns ckt' → devices ckt' = devices ckt ++ [d].
Proof. unfold ckt_add. destruct (raises _ _ _); [done|]. by intros [= <-]. Qed.

Lemma addPot_devices E nets ns pot ckt ckt' :
  addPot E nets ns pot ckt = Returns ckt' →
  (∀ d, d ∈ devices ckt → d ∈ devices ckt')
  ∧ ∀ n1 n2, nodesOf (Component.id pot) ns = [n1; n2] →
      Resistor (getNodeIndex nets (Node.id n1)) (getNodeIndex nets (Node.id n2))
        (potResistance pot) (Component.id pot) ∈ devices ckt'.
Proof.
  unfold addPot.
  destruct (nodesOf _ ns) as [|a1 [|a2 [|? ?]]];
    try (intros [= <-]; split; [done | intros; done]).
  intros Hadd%ckt_add_devices. rewrite Hadd. split.
  - intros d Hd. apply elem_of_app. by left.
  - intros n1 n2 [= <- <-]. apply elem_of_app. right.
    by apply list_elem_of_singleton.
Qed.

Lemma addPots_devices E nets ns pots : ∀ ckt ckt',
  forEachM (addPot E nets ns) pots ckt = Returns ckt' →
  (∀ d, d ∈ devices ckt → d ∈ devices ckt')
  ∧ ∀ pot n1 n2, pot ∈ pots → nodesOf (Component.id pot) ns = [n1; n2] →
      Resistor (getNodeIndex nets (Node.id n1)) (getNodeIndex nets (Node.id n2))
        (potResistance pot) (Component.id pot) ∈ devices ckt'.
Proof.
  induction pots as [|p pots IH]; intros ckt ckt'; simpl.
  - intros [= <-]. split; [done|]. intros pot n1 n2 Hin. by apply elem_of_nil in Hin.
  - destruct (addPot E nets ns p ckt) as [ckt1| |] eqn:Hp; [|done..]. simpl.
    intros Hrest. apply addPot_devices in Hp as [Hmono Hnew].
    apply IH in Hrest as [Hmono' Hnew']. split; [eauto|].
    intros pot n1 n2 [->|Hin]%elem_of_cons Hnodes; eauto.
Qed.

Lemma potResistance_falsy pot :
  truthy_number (Component.resistance pot) = false →
  potResistance pot = 500%float.
Proof.
  unfold potResistance. destruct (Component.resistance pot) as [r|]; [|done].
  by intros ->.
Qed.

(** ** Net names *)

(** The label the naming loop gives the root at position [i]. *)
Lemma nameRoots_loop g roots :
  NoDup roots →
  let st := foldl (nameRoots_step (Some g)) ([], 1) roots in
  JsMap.keys st.1 = roots
  ∧ st.2 = S (length (filter (λ x, x ≠ g) roots))
  ∧ ∀ i r, roots !! i = Some r →
      JsMap.get r st.1
      = Some (if decide (r = g) then "gnd"
              else "net" +:+ pretty (S (length (filter (λ x, x ≠ g) (take i roots))))).
Proof.
  induction roots as [|x roots IH] using rev_ind; intros Hnd.
  - simpl. split; [done|]. split; [done|]. intros i r Hi. done.
  - apply NoDup_app in Hnd as (Hnd & Hx & _).
    specialize (IH Hnd). simpl in IH. destruct IH as (Hkeys & Hcount & Hget).
    rewrite foldl_app. simpl.
    set (st := foldl (nameRoots_step (Some g)) ([], 1) roots) in *.
    assert (x ∉ roots) as Hfresh.
    { intros Hin. apply (Hx x Hin). by apply list_elem_of_singleton. }
    assert (JsMap.get x st.1 = None) as Hnone.
    { apply get_None_keys. by rewrite Hkeys. }
    assert (∀ v, JsMap.keys (JsMap.set x v st.1) = roots ++ [x]) as Hkeys'.
    { intros v. rewrite set_absent by done. unfold JsMap.keys in *.
      rewrite fmap_app. by rewrite Hkeys. }
    assert (∀ v i r, (roots ++ [x]) !! i = Some r → r ≠ x →
              JsMap.get r (JsMap.set x v st.1)
              = Some (if decide (r = g) then "gnd"
                      else "net" +:+ pretty
                             (S (length (filter (λ y, y ≠ g)
                                           (take i (roots ++ [x]))))))) as Hold.
    { intros v i r Hi Hrx.
      assert (roots !! i = Some r) as Hi'.
      { apply lookup_app_Some in Hi as [?|[_ Hi]]; [done|].
        apply list_lookup_singleton_Some in Hi as [_ ?]. done. }
      rewrite get_set_ne by done. rewrite (Hget i r Hi').
      rewrite take_app_le; [done|]. apply lookup_lt_Some in Hi'. lia. }
    assert (∀ i, (roots ++ [x]) !! i = Some x → i = length roots) as Hlast.
    { intros i Hi. apply lookup_app_Some in Hi as [Hi|[? Hi]].
      - exfalso. apply Hfresh. by eapply list_elem_of_lookup_2.
      - apply list_lookup_singleton_Some in Hi as [? _]. lia. }
    unfold nameRoots_step.
    destruct (decide (Some x = Some g)) as [Heq|Hne]; simpl.
    + injection Heq as ->. split; [apply Hkeys'|]. split.
      * rewrite filter_app, length_app, filter_cons_False; [|by intros H; apply H].
        rewrite filter_nil. simpl. lia.
      * intros i r Hi. destruct (decide (r = g)) as [->|Hrg].
        -- apply get_set_eq.
        -- rewrite (Hold _ i r Hi Hrg). by rewrite decide_False.
    + assert (x ≠ g) as Hxg by congruence.
      split; [apply Hkeys'|]. split.
      * rewrite filter_app, length_app, filter_cons_True by done.
        rewrite filter_nil. simpl. lia.
      * intros i r Hi. destruct (decide (r = x)) as [->|Hrx].
        -- rewrite get_set_eq. rewrite decide_False by done.
           rewrite (Hlast i Hi). rewrite take_app_length. by rewrite Hcount.
        -- apply Hold; done.
Qed.

Lemma filter_take_lt (g : string) (roots : list string) i j r :
  (i < j)%nat → roots !! i = Some r → r ≠ g →
  (length (filter (λ x, x ≠ g) (take i roots))
   < length (filter (λ x, x ≠ g) (take j roots)))%nat.
Proof.
  intros Hij Hi Hr.
  assert (take j roots = take i roots ++ take (j - i) (drop i roots)) as ->.
  { rewrite <- (take_drop i roots) at 1.
    rewrite take_app_ge; rewrite length_take; [|lia].
    apply lookup_lt_Some in Hi.
    replace (i `min` length roots) with i by lia. done. }
  rewrite (drop_S roots r i Hi).
  destruct (j - i) as [|k] eqn:Hk; [lia|]. simpl.
  rewrite filter_app, length_app, filter_cons_True by done. simpl. lia.
Qed.

Lemma findRole_first r pre m post :
  Node.role m = Some r → Forall (λ n, Node.role n ≠ Some r) pre →
  findRole r (pre ++ m :: post) = Some m.
Proof.
  intros Hm. unfold findRole. induction 1 as [|n pre Hn _ IH]; simpl.
  - by rewrite bool_decide_eq_true_2.
  - by rewrite bool_decide_eq_false_2.
Qed.

(** ** Self-shorted batteries *)

Lemma getShortedBatteryIds_elem cs ns n2n id :
  id ∈ getShortedBatteryIds cs ns n2n ↔
  (∃ b, b ∈ ofType Battery cs ∧ Component.id b = id)
  ∧ terminalsShorted id ns n2n = true.
Proof.
  unfold getShortedBatteryIds. generalize (ofType Battery cs). intros l.
  induction l as [|x l IH] using rev_ind.
  - simpl. split.
    + intros H. by apply elem_of_nil in H.
    + intros [[b [Hb _]] _]. by apply elem_of_nil in Hb.
  - rewrite foldl_app. simpl.
    destruct (terminalsShorted (Component.id x) ns n2n) eqn:Hx.
    + rewrite elem_of_set_add, IH. split.
      * intros [->|[[b [Hb Hid]] Hsh]].
        -- split; [|done]. exists x. split; [|done].
           apply elem_of_app. right. by apply list_elem_of_singleton.
        -- split; [|done]. exists b. split; [|done]. apply elem_of_app. by left.
      * intros [[b [Hb Hid]] Hsh].
        apply elem_of_app in Hb as [Hb|Hb%list_elem_of_singleton].
        -- right. eauto.
        -- subst b. left. done.
    + rewrite IH. split.
      * intros [[b [Hb Hid]] Hsh]. split; [|done].
        exists b. split; [|done]. apply elem_of_app. by left.
      * intros [[b [Hb Hid]] Hsh].
        apply elem_of_app in Hb as [Hb|Hb%list_elem_of_singleton]; [eauto|].
        subst b. subst id. congruence.
Qed.

(** The netlist side of the battery loop: only batteries that are not
    flagged contribute, in order. *)
Lemma addBatteries_fst E nets sh ns bs : ∀ idx st,
  fst <$> addBatteries E nets sh ns bs idx st
  = forEachM (addLiveBattery E nets ns)
      (filter (λ b, Component.id b ∉ sh) bs) st.1.
Proof.
  induction bs as [|b bs IH]; intros idx st; simpl; [done|].
  unfold addBattery. destruct (decide (Component.id b ∈ sh)) as [Hin|Hout].
  - rewrite filter_cons_False by (intros H; by apply H). simpl. by rewrite IH.
  - rewrite filter_cons_True by done. simpl.
    destruct (addLiveBattery E nets ns b st.1) as [ckt| |]; simpl; [|done..].
    by rewrite IH.
Qed.


Lemma interpret_batteryIndices c t m :
  batteryIndices (interpret c t m) = getAllBatteryIndices (components c)
  ∨ batteryIndices (interpret c t m) = batteryIndices (t_result t).
Proof.
  unfold interpret.
  set (r3 := foldl (interpretBulb _ _ _) _ _).
  assert (batteryIndices (closedLoopCheck r3) = batteryIndices (t_result t)) as Hidx.
  { destruct (closedLoopCheck_fields r3) as (_ & _ & _ & _ & ->).
    unfold r3.
    destruct (interpretBulb_fold_other (t_nets t) (nodes c) m
                (ofType Bulb (components c))
                (foldl (readBatteryCurrent m) (copyVoltages m (t_result t))
                   (ofType Battery (components c)))) as (_ & _ & ->).
    destruct (readBatteryCurrent_fold m (ofType Battery (components c))
                (copyVoltages m (t_result t))) as (_ & _ & _ & _ & _ & ->).
    done. }
  unfold shortCircuitCheck. destruct (_ && _); [by left | by right].
Qed.


Lemma ofType_app ty l1 l2 : ofType ty (l1 ++ l2) = ofType ty l1 ++ ofType ty l2.
Proof. unfold ofType. apply filter_app. Qed.

Lemma ofType_cons_same ty b l :
  Component.type b = ty → ofType ty (b :: l) = b :: ofType ty l.
Proof. intros H. unfold ofType. by rewrite filter_cons_True. Qed.


Lemma filter_ext_in {A} (P Q : A → Prop) `{∀ x, Decision (P x)}
  `{∀ x, Decision (Q x)} (l : list A) :
  (∀ x, x ∈ l → P x ↔ Q x) → filter P l = filter Q l.
Proof.
  induction l as [|a l IH]; intros Hext; [done|].
  assert (filter P l = filter Q l) as Hl.
  { apply IH. intros x Hx. apply Hext. by right. }
  destruct (decide (P a)) as [Hp|Hp].
  - rewrite !filter_cons_True; [by rewrite Hl | | done].
    apply Hext; [left | done].
  - rewrite !filter_cons_False; [done | | done].
    intros Hq. apply Hp. apply Hext; [left | done].
Qed.


Lemma createNodes_devices E entries : ∀ st st',
  createNodes E entries st = Returns st' → devices st'.1 = devices st.1.
Proof.
  induction entries as [|[root name] entries IH]; intros st st'; simpl.
  - by intros [= <-].
  - destruct (decide (name = "gnd")); [apply IH|].
    unfold ckt_node. destruct (raises _ _ _); [done|]. simpl.
    intros H%IH. done.
Qed.

(** ** Registered keys

    On the tables the program builds, every parent is a registered key.
    Hence [find] on a registered key registers nothing new, the keys
    [getRoots] iterates over do not change during its loop, and every
    representative is one of the ids handed to the structure. *)

Lemma get_set_mono {V} (m : list (string * V)) k v a :
  is_Some (JsMap.get a m) → is_Some (JsMap.get a (JsMap.set k v m)).
Proof.
  intros H. destruct (decide (k = a)) as [->|Hne].
  - rewrite get_set_eq. eauto.
  - by rewrite get_set_ne.
Qed.

Lemma closed_set p k v :
  closed p → (v = k ∨ is_Some (JsMap.get v p)) → closed (JsMap.set k v p).
Proof.
  intros Hc Hv k' v' Hget.
  destruct (decide (k = k')) as [<-|Hne].
  - rewrite get_set_eq in Hget. injection Hget as <-.
    destruct Hv as [->|Hv]; [rewrite get_set_eq; eauto | by apply get_set_mono].
  - rewrite get_set_ne in Hget by done. apply get_set_mono. eauto.
Qed.

Lemma makeSet_closed uf x :
  closed (UnionFind.parent uf) → closed (UnionFind.parent (UnionFind.makeSet x uf)).
Proof.
  intros Hc. unfold UnionFind.makeSet. destruct (JsMap.has _ _); [done|].
  simpl. apply closed_set; [done | by left].
Qed.

Lemma makeSet_keys_eq uf x :
  JsMap.keys (UnionFind.parent (UnionFind.makeSet x uf))
  = if JsMap.has x (UnionFind.parent uf) then JsMap.keys (UnionFind.parent uf)
    else JsMap.keys (UnionFind.parent uf) ++ [x].
Proof.
  unfold UnionFind.makeSet, JsMap.has.
  destruct (JsMap.get x (UnionFind.parent uf)) eqn:Hx; [done|]. simpl.
  rewrite set_absent by done. unfold JsMap.keys. by rewrite fmap_app.
Qed.

Lemma find_rec_closed fuel : ∀ uf x uf' r,
  closed (UnionFind.parent uf) →
  UnionFind.find_rec fuel uf x = Some (uf', r) →
  closed (UnionFind.parent uf')
  ∧ is_Some (JsMap.get r (UnionFind.parent uf'))
  ∧ JsMap.keys (UnionFind.parent uf')
    = JsMap.keys (UnionFind.parent (UnionFind.makeSet x uf)).
Proof.
  induction fuel as [|fuel IH]; intros uf x uf' r Hc; simpl; [done|].
  pose proof (makeSet_closed uf x Hc) as Hc1.
  destruct (JsMap.get x _) as [p|] eqn:Hx; [|done].
  destruct (decide (p = x)) as [->|Hne].
  - intros [= <- <-]. split; [done|]. split; [eauto | done].
  - destruct (UnionFind.find_rec fuel _ p) as [[uf2 r2]|] eqn:Hrec; [|done].
    simpl. rewrite get_set_eq. intros [= <- <-]. simpl.
    destruct (IH _ _ _ _ Hc1 Hrec) as (Hc2 & Hr2 & Hk2).
    assert (JsMap.has p (UnionFind.parent (UnionFind.makeSet x uf)) = true) as Hp.
    { unfold JsMap.has. by destruct (Hc1 x p Hx) as [? ->]. }
    rewrite makeSet_keys_eq, Hp in Hk2.
    split; [apply closed_set; [done | by right]|].
    split; [by apply get_set_mono|].
    rewrite set_present; [done|].
    apply get_Some_keys. rewrite Hk2. apply get_Some_keys. eauto.
Qed.

Lemma find_closed uf x uf' r :
  closed (UnionFind.parent uf) →
  UnionFind.find uf x = Some (uf', r) →
  closed (UnionFind.parent uf')
  ∧ r ∈ JsMap.keys (UnionFind.parent uf')
  ∧ JsMap.keys (UnionFind.parent uf')
    = JsMap.keys (UnionFind.parent (UnionFind.makeSet x uf)).
Proof.
  intros Hc Hf. apply find_rec_closed in Hf as (? & ? & ?); [|done].
  split; [done|]. split; [by apply get_Some_keys | done].
Qed.

(** [find] on a registered key leaves the key list as it is. *)
Lemma find_registered_keys uf x uf' r :
  closed (UnionFind.parent uf) →
  x ∈ JsMap.keys (UnionFind.parent uf) →
  UnionFind.find uf x = Some (uf', r) →
  JsMap.keys (UnionFind.parent uf') = JsMap.keys (UnionFind.parent uf).
Proof.
  intros Hc Hx Hf. apply find_closed in Hf as (_ & _ & ->); [|done].
  rewrite makeSet_keys_eq. unfold JsMap.has.
  apply get_Some_keys in Hx as [? ->]. done.
Qed.

(** The keys [getRoots] iterates over are the same before and after
    its loop: iterating the key list read at the start is iterating the
    live table. *)
Lemma getRoots_loop_keys elems : ∀ uf acc uf' roots,
  closed (UnionFind.parent uf) →
  elems ⊆ JsMap.keys (UnionFind.parent uf) →
  UnionFind.getRoots_loop elems uf acc = Some (uf', roots) →
  JsMap.keys (UnionFind.parent uf') = JsMap.keys (UnionFind.parent uf).
Proof.
  induction elems as [|e elems IH]; intros uf acc uf' roots Hc Hsub; simpl.
  - by intros [= <- _].
  - destruct (UnionFind.find uf e) as [[uf1 r]|] eqn:Hf; [|done]. simpl.
    assert (e ∈ JsMap.keys (UnionFind.parent uf)) as He by (apply Hsub; left).
    pose proof (find_registered_keys _ _ _ _ Hc He Hf) as Hk.
    apply find_closed in Hf as (Hc1 & _ & _); [|done].
    intros Hrest. rewrite <- Hk. eapply IH; [done | | done].
    rewrite Hk. intros k Hkin. apply Hsub. by right.
Qed.

Lemma getRoots_keys uf uf' roots :
  closed (UnionFind.parent uf) →
  UnionFind.getRoots uf = Some (uf', roots) →
  JsMap.keys (UnionFind.parent uf') = JsMap.keys (UnionFind.parent uf).
Proof. intros Hc. by apply getRoots_loop_keys. Qed.

Lemma union_closed uf x y uf' :
  closed (UnionFind.parent uf) →
  UnionFind.union uf x y = Some uf' →
  closed (UnionFind.parent uf')
  ∧ ∀ k, k ∈ JsMap.keys (UnionFind.parent uf') →
         k ∈ JsMap.keys (UnionFind.parent uf) ∨ k = x ∨ k = y.
Proof.
  intros Hc. unfold UnionFind.union.
  destruct (UnionFind.find uf x) as [[uf1 rx]|] eqn:Hx; [|done]. simpl.
  destruct (UnionFind.find uf1 y) as [[uf2 ry]|] eqn:Hy; [|done]. simpl.
  destruct (find_closed _ _ _ _ Hc Hx) as (Hc1 & Hrx & Hk1).
  destruct (find_closed _ _ _ _ Hc1 Hy) as (Hc2 & Hry & Hk2).
  assert (rx ∈ JsMap.keys (UnionFind.parent uf2)) as Hrx2.
  { apply find_keys in Hy as [Hsub _]. by apply Hsub. }
  assert (∀ k, k ∈ JsMap.keys (UnionFind.parent uf2) →
            k ∈ JsMap.keys (UnionFind.parent uf) ∨ k = x ∨ k = y) as Hkeys.
  { intros k. rewrite Hk2, makeSet_keys_eq.
    destruct (JsMap.has y _); rewrite ?elem_of_app, ?list_elem_of_singleton;
      rewrite Hk1, makeSet_keys_eq;
      destruct (JsMap.has x _); rewrite ?elem_of_app, ?list_elem_of_singleton;
      tauto. }
  assert (∀ a b, a ∈ JsMap.keys (UnionFind.parent uf2) →
            b ∈ JsMap.keys (UnionFind.parent uf2) →
            closed (JsMap.set a b (UnionFind.parent uf2))
            ∧ ∀ k, k ∈ JsMap.keys (JsMap.set a b (UnionFind.parent uf2)) →
                   k ∈ JsMap.keys (UnionFind.parent uf) ∨ k = x ∨ k = y) as Hset.
  { intros a b Ha Hb. split.
    - apply closed_set; [done|]. right. by apply get_Some_keys.
    - intros k. rewrite set_present by (by apply get_Some_keys). apply Hkeys. }
  destruct (decide (rx = ry)); [intros [= <-]; done|].
  destruct (UnionFind.num_lt _ _); [|destruct (UnionFind.num_lt _ _)];
    intros [= <-]; simpl; by apply Hset.
Qed.





(** ** When translation completes *)


Lemma createNodes_quiet E entries : ∀ st,
  quiet E → ∃ st', createNodes E entries st = Returns st'.
Proof.
  induction entries as [|[root name] entries IH]; intros st Hq; simpl; [eauto|].
  destruct (decide (name = "gnd")); [by apply IH|].
  unfold ckt_node. rewrite Hq. simpl. by apply IH.
Qed.

Lemma addLiveBattery_quiet E nets ns b ckt :
  quiet E → ∃ ckt', addLiveBattery E nets ns b ckt = Returns ckt'.
Proof.
  intros Hq. unfold addLiveBattery.
  destruct (findRole battery_plus _) as [p|]; [|eauto].
  destruct (findRole battery_minus _) as [m|]; [|eauto].
  unfold ckt_node, ckt_add. rewrite !Hq. simpl. rewrite !Hq. simpl.
  rewrite !Hq. eauto.
Qed.

Lemma addBatteries_quiet E nets sh ns bs : ∀ idx st,
  quiet E → ∃ st', addBatteries E nets sh ns bs idx st = Returns st'.
Proof.
  induction bs as [|b bs IH]; intros idx st Hq; simpl; [eauto|].
  unfold addBattery. destruct (decide (Component.id b ∈ sh)); simpl.
  - by apply IH.
  - destruct (addLiveBattery_quiet E nets ns b st.1 Hq) as [ckt' ->]. simpl.
    by apply IH.
Qed.

Lemma forEachM_total {A S} (f : A → S → Outcome S) (l : list A) : ∀ s,
  (∀ a s, ∃ s', f a s = Returns s') → ∃ s', forEachM f l s = Returns s'.
Proof.
  induction l as [|a l IH]; intros s Hf; simpl; [eauto|].
  destruct (Hf a s) as [s1 ->]. simpl. by apply IH.
Qed.

Lemma addBulb_quiet E nets ns b ckt :
  quiet E → ∃ ckt', addBulb E nets ns b ckt = Returns ckt'.
Proof.
  intros Hq. unfold addBulb.
  destruct (nodesOf _ ns) as [|n1 [|n2 [|? ?]]]; eauto.
  unfold ckt_add. rewrite Hq. eauto.
Qed.

Lemma addPot_quiet E nets ns b ckt :
  quiet E → ∃ ckt', addPot E nets ns b ckt = Returns ckt'.
Proof.
  intros Hq. unfold addPot.
  destruct (nodesOf _ ns) as [|n1 [|n2 [|? ?]]]; eauto.
  unfold ckt_add. rewrite Hq. eauto.
Qed.


(** ** What [nodeToNet] records *)

Lemma nodeToNet_loop_get ns : ∀ uf m uf' m',
  acyclic (UnionFind.parent uf) →
  nodeToNet_loop ns uf m = Some (uf', m') →
  ∀ k, (k ∈ Node.id <$> ns →
        ∃ r, JsMap.get k m' = Some r ∧ rootof (UnionFind.parent uf) k r)
       ∧ (k ∉ Node.id <$> ns → JsMap.get k m' = JsMap.get k m).
Proof.
  induction ns as [|n ns IH]; intros uf m uf' m' Hac; simpl.
  - intros [= <- <-] k. split; [|done]. intros H. by apply elem_of_nil in H.
  - destruct (find_spec uf (Node.id n) Hac) as (uf1 & r & Hf & Hr & Hp1).
    rewrite Hf. simpl. intros Hrest k.
    pose proof (preserves_acyclic _ _ Hac Hp1) as Hac1.
    destruct (IH _ _ _ _ Hac1 Hrest k) as [Hin Hout].
    destruct (decide (k ∈ Node.id <$> ns)) as [Hk|Hk].
    + destruct (Hin Hk) as (r' & Hget & Hroot).
      apply (preserves_rootof _ _ k r' Hac Hp1) in Hroot.
      split; [eauto|]. intros Hn. exfalso. apply Hn. by right.
    + rewrite (Hout Hk). split.
      * intros [->|?]%elem_of_cons; [|done]. rewrite get_set_eq. eauto.
      * intros Hn. rewrite get_set_ne; [done|]. intros <-. apply Hn. left.
Qed.

(** Two nodes get the same entry in [nodeToNet] exactly when wires join
    them, directly or through other nodes. *)
Lemma nodeToNet_same_net ns conns uf n2n n1 n2 :
  buildElectricalNets ns conns = Some (uf, n2n) →
  n1 ∈ ns → n2 ∈ ns →
  JsMap.get (Node.id n1) n2n = JsMap.get (Node.id n2) n2n
  ↔ same_component (wires conns) (Node.id n1) (Node.id n2).
Proof.
  unfold buildElectricalNets. intros Hbuild H1 H2.
  assert (represents (UnionFind.parent (registerNodes ns UnionFind.new)) [])
    as Hrep0.
  { eapply represents_preserves; [apply represents_new|].
    apply registerNodes_preserves. }
  destruct (unions_represents (wires conns) _ [] Hrep0) as (uf1 & Hu & Hrep1).
  rewrite Hu in Hbuild. simpl in Hbuild, Hrep1.
  destruct Hrep1 as [Hac Hiff].
  pose proof (nodeToNet_loop_get ns uf1 [] uf n2n Hac Hbuild) as Hget.
  destruct (Hget (Node.id n1)) as [Hg1 _]. destruct (Hget (Node.id n2)) as [Hg2 _].
  destruct Hg1 as (r1 & -> & Hr1); [apply list_elem_of_fmap; eauto|].
  destruct Hg2 as (r2 & -> & Hr2); [apply list_elem_of_fmap; eauto|].
  rewrite <- Hiff. split.
  - intros [= ->]. by exists r2.
  - intros [r [Hx Hy]]. f_equal.
    by rewrite (rootof_fun _ _ _ _ Hr1 Hx), (rootof_fun _ _ _ _ Hr2 Hy).
Qed.

(** ** Self-shorted batteries, end to end *)

Lemma findRole_elem r ns m :
  findRole r ns = Some m → m ∈ ns ∧ Node.role m = Some r.
Proof.
  unfold findRole. intros [Hin Hr]%find_some.
  split; [by apply list_elem_of_In | by apply bool_decide_eq_true in Hr].
Qed.


(** ** The call counter never runs out

    [OutOfFuel] is an artefact of modelling [find] with a counter: no
    run of [simulateCircuit] ends there. *)

Lemma bind_fueled {A B} (m : Outcome A) (f : A → Outcome B) :
  m ≠ OutOfFuel → (∀ a, f a ≠ OutOfFuel) → m ≫= f ≠ OutOfFuel.
Proof. intros Hm Hf. destruct m; simpl; [apply Hf | done | done]. Qed.

Lemma ckt_node_fueled E ckt name : ckt_node E ckt name ≠ OutOfFuel.
Proof. unfold ckt_node. by destruct (raises _ _ _). Qed.

Lemma ckt_add_fueled E ckt d : ckt_add E ckt d ≠ OutOfFuel.
Proof. unfold ckt_add. by destruct (raises _ _ _). Qed.

Lemma createNodes_fueled E entries : ∀ st, createNodes E entries st ≠ OutOfFuel.
Proof.
  induction entries as [|[root name] entries IH]; intros st; simpl; [done|].
  destruct (decide (name = "gnd")); [apply IH|].
  apply bind_fueled; [apply ckt_node_fueled|]. intros [ckt idx]. apply IH.
Qed.

Lemma addLiveBattery_fueled E nets ns b ckt :
  addLiveBattery E nets ns b ckt ≠ OutOfFuel.
Proof.
  unfold addLiveBattery.
  destruct (findRole battery_plus _); [|done].
  destruct (findRole battery_minus _); [|done].
  apply bind_fueled; [apply ckt_node_fueled|]. intros [ckt1 idx].
  apply bind_fueled; [apply ckt_add_fueled|]. intros ckt2.
  apply ckt_add_fueled.
Qed.

Lemma addBatteries_fueled E nets sh ns bs : ∀ idx st,
  addBatteries E nets sh ns bs idx st ≠ OutOfFuel.
Proof.
  induction bs as [|b bs IH]; intros idx st; simpl; [done|].
  apply bind_fueled; [|intros; apply IH].
  unfold addBattery. destruct (decide _); [done|].
  apply bind_fueled; [apply addLiveBattery_fueled | done].
Qed.

Lemma forEachM_fueled {A S} (f : A → S → Outcome S) (l : list A) : ∀ s,
  (∀ a s, f a s ≠ OutOfFuel) → forEachM f l s ≠ OutOfFuel.
Proof.
  induction l as [|a l IH]; intros s Hf; simpl; [done|].
  apply bind_fueled; [apply Hf | intros; by apply IH].
Qed.

Lemma addBulb_fueled E nets ns b ckt : addBulb E nets ns b ckt ≠ OutOfFuel.
Proof.
  unfold addBulb. destruct (nodesOf _ ns) as [|n1 [|n2 [|? ?]]]; try done.
  apply ckt_add_fueled.
Qed.

Lemma addPot_fueled E nets ns b ckt : addPot E nets ns b ckt ≠ OutOfFuel.
Proof.
  unfold addPot. destruct (nodesOf _ ns) as [|n1 [|n2 [|? ?]]]; try done.
  apply ckt_add_fueled.
Qed.

Lemma simulateCircuit_fueled E c : simulateCircuit E c ≠ OutOfFuel.
Proof.
  unfold simulateCircuit. apply bind_fueled; [|by intros [r|t]].
  unfold translate. destruct (_ || _); [done|].
  destruct (buildElectricalNets_spec (nodes c) (connections c))
    as (uf & n2n & -> & Hrep).
  simpl.
  destruct (assignNetNames_total uf (nodes c) (proj1 Hrep))
    as (names & groundNet & -> & _).
  simpl. destruct (falsy_string groundNet); [done|].
  apply bind_fueled; [apply createNodes_fueled|]. intros [ckt0 n2i].
  apply bind_fueled; [apply addBatteries_fueled|]. intros [ckt1 indices].
  apply bind_fueled; [apply forEachM_fueled; intros; apply addBulb_fueled|].
  intros ckt2.
  apply bind_fueled; [apply forEachM_fueled; intros; apply addPot_fueled|].
  done.
Qed.

(** ** The netlist, element by element *)

Lemma ckt_node_devices E ckt name ckt' i :
  ckt_node E ckt name = Returns (ckt', i) → devices ckt' = devices ckt.
Proof. unfold ckt_node. destruct (raises _ _ _); [done|]. by intros [= <- _]. Qed.

Lemma nodesOf_elem id ns n : n ∈ nodesOf id ns → n ∈ ns.
Proof. unfold nodesOf. by intros [_ ?]%list_elem_of_filter. Qed.

Lemma elem_of_two {A} (h a b : A) : h ∈ [a; b] → h = a ∨ h = b.
Proof.
  intros [->|H]%elem_of_cons; [by left|].
  apply list_elem_of_singleton in H. by right.
Qed.

Lemma terminalsShorted_iff id ns n2n :
  terminalsShorted id ns n2n = true ↔
  ∃ p m, findRole battery_plus (nodesOf id ns) = Some p
         ∧ findRole battery_minus (nodesOf id ns) = Some m
         ∧ JsMap.get (Node.id p) n2n = JsMap.get (Node.id m) n2n.
Proof.
  unfold terminalsShorted.
  destruct (findRole battery_plus _) as [p|];
    [|split; [done | by intros (? & ? & ? & _)]].
  destruct (findRole battery_minus _) as [m|];
    [|split; [done | by intros (? & ? & _ & ? & _)]].
  rewrite bool_decide_eq_true. split.
  - intros H. by exists p, m.
  - intros (p' & m' & [= <-] & [= <-] & H). done.
Qed.

Lemma addResistors_devices E nets ns (value : Component.t → float) bs :
  ∀ ckt ckt',
  forEachM (λ b ckt,
    match nodesOf (Component.id b) ns with
    | [n1; n2] =>
        ckt_add E ckt
          (Resistor (getNodeIndex nets (Node.id n1))
             (getNodeIndex nets (Node.id n2)) (value b) (Component.id b))
    | _ => Returns ckt
    end) bs ckt = Returns ckt' →
  devices ckt' = devices ckt ++ (bs ≫= resistorElement nets ns value).
Proof.
  induction bs as [|b bs IH]; intros ckt ckt'; simpl.
  - intros [= <-]. by rewrite app_nil_r.
  - unfold resistorElement at 1.
    destruct (nodesOf (Component.id b) ns) as [|n1 [|n2 [|n3 rest]]] eqn:Hb;
      simpl; try apply IH.
    destruct (ckt_add E ckt _) as [ckt1| |] eqn:Hadd; [|done..]. simpl.
    intros H. rewrite (IH _ _ H), (ckt_add_devices _ _ _ _ Hadd).
    by rewrite <- (assoc_L (++)).
Qed.

(** The elements of the batteries that are not skipped: a source and an
    internal resistor for each battery with both terminals, and nothing
    else. *)
Lemma liveBatteries_devices E nets ns bs : ∀ ckt ckt',
  forEachM (addLiveBattery E nets ns) bs ckt = Returns ckt' →
  ∃ bp, devices ckt' = devices ckt ++ bp
    ∧ (∀ d, d ∈ bp →
         ∃ b p m i,
           b ∈ bs
           ∧ findRole battery_plus (nodesOf (Component.id b) ns) = Some p
           ∧ findRole battery_minus (nodesOf (Component.id b) ns) = Some m
           ∧ (d = VSource (Some i) (getNodeIndex nets (Node.id m))
                    BATTERY_VOLTAGE (Component.id b)
              ∨ d = Resistor (getNodeIndex nets (Node.id p)) (Some i)
                      BATTERY_INTERNAL_RESISTANCE
                      (Component.id b +:+ "_Rint")))
    ∧ (∀ b p m,
         b ∈ bs →
         findRole battery_plus (nodesOf (Component.id b) ns) = Some p →
         findRole battery_minus (nodesOf (Component.id b) ns) = Some m →
         ∃ i,
           VSource (Some i) (getNodeIndex nets (Node.id m))
             BATTERY_VOLTAGE (Component.id b) ∈ bp
           ∧ Resistor (getNodeIndex nets (Node.id p)) (Some i)
               BATTERY_INTERNAL_RESISTANCE (Component.id b +:+ "_Rint") ∈ bp).
Proof.
  induction bs as [|b bs IH]; intros ckt ckt'; simpl.
  - intros [= <-]. exists []. rewrite app_nil_r. split; [done|]. split.
    + intros d Hd. by apply elem_of_nil in Hd.
    + intros b p m Hb. by apply elem_of_nil in Hb.
  - destruct (addLiveBattery E nets ns b ckt) as [ckt1| |] eqn:Hb; [|done..].
    simpl. intros Hrest.
    destruct (IH _ _ Hrest) as (bp & Hdev & Honly & Hall).
    assert (∃ here,
              devices ckt1 = devices ckt ++ here
              ∧ (∀ d, d ∈ here →
                   ∃ p m i,
                     findRole battery_plus (nodesOf (Component.id b) ns) = Some p
                     ∧ findRole battery_minus (nodesOf (Component.id b) ns)
                       = Some m
                     ∧ (d = VSource (Some i) (getNodeIndex nets (Node.id m))
                              BATTERY_VOLTAGE (Component.id b)
                        ∨ d = Resistor (getNodeIndex nets (Node.id p)) (Some i)
                                BATTERY_INTERNAL_RESISTANCE
                                (Component.id b +:+ "_Rint")))
              ∧ (∀ p m,
                   findRole battery_plus (nodesOf (Component.id b) ns) = Some p →
                   findRole battery_minus (nodesOf (Component.id b) ns) = Some m →
                   ∃ i,
                     VSource (Some i) (getNodeIndex nets (Node.id m))
                       BATTERY_VOLTAGE (Component.id b) ∈ here
                     ∧ Resistor (getNodeIndex nets (Node.id p)) (Some i)
                         BATTERY_INTERNAL_RESISTANCE
                         (Component.id b +:+ "_Rint") ∈ here))
      as (here & Hhere & Hhere_only & Hhere_all).
    { unfold addLiveBattery in Hb.
      destruct (findRole battery_plus _) as [p|] eqn:Hp.
      2:{ injection Hb as <-. exists []. rewrite app_nil_r.
          split; [done|]. split; [|done].
          intros d Hd. by apply elem_of_nil in Hd. }
      destruct (findRole battery_minus _) as [m|] eqn:Hm.
      2:{ injection Hb as <-. exists []. rewrite app_nil_r.
          split; [done|]. split; [|done].
          intros d Hd. by apply elem_of_nil in Hd. }
      destruct (ckt_node E ckt _) as [[ckt2 i]| |] eqn:Hn; [|done..].
      simpl in Hb.
      destruct (ckt_add E ckt2 _) as [ckt3| |] eqn:Hv; [|done..]. simpl in Hb.
      apply ckt_add_devices in Hb. apply ckt_add_devices in Hv.
      apply ckt_node_devices in Hn.
      eexists [_; _]. split.
      { rewrite Hb, Hv, Hn. by rewrite <- (assoc_L (++)). }
      split.
      - intros d [-> | ->]%elem_of_two; exists p, m, i;
          (split; [done|]); (split; [done|]); [by left | by right].
      - intros p' m' [= <-] [= <-]. exists i. split; [left | right; left]. }
    exists (here ++ bp). split.
    { rewrite Hdev, Hhere. by rewrite <- (assoc_L (++)). }
    split.
    + intros d [Hd|Hd]%elem_of_app.
      * destruct (Hhere_only d Hd) as (p & m & i & Hp & Hm & Hd').
        exists b, p, m, i. split; [left | done].
      * destruct (Honly d Hd) as (b' & p & m & i & Hb' & Hrest').
        exists b', p, m, i. split; [by right | done].
    + intros b' p m [->|Hb']%elem_of_cons Hp Hm.
      * destruct (Hhere_all p m Hp Hm) as (i & H1 & H2).
        exists i. split; apply elem_of_app; by left.
      * destruct (Hall b' p m Hb' Hp Hm) as (i & H1 & H2).
        exists i. split; apply elem_of_app; by right.
Qed.

(** The netlist of a completed translation: the elements of the
    batteries whose terminals are not joined by wires, then one
    resistor per bulb with two terminals, then one per potentiometer
    with two terminals. *)
Lemma translate_netlist E c t :
  translate E c = Returns (inr t) →
  ∃ bp,
    devices (t_ckt t)
    = bp
      ++ (ofType Bulb (components c)
            ≫= resistorElement (t_nets t) (nodes c) (λ _, BULB_RESISTANCE))
      ++ (ofType Potentiometer (components c)
            ≫= resistorElement (t_nets t) (nodes c) potResistance)
    ∧ (∀ d, d ∈ bp →
         ∃ b p m i,
           b ∈ ofType Battery (components c)
           ∧ findRole battery_plus (nodesOf (Component.id b) (nodes c)) = Some p
           ∧ findRole battery_minus (nodesOf (Component.id b) (nodes c))
             = Some m
           ∧ ¬ same_component (wires (connections c)) (Node.id p) (Node.id m)
           ∧ (d = VSource (Some i) (getNodeIndex (t_nets t) (Node.id m))
                    BATTERY_VOLTAGE (Component.id b)
              ∨ d = Resistor (getNodeIndex (t_nets t) (Node.id p)) (Some i)
                      BATTERY_INTERNAL_RESISTANCE
                      (Component.id b +:+ "_Rint")))
    ∧ (∀ b p m,
         b ∈ ofType Battery (components c) →
         findRole battery_plus (nodesOf (Component.id b) (nodes c)) = Some p →
         findRole battery_minus (nodesOf (Component.id b) (nodes c)) = Some m →
         ¬ same_component (wires (connections c)) (Node.id p) (Node.id m) →
         ∃ i,
           VSource (Some i) (getNodeIndex (t_nets t) (Node.id m))
             BATTERY_VOLTAGE (Component.id b) ∈ bp
           ∧ Resistor (getNodeIndex (t_nets t) (Node.id p)) (Some i)
               BATTERY_INTERNAL_RESISTANCE (Component.id b +:+ "_Rint") ∈ bp).
Proof.
  intros Ht.
  destruct (translate_inr E c t Ht)
    as (uf & n2n & names & g & ckt0 & n2i & ckt1 & indices & ckt2
        & _ & _ & Hb & _ & _ & Hc & Hnets & Hbat & Hbulb & Hpot & _).
  set (sh := getShortedBatteryIds (components c) (nodes c) n2n) in *.
  assert (∀ b p m,
            b ∈ ofType Battery (components c) →
            findRole battery_plus (nodesOf (Component.id b) (nodes c)) = Some p →
            findRole battery_minus (nodesOf (Component.id b) (nodes c)) = Some m →
            Component.id b ∉ sh
            ↔ ¬ same_component (wires (connections c)) (Node.id p) (Node.id m))
    as Hlive.
  { intros b p m Hbin Hp Hm.
    destruct (findRole_elem _ _ _ Hp) as [Hpin _].
    destruct (findRole_elem _ _ _ Hm) as [Hmin _].
    apply nodesOf_elem in Hpin, Hmin.
    rewrite <- (nodeToNet_same_net (nodes c) (connections c) uf n2n p m Hb)
      by done.
    unfold sh. rewrite getShortedBatteryIds_elem, terminalsShorted_iff.
    split.
    - intros Hno Heq. apply Hno. split; [eauto|]. by exists p, m.
    - intros Hne [_ (p' & m' & Hp' & Hm' & Heq)].
      rewrite Hp in Hp'. rewrite Hm in Hm'.
      injection Hp' as <-. injection Hm' as <-. done. }
  pose proof (addBatteries_fst E (t_nets t) sh (nodes c)
                (ofType Battery (components c)) 0 (ckt0, [])) as Hfst.
  rewrite Hbat in Hfst. simpl in Hfst. symmetry in Hfst.
  destruct (liveBatteries_devices _ _ _ _ _ _ Hfst) as (bp & Hdev & Honly & Hall).
  pose proof (createNodes_devices _ _ _ _ Hc) as Hnone. simpl in Hnone.
  rewrite Hnone in Hdev. simpl in Hdev.
  exists bp. split; [|split].
  - rewrite (addResistors_devices E (t_nets t) (nodes c) potResistance _ _ _ Hpot).
    rewrite (addResistors_devices E (t_nets t) (nodes c) (λ _, BULB_RESISTANCE)
               _ _ _ Hbulb).
    rewrite Hdev. by rewrite <- (assoc_L (++)).
  - intros d Hd.
    destruct (Honly d Hd) as (b & p & m & i & [Hout Hbin]%list_elem_of_filter
                              & Hp & Hm & Hd').
    exists b, p, m, i. split; [done|]. split; [done|]. split; [done|].
    split; [by apply (Hlive b p m) | done].
  - intros b p m Hbin Hp Hm Hne.
    apply (Hall b p m); [|done..].
    apply list_elem_of_filter. split; [by apply (Hlive b p m) | done].
Qed.

Lemma resistorElement_resistor nets ns value cs d :
  d ∈ cs ≫= resistorElement nets ns value →
  ∃ c n1 n2,
    c ∈ cs ∧ nodesOf (Component.id c) ns = [n1; n2]
    ∧ d = Resistor (getNodeIndex nets (Node.id n1))
            (getNodeIndex nets (Node.id n2)) (value c) (Component.id c).
Proof.
  intros (c & Hd & Hc)%list_elem_of_bind. unfold resistorElement in Hd.
  destruct (nodesOf (Component.id c) ns) as [|n1 [|n2 [|n3 rest]]] eqn:Hn;
    try by apply elem_of_nil in Hd.
  apply list_elem_of_singleton in Hd. by exists c, n1, n2.
Qed.

Lemma potResistance_truthy pot :
  truthy_number (Some (potResistance pot)) = true.
Proof.
  unfold potResistance. destruct (Component.resistance pot) as [r|]; [|done].
  by destruct (truthy_number (Some r)) eqn:Hr.
Qed.

(** ** Claims *)

(** C1 as stated fails: with two batteries whose branch currents are
    both in the solved map, [totalCurrent] is the magnitude of the
    second one, not of the first. *)
Lemma totalCurrent_first_battery_counterexample :
  ∃ r b i,
    simulateCircuit (counting (λ _, DcSolved two_loops_solution)) two_loops
    = Returns r
    ∧ List.find (λ b, bool_decide (is_Some (two_loops_solution !! currentKey b)))
        (ofType Battery (components two_loops)) = Some b
    ∧ two_loops_solution !! currentKey b = Some i
    ∧ totalCurrent r ≠ PrimFloat.abs i.
Proof.
  eexists _, _, _. split; [vm_compute; reflexivity|].
  split; [vm_compute; reflexivity|].
  split; [vm_compute; reflexivity|].
  intros H. apply (f_equal (λ f, PrimFloat.eqb f 0.008999%float)) in H.
  vm_compute in H. discriminate.
Qed.

(** C1, amended. On solver success [totalCurrent] is the absolute value
    of the branch current of the last battery, in order of appearance,
    whose branch current [I(<id>)] is defined in the solved map, and 0
    when no battery has one. *)
Theorem totalCurrent_last_battery E c t (m : gmap string float) :
  translate E c = Returns (inr t) →
  dc E (t_ckt t) = DcSolved m →
  ∃ r, simulateCircuit E c = Returns r
       ∧ totalCurrent r
         = match last (omap (λ b, m !! currentKey b)
                         (ofType Battery (components c))) with
           | Some i => PrimFloat.abs i
           | None => 0%float
           end.
Proof.
  intros Ht Hdc. rewrite (simulateCircuit_inr _ _ _ Ht).
  eexists. split; [done|]. unfold solveAndInterpret. rewrite Hdc.
  apply interpret_totalCurrent.
  apply translate_inr in Ht as (?&?&?&?&?&?&?&?&?&_&_&_&_&_&_&_&_&_&_&->).
  done.
Qed.

Lemma totalCurrent_last_battery_witness :
  ∃ r, simulateCircuit (counting (λ _, DcSolved two_loops_solution)) two_loops
       = Returns r
       ∧ totalCurrent r = 0.008999%float.
Proof.
  destruct (totalCurrent_last_battery
              (counting (λ _, DcSolved two_loops_solution)) two_loops
              (match translate (counting (λ _, DcSolved two_loops_solution))
                       two_loops with
               | Returns (inr t) => t
               | _ => mkTranslation (mkNets [] [] []) ckt_new emptyResult
               end)
              two_loops_solution)
    as [r [Hr Ht]]; [vm_compute; reflexivity | vm_compute; reflexivity |].
  exists r. split; [done|]. rewrite Ht. vm_compute. reflexivity.
Defined.

(** C2 as stated fails: a circuit with a bulb but no [battery_minus]
    node gets the bulb's default entry in [bulbStates], not an empty
    map. *)
Lemma incomplete_result_bulbStates_counterexample :
  Forall (λ n, Node.role n ≠ Some battery_minus) (nodes bulb_only)
  ∧ ∃ r, simulateCircuit (counting (λ _, DcUndefined)) bulb_only = Returns r
         ∧ bulbStates r !! "4" = Some defaultBulbState
         ∧ bulbStates r ≠ ∅.
Proof.
  split; [repeat constructor; done|].
  eexists. split; [vm_compute; reflexivity|].
  split; [vm_compute; reflexivity|].
  intros H. apply (f_equal (λ s : JsObject BulbState, s !! "4")) in H.
  vm_compute in H. discriminate.
Qed.

(** C2, amended. When the node or the component collection is empty,
    and when no node has role [battery_minus], [simulateCircuit]
    returns one and the same result whatever the collaborator would
    answer (the solver is not consulted): [hasClosedLoop = false],
    [bulbsOnCount = 0], [totalCurrent = 0], empty [batteryIndices] and
    empty [nodeVoltages]; [bulbStates] is empty when a collection is
    empty, and otherwise holds exactly the initial bulb states: its own
    entries are the default state under the id of every bulb component
    other than ["__proto__"], and nothing else; a bulb whose id is
    ["__proto__"] makes the default state the object's prototype
    instead. *)
Theorem incomplete_circuit_result c :
  nodes c = [] ∨ components c = []
  ∨ Forall (λ n, Node.role n ≠ Some battery_minus) (nodes c) →
  ∃ r, (∀ E, simulateCircuit E c = Returns r)
       ∧ hasClosedLoop r = false ∧ bulbsOnCount r = 0
       ∧ totalCurrent r = 0%float ∧ batteryIndices r = []
       ∧ nodeVoltages r = ∅
       ∧ (nodes c = [] ∨ components c = [] → bulbStates r = ∅)
       ∧ (nodes c ≠ [] → components c ≠ [] →
          (∀ id, own (bulbStates r) !! id
                 = if decide (id ∈ Component.id <$> ofType Bulb (components c)
                              ∧ id ≠ "__proto__")
                   then Some defaultBulbState else None)
          ∧ proto (bulbStates r)
            = if decide ("__proto__"
                         ∈ Component.id <$> ofType Bulb (components c))
              then Some defaultBulbState else None).
Proof.
  intros H. unfold simulateCircuit, translate.
  destruct (nodes c) as [|n ns] eqn:Hns.
  { simpl. eexists. repeat split; try done. }
  destruct (components c) as [|cmp cs] eqn:Hcs.
  { simpl. eexists. repeat split; try done. }
  destruct H as [H|[H|H]]; [done..|].
  simpl.
  destruct (buildElectricalNets_spec (n :: ns) (connections c))
    as (uf & nodeToNet & -> & Hrep).
  simpl.
  destruct (assignNetNames_total uf (n :: ns) (proj1 Hrep))
    as (names & groundNet & -> & Hnone).
  rewrite (Hnone (findRole_none _ _ H)). simpl.
  eexists. split; [done|]. split; [done|]. split; [done|]. split; [done|].
  split; [done|]. split; [done|]. split.
  - intros [?|?]; done.
  - intros _ _. split.
    + intros id. apply initBulbStates_own.
    + apply initBulbStates_proto.
Qed.

Lemma incomplete_circuit_result_witness :
  ∃ r, simulateCircuit rejecting bulb_only = Returns r
       ∧ batteryIndices r = []
       ∧ own (bulbStates r) !! "4" = Some defaultBulbState
       ∧ proto (bulbStates r) = None.
Proof.
  destruct (incomplete_circuit_result bulb_only)
    as (r & Hr & _ & _ & _ & Hi & _ & _ & Hs).
  { right. right. repeat constructor; done. }
  destruct Hs as [Hown Hproto]; [done..|].
  exists r. split; [done|]. split; [done|].
  rewrite Hown, Hproto. split; vm_compute; reflexivity.
Defined.

(** C3. For every sequence of [union] calls on a fresh [UnionFind] and
    every pair of ids [x], [y]: the calls all return, [connected(x, y)]
    returns, and its answer is [true] exactly when [x] and [y] lie in
    the same connected component of the undirected graph whose edges
    are the argument pairs of the calls (an id that occurs in no call
    is alone in its component). *)
Theorem connected_iff_same_component (es : list (string * string)) (x y : string) :
  ∃ uf uf' b,
    UnionFind.unions es UnionFind.new = Some uf
    ∧ UnionFind.connected uf x y = Some (uf', b)
    ∧ (b = true ↔ same_component es x y).
Proof.
  destruct (unions_represents es UnionFind.new [] represents_new)
    as (uf & Hu & Hac & Hiff).
  destruct (connected_spec uf x y Hac) as (uf' & b & Hc & _ & Hb).
  exists uf, uf', b. split; [done|]. split; [done|].
  rewrite Hb. apply Hiff.
Qed.

(** C4. After all wire unions are applied, in a circuit with at least
    one [battery_minus] node ([m] being the first in node order),
    [assignNetNames] returns; its name table has one entry per root
    listed by [getRoots()]; exactly one root is named ["gnd"], namely
    the root [uf.find] gives for [m]; every other root, at position [i]
    of [getRoots()], is named ["net<k>"] where [k] is one more than the
    number of non-ground roots before it; and no two roots share a
    name. *)
Theorem ground_and_net_names (ns : list Node.t) conns pre m post :
  ns = pre ++ m :: post →
  Node.role m = Some battery_minus →
  Forall (λ n, Node.role n ≠ Some battery_minus) pre →
  ∃ uf nodeToNet uf1 g uf2 roots names,
    buildElectricalNets ns conns = Some (uf, nodeToNet)
    ∧ represents (UnionFind.parent uf) (wires conns)
    ∧ UnionFind.find uf (Node.id m) = Some (uf1, g)
    ∧ rootof (UnionFind.parent uf) (Node.id m) g
    ∧ UnionFind.getRoots uf1 = Some (uf2, roots)
    ∧ assignNetNames uf ns = Some (names, Some g)
    ∧ NoDup roots ∧ g ∈ roots ∧ JsMap.keys names = roots
    ∧ (∀ r, JsMap.get r names = Some "gnd" ↔ r = g)
    ∧ (∀ i r, roots !! i = Some r → r ≠ g →
         JsMap.get r names
         = Some ("net" +:+ pretty (S (length (filter (λ x, x ≠ g) (take i roots))))))
    ∧ (∀ r1 r2 name, JsMap.get r1 names = Some name →
         JsMap.get r2 names = Some name → r1 = r2).
Proof.
  intros -> Hm Hpre.
  destruct (buildElectricalNets_spec (pre ++ m :: post) conns)
    as (uf & nodeToNet & Hbuild & Hrep).
  pose proof (proj1 Hrep) as Hac.
  destruct (findGround_spec uf (pre ++ m :: post) Hac)
    as (uf1 & groundNet & Hground & Hp1 & Hg).
  rewrite (findRole_first _ _ _ _ Hm Hpre) in Hg.
  destruct Hg as (g & -> & Hfind & Hroot).
  pose proof (preserves_acyclic _ _ Hac Hp1) as Hac1.
  destruct (getRoots_spec uf1 Hac1) as (uf2 & roots & Hroots & Hnd & Hin).
  destruct (nameRoots_loop g roots Hnd) as (Hkeys & _ & Hget).
  fold (nameRoots (Some g) roots) in Hkeys, Hget.
  assert (g ∈ roots) as Hgin.
  { apply Hin. exists (Node.id m). split.
    - by apply find_keys in Hfind as [_ ?].
    - by apply Hp1. }
  assert (∀ k : nat, "net" +:+ pretty k ≠ "gnd") as Hnet by (intros k; discriminate).
  assert (∀ r name, JsMap.get r (nameRoots (Some g) roots) = Some name →
            ∃ i, roots !! i = Some r) as Hpos.
  { intros r name Hr. apply list_elem_of_lookup. rewrite <- Hkeys.
    apply get_Some_keys. eauto. }
  exists uf, nodeToNet, uf1, g, uf2, roots, (nameRoots (Some g) roots).
  split; [done|]. split; [done|]. split; [done|]. split; [done|].
  split; [done|]. split.
  { unfold assignNetNames. rewrite Hground. simpl. by rewrite Hroots. }
  split; [done|]. split; [done|]. split; [done|]. split; [|split].
  - intros r. split.
    + intros Hr. destruct (Hpos r _ Hr) as [i Hi].
      rewrite (Hget i r Hi) in Hr. destruct (decide (r = g)); [done|].
      apply (inj Some) in Hr. by apply Hnet in Hr.
    + intros ->. apply list_elem_of_lookup in Hgin as [i Hi].
      rewrite (Hget i g Hi). by rewrite decide_True.
  - intros i r Hi Hrg. rewrite (Hget i r Hi). by rewrite decide_False.
  - intros r1 r2 name H1 H2.
    destruct (Hpos r1 _ H1) as [i1 Hi1]. destruct (Hpos r2 _ H2) as [i2 Hi2].
    rewrite (Hget i1 r1 Hi1) in H1. rewrite (Hget i2 r2 Hi2) in H2.
    destruct (decide (r1 = g)) as [->|Hr1], (decide (r2 = g)) as [->|Hr2].
    + done.
    + apply (inj Some) in H1. subst name.
      apply (inj Some) in H2. by apply Hnet in H2.
    + apply (inj Some) in H2. subst name.
      apply (inj Some) in H1. by apply Hnet in H1.
    + rewrite <- H2 in H1. apply (inj Some) in H1.
      apply (inj (String.append "net")) in H1. apply (inj pretty) in H1.
      destruct (Nat.lt_trichotomy i1 i2) as [Hlt|[->|Hlt]].
      * pose proof (filter_take_lt g roots i1 i2 r1 Hlt Hi1 Hr1). lia.
      * congruence.
      * pose proof (filter_take_lt g roots i2 i1 r2 Hlt Hi2 Hr2). lia.
Qed.

Lemma ground_and_net_names_witness :
  ∃ names, assignNetNames
             (match buildElectricalNets (nodes two_loops) (connections two_loops) with
              | Some (uf, _) => uf
              | None => UnionFind.new
              end) (nodes two_loops) = Some (names, Some "6")
           ∧ JsMap.get "6" names = Some "gnd".
Proof.
  destruct (ground_and_net_names (nodes two_loops) (connections two_loops)
              [Node.mk "2" "1" (Some battery_plus)]
              (Node.mk "3" "1" (Some battery_minus))
              (drop 2 (nodes two_loops)))
    as (uf & n2n & uf1 & g & uf2 & roots & names
        & Hb & _ & Hf & _ & _ & Ha & _ & _ & _ & Hgnd & _).
  - reflexivity.
  - reflexivity.
  - repeat constructor; done.
  - rewrite Hb. vm_compute in Hb. injection Hb as <- <-.
    vm_compute in Hf. injection Hf as <- <-.
    exists names. split; [done|]. by apply Hgnd.
Defined.




(** C6. For every bulb with exactly two terminals, on solver success
    its entry in [bulbStates] has [current = |V1 - V2| / 500], where a
    terminal on ["gnd"] reads exactly 0 V; [isBurnedOut] is
    [current > 0.05]; [isOn] is [not isBurnedOut and current > 0.001];
    so a burned-out bulb is never on. *)
Theorem bulb_state_thresholds E c t (m : gmap string float) b n1 n2 :
  translate E c = Returns (inr t) →
  dc E (t_ckt t) = DcSolved m →
  b ∈ components c → Component.type b = Bulb →
  nodesOf (Component.id b) (nodes c) = [n1; n2] →
  let net1 := getNetName (Node.id n1) (nodeToNet (t_nets t)) (netNames (t_nets t)) in
  let net2 := getNetName (Node.id n2) (nodeToNet (t_nets t)) (netNames (t_nets t)) in
  ∃ r st v1 v2,
    simulateCircuit E c = Returns r
    ∧ bulbStates r !! Component.id b = Some st
    ∧ voltageNode1 st = Some v1 ∧ voltageNode2 st = Some v2
    ∧ (net1 = Some "gnd" → v1 = 0%float)
    ∧ (net2 = Some "gnd" → v2 = 0%float)
    ∧ (∀ name, net1 = Some name → name ≠ "gnd" →
               v1 = default 0%float (m !! name))
    ∧ (∀ name, net2 = Some name → name ≠ "gnd" →
               v2 = default 0%float (m !! name))
    ∧ current st = (PrimFloat.abs (v1 - v2) / 500)%float
    ∧ isBurnedOut st = Some (0.05 <? current st)%float
    ∧ isOn st = negb (0.05 <? current st)%float && (0.001 <? current st)%float
    ∧ (isBurnedOut st = Some true → isOn st = false).
Proof.
  intros Ht Hdc Hb Hty Hnodes net1 net2.
  rewrite (simulateCircuit_inr _ _ _ Ht).
  eexists _, _, (terminalVoltage m net1), (terminalVoltage m net2).
  split; [done|]. unfold solveAndInterpret. rewrite Hdc.
  rewrite interpret_bulbStates.
  split.
  { apply interpretBulb_fold_lookup; [|done].
    unfold ofType. apply list_elem_of_filter. done. }
  fold net1 net2. simpl.
  repeat split; try done.
  - intros ->. done.
  - intros ->. done.
  - intros name -> Hne. simpl. by rewrite decide_False.
  - intros name -> Hne. simpl. by rewrite decide_False.
  - intros [= ->]. done.
Qed.

Lemma bulb_state_thresholds_witness :
  ∃ r st,
    simulateCircuit (counting (λ _, DcSolved lamp_solution)) lamp = Returns r
    ∧ bulbStates r !! "4" = Some st
    ∧ isBurnedOut st = Some (0.05 <? current st)%float
    ∧ isOn st = true.
Proof.
  destruct (bulb_state_thresholds
              (counting (λ _, DcSolved lamp_solution)) lamp
              (match translate (counting (λ _, DcSolved lamp_solution)) lamp with
               | Returns (inr t) => t
               | _ => mkTranslation (mkNets [] [] []) ckt_new emptyResult
               end)
              lamp_solution (Component.mk "4" Bulb None)
              (Node.mk "5" "4" (Some bulb_terminal))
              (Node.mk "6" "4" (Some bulb_terminal)))
    as (r & st & v1 & v2 & Hr & Hst & _ & _ & _ & _ & _ & _ & Hcur & Hburn & Hon & _).
  - vm_compute. reflexivity.
  - vm_compute. reflexivity.
  - right. left.
  - reflexivity.
  - vm_compute. reflexivity.
  - exists r, st. split; [done|]. split; [done|]. split; [done|].
    assert (Returns r = simulateCircuit
              (counting (λ _, DcSolved lamp_solution)) lamp) as Hv by done.
    vm_compute in Hv. injection Hv as ->.
    vm_compute in Hst. injection Hst as <-. vm_compute. reflexivity.
Defined.

(** C7 as stated fails: the [try] block starts at the DC analysis, so an
    exception raised while the netlist is built escapes to the caller. *)
Lemma translation_exception_counterexample :
  simulateCircuit rejecting lamp = Throws.
Proof. vm_compute. reflexivity. Qed.

(** C7, amended. Once the netlist is built, whenever the solver reports
    failure or its call raises, [simulateCircuit] returns (no exception
    reaches the caller) a result whose [batteryIndices] lists the
    positions of all batteries, 1-based and in order of appearance, and
    whose other fields keep their defaults: [hasClosedLoop = false],
    [bulbsOnCount = 0], [totalCurrent = 0], empty [nodeVoltages], the
    initial bulb states. *)
Theorem solver_failure_flags_all_batteries E c t :
  translate E c = Returns (inr t) →
  dc E (t_ckt t) = DcUndefined ∨ dc E (t_ckt t) = DcThrows →
  simulateCircuit E c
  = Returns (mkResult false 0 (initBulbStates (components c)) ∅ 0%float
               (seq 1 (length (ofType Battery (components c))))).
Proof.
  intros Ht Hdc. rewrite (simulateCircuit_inr _ _ _ Ht). f_equal.
  unfold solveAndInterpret, flagAllBatteries.
  apply translate_inr in Ht as (?&?&?&?&?&?&?&?&?&_&_&_&_&_&_&_&_&_&_&->).
  simpl. rewrite getAllBatteryIndices_seq. by destruct Hdc as [-> | ->].
Qed.

Lemma solver_failure_flags_all_batteries_witness :
  simulateCircuit (counting (λ _, DcThrows)) lamp
  = Returns (mkResult false 0 (initBulbStates (components lamp)) ∅ 0%float [1]).
Proof.
  apply (solver_failure_flags_all_batteries (counting (λ _, DcThrows)) lamp
           (match translate (counting (λ _, DcThrows)) lamp with
            | Returns (inr t) => t
            | _ => mkTranslation (mkNets [] [] []) ckt_new emptyResult
            end)).
  - vm_compute. reflexivity.
  - right. reflexivity.
Defined.

(** C8. On solver success, if the final [totalCurrent] exceeds 100 mA,
    the final [bulbsOnCount] is 0 and there is at least one battery,
    then the returned [batteryIndices] is the list of all battery
    positions (1-based, order of appearance), whatever indices the
    translation had recorded; otherwise the recorded indices stand.
    The test reads the fields as they are after the bulb loop and the
    closed-loop check. *)
Theorem no_load_short_flags_all_batteries E c t (m : gmap string float) :
  translate E c = Returns (inr t) →
  dc E (t_ckt t) = DcSolved m →
  ∃ r, simulateCircuit E c = Returns r
       ∧ ((0.1 <? totalCurrent r)%float = true → bulbsOnCount r = 0 →
          ofType Battery (components c) ≠ [] →
          batteryIndices r = seq 1 (length (ofType Battery (components c))))
       ∧ ((0.1 <? totalCurrent r)%float = false ∨ bulbsOnCount r ≠ 0
          ∨ ofType Battery (components c) = [] →
          batteryIndices r = batteryIndices (t_result t)).
Proof.
  intros Ht Hdc. rewrite (simulateCircuit_inr _ _ _ Ht).
  eexists. split; [done|]. unfold solveAndInterpret. rewrite Hdc.
  unfold interpret.
  set (r3 := foldl (interpretBulb _ _ _) _ _).
  assert (batteryIndices (closedLoopCheck r3) = batteryIndices (t_result t)) as Hidx.
  { destruct (closedLoopCheck_fields r3) as (_ & _ & _ & _ & ->).
    unfold r3.
    destruct (interpretBulb_fold_other (t_nets t) (nodes c) m
                (ofType Bulb (components c))
                (foldl (readBatteryCurrent m) (copyVoltages m (t_result t))
                   (ofType Battery (components c)))) as (_ & _ & ->).
    destruct (readBatteryCurrent_fold m (ofType Battery (components c))
                (copyVoltages m (t_result t))) as (_ & _ & _ & _ & _ & ->).
    done. }
  destruct (shortCircuitCheck_fields (components c) (closedLoopCheck r3))
    as (_ & Hn & _ & _ & Hcur).
  rewrite Hn, Hcur. unfold shortCircuitCheck, SHORT_CIRCUIT_CURRENT.
  split.
  - intros -> -> Hb. simpl.
    destruct (ofType Battery (components c)) eqn:Hbat; [done|].
    simpl. rewrite getAllBatteryIndices_seq. by rewrite Hbat.
  - intros [-> | [Hcount | ->]]; simpl; [done| |by rewrite andb_false_r].
    apply Nat.eqb_neq in Hcount. rewrite Hcount.
    by rewrite andb_false_r.
Qed.

Lemma no_load_short_flags_all_batteries_witness :
  ∃ r, simulateCircuit (counting (λ _, DcSolved series_short_solution)) series_short
       = Returns r
       ∧ batteryIndices r = [1; 2].
Proof.
  destruct (no_load_short_flags_all_batteries
              (counting (λ _, DcSolved series_short_solution)) series_short
              (match translate (counting (λ _, DcSolved series_short_solution))
                       series_short with
               | Returns (inr t) => t
               | _ => mkTranslation (mkNets [] [] []) ckt_new emptyResult
               end)
              series_short_solution)
    as (r & Hr & Hall & _); [vm_compute; reflexivity | vm_compute; reflexivity |].
  exists r. split; [done|].
  assert (Returns r = simulateCircuit
            (counting (λ _, DcSolved series_short_solution)) series_short) as Hv
    by done.
  vm_compute in Hv. injection Hv as ->. apply Hall.
  - vm_compute. reflexivity.
  - reflexivity.
  - vm_compute. discriminate.
Defined.

(** C9. For every potentiometer with exactly two terminals whose
    stored resistance is falsy (absent, zero or NaN), the netlist gets
    a resistor of exactly 500 ohm, named after the potentiometer,
    between the nodes of its two nets: a stored 0 is replaced by the
    default and is not translated as a 0 ohm element.  No resistor of
    the netlist has a falsy value (0 or NaN); and the potentiometer
    contributes that one element and no other: the netlist is the
    battery elements, then the resistors of the bulbs, then those of
    the potentiometers listed before it, then its 500 ohm resistor,
    then those of the potentiometers listed after it. *)
Theorem falsy_pot_resistance_defaults_to_500 E c t pot n1 n2 :
  translate E c = Returns (inr t) →
  pot ∈ components c → Component.type pot = Potentiometer →
  nodesOf (Component.id pot) (nodes c) = [n1; n2] →
  truthy_number (Component.resistance pot) = false →
  potResistance pot = 500%float
  ∧ Resistor (getNodeIndex (t_nets t) (Node.id n1))
             (getNodeIndex (t_nets t) (Node.id n2))
             500%float (Component.id pot) ∈ devices (t_ckt t)
  ∧ (∀ i j v name,
       Resistor i j v name ∈ devices (t_ckt t) → truthy_number (Some v) = true)
  ∧ (∀ pre post,
       components c = pre ++ pot :: post →
       ∃ batteryPart,
         devices (t_ckt t)
         = batteryPart
           ++ (ofType Bulb (components c)
                 ≫= resistorElement (t_nets t) (nodes c) (λ _, BULB_RESISTANCE))
           ++ (ofType Potentiometer pre
                 ≫= resistorElement (t_nets t) (nodes c) potResistance)
           ++ [Resistor (getNodeIndex (t_nets t) (Node.id n1))
                 (getNodeIndex (t_nets t) (Node.id n2))
                 500%float (Component.id pot)]
           ++ (ofType Potentiometer post
                 ≫= resistorElement (t_nets t) (nodes c) potResistance)
         ∧ ∀ d, d ∈ batteryPart →
             ∃ b i j,
               b ∈ ofType Battery (components c)
               ∧ (d = VSource i j BATTERY_VOLTAGE (Component.id b)
                  ∨ d = Resistor i j BATTERY_INTERNAL_RESISTANCE
                          (Component.id b +:+ "_Rint"))).
Proof.
  intros Ht Hin Hty Hnodes Hfalsy.
  pose proof (potResistance_falsy pot Hfalsy) as Hres.
  split; [done|].
  destruct (translate_netlist E c t Ht) as (bp & Hdev & Honly & _).
  assert (∀ d, d ∈ bp →
            ∃ b i j,
              b ∈ ofType Battery (components c)
              ∧ (d = VSource i j BATTERY_VOLTAGE (Component.id b)
                 ∨ d = Resistor i j BATTERY_INTERNAL_RESISTANCE
                         (Component.id b +:+ "_Rint"))) as Hbp.
  { intros d Hd.
    destruct (Honly d Hd) as (b & p & m & i & Hb & _ & _ & _ & [-> | ->]).
    - exists b, (Some i), (getNodeIndex (t_nets t) (Node.id m)).
      split; [done | by left].
    - exists b, (getNodeIndex (t_nets t) (Node.id p)), (Some i).
      split; [done | by right]. }
  split; [|split].
  - rewrite <- Hres.
    apply translate_inr in Ht as (?&?&?&?&?&?&?&?&?&_&_&_&_&_&_&_&_&_&Hpots&_).
    apply addPots_devices in Hpots as [_ Hnew].
    apply Hnew; [|done]. unfold ofType. by apply list_elem_of_filter.
  - intros i j v name Hd. rewrite Hdev in Hd.
    apply elem_of_app in Hd as [Hd|Hd].
    { destruct (Hbp _ Hd) as (b & i' & j' & _ & [Heq|Heq]); [done|].
      by injection Heq as _ _ -> _. }
    apply elem_of_app in Hd as [Hd|Hd];
      apply resistorElement_resistor in Hd as (x & a1 & a2 & _ & _ & Heq);
      injection Heq as _ _ -> _; [done|].
    apply potResistance_truthy.
  - intros pre post Hcs. exists bp. split; [|done].
    rewrite Hdev. do 2 f_equal.
    rewrite Hcs at 1. rewrite ofType_app, ofType_cons_same by done.
    rewrite bind_app, bind_cons. f_equal.
    unfold resistorElement at 1. by rewrite Hnodes, Hres.
Qed.

Lemma falsy_pot_resistance_defaults_to_500_witness :
  ∃ t, translate (counting (λ _, DcUndefined)) dimmer = Returns (inr t)
       ∧ Resistor (Some 0%Z) (Some (-1)%Z) 500%float "7" ∈ devices (t_ckt t).
Proof.
  set (t := match translate (counting (λ _, DcUndefined)) dimmer with
            | Returns (inr t) => t
            | _ => mkTranslation (mkNets [] [] []) ckt_new emptyResult
            end).
  exists t. split; [vm_compute; reflexivity|].
  destruct (falsy_pot_resistance_defaults_to_500
              (counting (λ _, DcUndefined)) dimmer t
              (Component.mk "7" Potentiometer (Some 0%float))
              (Node.mk "8" "7" (Some potentiometer_terminal))
              (Node.mk "9" "7" (Some potentiometer_terminal))) as (_ & Hin & _).
  - vm_compute. reflexivity.
  - right. left.
  - reflexivity.
  - vm_compute. reflexivity.
  - vm_compute. reflexivity.
  - vm_compute in Hin. vm_compute. exact Hin.
Defined.

(** C10. For a bulb with two terminals, a terminal whose net name is
    not ["gnd"] and has no entry in the solved map reads exactly 0 V.
    The call returns, and the bulb has a populated entry in
    [bulbStates] (an own property, unless the bulb's id is
    ["__proto__"]), different from the initial default: its two
    terminal voltages are recorded, with 0 for that terminal; its
    voltage drop is [|v1 - v2|], its current the drop over 500 ohm,
    its power drop times current; it is burned out when the current
    exceeds 50 mA, on when it is not burned out and the current exceeds
    1 mA, and its brightness is 0 when it is off and otherwise
    [(current - 0.001) / (0.018 - 0.001)] capped to [[0, 2]].  The
    entry is the same as if the solver had returned 0 V for that
    net. *)
Theorem absent_net_reads_zero E c t (m : gmap string float) b n1 n2 name :
  translate E c = Returns (inr t) →
  dc E (t_ckt t) = DcSolved m →
  b ∈ components c → Component.type b = Bulb →
  nodesOf (Component.id b) (nodes c) = [n1; n2] →
  name ≠ "gnd" → m !! name = None →
  let net1 := getNetName (Node.id n1) (nodeToNet (t_nets t)) (netNames (t_nets t)) in
  let net2 := getNetName (Node.id n2) (nodeToNet (t_nets t)) (netNames (t_nets t)) in
  net1 = Some name ∨ net2 = Some name →
  ∃ r st v1 v2,
    simulateCircuit E c = Returns r
    ∧ bulbStates r !! Component.id b = Some st
    ∧ (Component.id b ≠ "__proto__" →
       own (bulbStates r) !! Component.id b = Some st)
    ∧ st = computeBulbState v1 v2
    ∧ v1 = (if decide (net1 = Some name) then 0%float else terminalVoltage m net1)
    ∧ v2 = (if decide (net2 = Some name) then 0%float else terminalVoltage m net2)
    ∧ voltageNode1 st = Some v1
    ∧ voltageNode2 st = Some v2
    ∧ voltage st = PrimFloat.abs (v1 - v2)
    ∧ current st = (PrimFloat.abs (v1 - v2) / 500)%float
    ∧ power st = (PrimFloat.abs (v1 - v2) * (PrimFloat.abs (v1 - v2) / 500))%float
    ∧ isBurnedOut st = Some (0.05 <? current st)%float
    ∧ isOn st = negb (0.05 <? current st)%float && (0.001 <? current st)%float
    ∧ brightness st
      = Some (if isOn st
              then Math_max 0%float
                     (Math_min ((current st - 0.001) / (0.018 - 0.001))%float
                        2%float)
              else 0%float)
    ∧ st ≠ defaultBulbState
    ∧ bulbStates (interpret c t (<[name := 0%float]> m)) !! Component.id b
      = Some st.
Proof.
  intros Ht Hdc Hb Hty Hnodes Hgnd Hnone net1 net2 Hnet.
  rewrite (simulateCircuit_inr _ _ _ Ht).
  assert (b ∈ ofType Bulb (components c)) as Hin.
  { unfold ofType. apply list_elem_of_filter. done. }
  eexists _, _, (terminalVoltage m net1), (terminalVoltage m net2).
  split; [done|]. unfold solveAndInterpret. rewrite Hdc.
  rewrite !interpret_bulbStates.
  rewrite !(interpretBulb_fold_lookup _ _ _ _ b n1 n2) by done.
  fold net1 net2. rewrite !terminalVoltage_insert_absent by done.
  split; [done|].
  assert (∀ net, net = Some name → terminalVoltage m net = 0%float) as Hzero.
  { intros net ->. simpl. rewrite decide_False by done. by rewrite Hnone. }
  split.
  { intros Hid. rewrite <- obj_lookup_own by done.
    by apply interpretBulb_fold_lookup. }
  split; [done|].
  split; [destruct (decide (net1 = Some name)); [by apply Hzero | done]|].
  split; [destruct (decide (net2 = Some name)); [by apply Hzero | done]|].
  repeat split; done.
Qed.

Lemma absent_net_reads_zero_witness :
  ∃ r, simulateCircuit (counting (λ _, DcSolved lamp_partial_solution)) lamp
       = Returns r
       ∧ bulbStates r !! "4" = Some (computeBulbState 0%float 0%float)
       ∧ own (bulbStates r) !! "4" = Some (computeBulbState 0%float 0%float).
Proof.
  destruct (absent_net_reads_zero
              (counting (λ _, DcSolved lamp_partial_solution)) lamp
              (match translate (counting (λ _, DcSolved lamp_partial_solution))
                       lamp with
               | Returns (inr t) => t
               | _ => mkTranslation (mkNets [] [] []) ckt_new emptyResult
               end)
              lamp_partial_solution (Component.mk "4" Bulb None)
              (Node.mk "5" "4" (Some bulb_terminal))
              (Node.mk "6" "4" (Some bulb_terminal)) "net1")
    as (r & st & v1 & v2 & Hr & Hst & Hown & -> & Hv1 & Hv2 & _).
  - vm_compute. reflexivity.
  - vm_compute. reflexivity.
  - right. left.
  - reflexivity.
  - vm_compute. reflexivity.
  - discriminate.
  - vm_compute. reflexivity.
  - left. vm_compute. reflexivity.
  - exists r. split; [done|]. simpl in Hst, Hown.
    rewrite Hst, Hown by discriminate. rewrite Hv1, Hv2.
    vm_compute. split; reflexivity.
Defined.

(** ** Further properties of the union-find tables *)

Lemma makeSet_present uf x :
  x ∈ JsMap.keys (UnionFind.parent uf) → UnionFind.makeSet x uf = uf.
Proof.
  intros [v Hv]%get_Some_keys. unfold UnionFind.makeSet, JsMap.has.
  by rewrite Hv.
Qed.

Lemma find_rec_rank fuel : ∀ uf x uf' r,
  closed (UnionFind.parent uf) →
  UnionFind.find_rec fuel uf x = Some (uf', r) →
  UnionFind.rank uf' = UnionFind.rank (UnionFind.makeSet x uf).
Proof.
  induction fuel as [|fuel IH]; intros uf x uf' r Hc; simpl; [done|].
  pose proof (makeSet_closed uf x Hc) as Hc1.
  destruct (JsMap.get x _) as [p|] eqn:Hx; [|done].
  destruct (decide (p = x)) as [->|Hne]; [by intros [= <- _]|].
  destruct (UnionFind.find_rec fuel _ p) as [[uf2 r2]|] eqn:Hrec; [|done].
  simpl. rewrite get_set_eq. intros [= <- _]. simpl.
  rewrite (IH _ _ _ _ Hc1 Hrec).
  rewrite makeSet_present; [done|]. apply get_Some_keys. eauto.
Qed.

(** The representative [find] returns is its own parent, and the key
    looked up points straight at it afterwards. *)
Lemma find_rec_result fuel : ∀ uf x uf' r,
  UnionFind.find_rec fuel uf x = Some (uf', r) →
  JsMap.get r (UnionFind.parent uf') = Some r
  ∧ JsMap.get x (UnionFind.parent uf') = Some r.
Proof.
  induction fuel as [|fuel IH]; intros uf x uf' r; simpl; [done|].
  destruct (JsMap.get x _) as [p|] eqn:Hx; [|done].
  destruct (decide (p = x)) as [->|Hne]; [by intros [= <- <-]|].
  destruct (UnionFind.find_rec fuel _ p) as [[uf2 r2]|] eqn:Hrec; [|done].
  simpl. rewrite get_set_eq. intros [= <- <-]. simpl.
  apply IH in Hrec as [Hr _]. split; [|apply get_set_eq].
  destruct (decide (x = r2)) as [->|Hxr]; [apply get_set_eq|].
  by rewrite get_set_ne.
Qed.

(** Representatives stay representatives through [find]. *)
Lemma find_rec_roots_stable fuel : ∀ uf x uf' r k,
  UnionFind.find_rec fuel uf x = Some (uf', r) →
  JsMap.get k (UnionFind.parent uf) = Some k →
  JsMap.get k (UnionFind.parent uf') = Some k.
Proof.
  induction fuel as [|fuel IH]; intros uf x uf' r k; simpl; [done|].
  intros Hf Hk.
  assert (JsMap.get k (UnionFind.parent (UnionFind.makeSet x uf)) = Some k) as Hk1.
  { unfold UnionFind.makeSet, JsMap.has.
    destruct (JsMap.get x (UnionFind.parent uf)) eqn:Hx; [done|]. simpl.
    rewrite get_set_ne; [done|]. intros ->. congruence. }
  destruct (JsMap.get x _) as [p|] eqn:Hx; [|done].
  destruct (decide (p = x)) as [->|Hne]; [by injection Hf as <- _|].
  destruct (UnionFind.find_rec fuel _ p) as [[uf2 r2]|] eqn:Hrec; [|done].
  simpl in Hf. rewrite get_set_eq in Hf. injection Hf as <- _. simpl.
  rewrite get_set_ne; [by eapply IH|]. intros ->. congruence.
Qed.

Lemma rk_eq uf uf' k :
  UnionFind.rank uf' = UnionFind.rank uf → rk uf' k = rk uf k.
Proof. intros H. unfold rk, UnionFind.rank_get. by rewrite H. Qed.

Lemma rank_get_eq uf uf' k :
  UnionFind.rank uf' = UnionFind.rank uf →
  UnionFind.rank_get k uf' = UnionFind.rank_get k uf.
Proof. intros H. unfold UnionFind.rank_get. by rewrite H. Qed.

Lemma makeSet_ranked uf x :
  closed (UnionFind.parent uf) → ranked uf → ranked (UnionFind.makeSet x uf).
Proof.
  intros Hc [Hnum Hinc]. unfold UnionFind.makeSet, JsMap.has.
  destruct (JsMap.get x (UnionFind.parent uf)) eqn:Hx; [done|].
  assert (∀ k, k ≠ x →
            UnionFind.rank_get k
              (UnionFind.mk (JsMap.set x x (UnionFind.parent uf))
                 (JsMap.set x (Some 0) (UnionFind.rank uf)))
            = UnionFind.rank_get k uf) as Hrank.
  { intros k Hk. unfold UnionFind.rank_get. simpl. by rewrite get_set_ne. }
  split; simpl.
  - intros k Hk. destruct (decide (k = x)) as [->|Hkx].
    + unfold UnionFind.rank_get. simpl. rewrite get_set_eq. eauto.
    + rewrite Hrank by done. apply Hnum.
      rewrite set_absent in Hk by done. unfold JsMap.keys in *.
      rewrite fmap_app in Hk.
      apply elem_of_app in Hk as [?|?%list_elem_of_singleton]; done.
  - intros a b Hab Hne.
    destruct (decide (x = a)) as [<-|Hxa].
    { rewrite get_set_eq in Hab. congruence. }
    rewrite get_set_ne in Hab by done.
    assert (b ≠ x) as Hbx.
    { intros ->. destruct (Hc a x Hab) as [? ?]. congruence. }
    unfold rk. rewrite !Hrank by done. by apply Hinc.
Qed.

(** Path compression keeps ranks growing towards the parent. *)
Lemma find_rec_ranked fuel : ∀ uf x uf' r,
  closed (UnionFind.parent uf) → ranked uf →
  UnionFind.find_rec fuel uf x = Some (uf', r) →
  ranked uf' ∧ (x ≠ r → rk uf' x < rk uf' r)%nat.
Proof.
  induction fuel as [|fuel IH]; intros uf x uf' r Hc Hr; simpl; [done|].
  pose proof (makeSet_closed uf x Hc) as Hc1.
  pose proof (makeSet_ranked uf x Hc Hr) as Hr1.
  destruct (JsMap.get x _) as [p|] eqn:Hx; [|done].
  destruct (decide (p = x)) as [->|Hne]; [by intros [= <- <-]|].
  destruct (UnionFind.find_rec fuel _ p) as [[uf2 r2]|] eqn:Hrec; [|done].
  simpl. rewrite get_set_eq. intros [= <- <-].
  destruct (IH _ _ _ _ Hc1 Hr1 Hrec) as [[Hnum2 Hinc2] Hlt].
  pose proof (find_rec_rank _ _ _ _ _ Hc1 Hrec) as Hrank.
  rewrite makeSet_present in Hrank by (apply get_Some_keys; eauto).
  pose proof (find_rec_closed _ _ _ _ _ Hc1 Hrec) as (Hc2 & _ & Hk2).
  rewrite makeSet_present in Hk2 by (apply get_Some_keys; eauto).
  assert (rk uf2 x < rk uf2 r2)%nat as Hxr.
  { destruct Hr1 as [_ Hinc1]. specialize (Hinc1 x p Hx Hne).
    rewrite <- (rk_eq _ uf2 x), <- (rk_eq _ uf2 p) in Hinc1 by done.
    destruct (decide (p = r2)) as [->|Hpr]; [done|].
    specialize (Hlt Hpr). lia. }
  assert (∀ k, rk (UnionFind.mk (JsMap.set x r2 (UnionFind.parent uf2))
                     (UnionFind.rank uf2)) k = rk uf2 k) as Hrk
    by (intros; by apply rk_eq).
  split; [|by rewrite !Hrk].
  split; simpl.
  - intros k Hk. rewrite (rank_get_eq uf2) by done. apply Hnum2.
    rewrite set_present in Hk; [done|].
    apply get_Some_keys. rewrite Hk2. apply get_Some_keys. eauto.
  - intros a b Hab Hnab. rewrite !Hrk.
    destruct (decide (x = a)) as [<-|Hxa].
    + rewrite get_set_eq in Hab. by injection Hab as <-.
    + rewrite get_set_ne in Hab by done. by apply Hinc2.
Qed.

Lemma find_rec_roots_back fuel : ∀ uf x uf' r k,
  closed (UnionFind.parent uf) → ranked uf →
  UnionFind.find_rec fuel uf x = Some (uf', r) →
  JsMap.get k (UnionFind.parent uf') = Some k →
  JsMap.get k (UnionFind.parent (UnionFind.makeSet x uf)) = Some k.
Proof.
  induction fuel as [|fuel IH]; intros uf x uf' r k Hc Hr; simpl; [done|].
  pose proof (makeSet_closed uf x Hc) as Hc1.
  pose proof (makeSet_ranked uf x Hc Hr) as Hr1.
  destruct (JsMap.get x _) as [p|] eqn:Hx; [|done].
  destruct (decide (p = x)) as [->|Hne]; [by intros [= <- <-]|].
  destruct (UnionFind.find_rec fuel _ p) as [[uf2 r2]|] eqn:Hrec; [|done].
  simpl. rewrite get_set_eq. intros [= <- <-]. simpl. intros Hk.
  destruct (find_rec_ranked _ _ _ _ _ Hc1 Hr1 Hrec) as [_ Hlt].
  pose proof (find_rec_rank _ _ _ _ _ Hc1 Hrec) as Hrank.
  rewrite makeSet_present in Hrank by (apply get_Some_keys; eauto).
  assert (x ≠ r2) as Hxr.
  { intros ->. destruct Hr1 as [_ Hinc1]. specialize (Hinc1 r2 p Hx Hne).
    rewrite <- (rk_eq _ uf2 r2), <- (rk_eq _ uf2 p) in Hinc1 by done.
    specialize (Hlt Hne). lia. }
  destruct (decide (x = k)) as [<-|Hxk].
  { rewrite get_set_eq in Hk. congruence. }
  rewrite get_set_ne in Hk by done.
  pose proof (IH _ _ _ _ _ Hc1 Hr1 Hrec Hk) as Hback.
  rewrite makeSet_present in Hback by (apply get_Some_keys; eauto). done.
Qed.

Lemma makeSet_roomy uf x : roomy uf → roomy (UnionFind.makeSet x uf).
Proof.
  intros Hroomy. unfold UnionFind.makeSet, JsMap.has.
  destruct (JsMap.get x (UnionFind.parent uf)) eqn:Hx; [done|].
  intros r Hr. simpl in Hr.
  destruct (decide (x = r)) as [<-|Hxr].
  - exists [x]. split; [apply NoDup_singleton|]. split.
    + unfold rk, UnionFind.rank_get. simpl. rewrite get_set_eq. simpl. lia.
    + intros k ->%list_elem_of_singleton. simpl. split.
      * apply get_Some_keys. rewrite get_set_eq. eauto.
      * exists 0. apply root_self. apply get_set_eq.
  - rewrite get_set_ne in Hr by done.
    destruct (Hroomy r Hr) as (l & Hnd & Hlen & Hl).
    exists l. split; [done|]. split.
    + unfold rk, UnionFind.rank_get in *. simpl. by rewrite get_set_ne.
    + intros k Hk. destruct (Hl k Hk) as [Hkeys Hroot]. simpl. split.
      * by apply keys_set_subseteq.
      * by apply register_preserves.
Qed.

(** [find] on a table that satisfies the invariants. *)
Lemma find_sound uf es x :
  sound uf es →
  ∃ uf' r,
    UnionFind.find uf x = Some (uf', r)
    ∧ sound uf' es
    ∧ rootof (UnionFind.parent uf) x r
    ∧ preserves (UnionFind.parent uf) (UnionFind.parent uf')
    ∧ JsMap.get r (UnionFind.parent uf') = Some r
    ∧ JsMap.get x (UnionFind.parent uf') = Some r
    ∧ JsMap.keys (UnionFind.parent uf')
      = JsMap.keys (UnionFind.parent (UnionFind.makeSet x uf))
    ∧ UnionFind.rank uf' = UnionFind.rank (UnionFind.makeSet x uf)
    ∧ (∀ k, JsMap.get k (UnionFind.parent uf) = Some k →
            JsMap.get k (UnionFind.parent uf') = Some k).
Proof.
  intros (Hrep & Hc & Hr & Hroomy).
  destruct (find_spec uf x (proj1 Hrep)) as (uf' & r & Hf & Hroot & Hpres).
  exists uf', r. split; [done|].
  pose proof (find_rec_closed _ _ _ _ _ Hc Hf) as (Hc' & _ & Hkeys).
  pose proof (find_rec_ranked _ _ _ _ _ Hc Hr Hf) as [Hr' _].
  pose proof (find_rec_result _ _ _ _ _ Hf) as [Hrr Hxr].
  pose proof (find_rec_rank _ _ _ _ _ Hc Hf) as Hrank.
  assert (roomy uf') as Hroomy'.
  { intros k Hk.
    pose proof (find_rec_roots_back _ _ _ _ _ _ Hc Hr Hf Hk) as Hk1.
    destruct (makeSet_roomy uf x Hroomy k Hk1) as (l & Hnd & Hlen & Hl).
    exists l. split; [done|]. split; [by rewrite (rk_eq _ _ k Hrank)|].
    intros z Hz. destruct (Hl z Hz) as [Hzk Hzr]. split; [by rewrite Hkeys|].
    assert (rootof (UnionFind.parent uf) z k) as Hzr0.
    { destruct (proj1 Hrep z) as [r0 Hr0].
      pose proof (makeSet_preserves uf x z r0 Hr0) as Hr1.
      by rewrite (rootof_fun _ _ _ _ Hzr Hr1). }
    by apply Hpres. }
  split; [split; [by eapply represents_preserves | done]|].
  repeat split; try done.
  intros k Hk. by eapply find_rec_roots_stable.
Qed.

Lemma makeSet_sound uf es x : sound uf es → sound (UnionFind.makeSet x uf) es.
Proof.
  intros (Hrep & Hc & Hr & Hroomy). split; [|split; [|split]].
  - eapply represents_preserves; [done | apply makeSet_preserves].
  - by apply makeSet_closed.
  - by apply makeSet_ranked.
  - by apply makeSet_roomy.
Qed.

(** Linking without a rank change: [a] goes under a representative of
    higher rank. *)
Lemma link_plain_sound p rkt a b :
  let uf := UnionFind.mk p rkt in
  let uf' := UnionFind.mk (JsMap.set a b p) rkt in
  JsMap.get a p = Some a → JsMap.get b p = Some b → a ≠ b →
  (rk uf a < rk uf b)%nat →
  ranked uf → roomy uf → ranked uf' ∧ roomy uf'.
Proof.
  intros uf uf' Ha Hb Hab Hlt [Hnum Hinc] Hroomy.
  assert (∀ k, rk uf' k = rk uf k) as Hrk by done.
  assert (JsMap.keys (JsMap.set a b p) = JsMap.keys p) as Hkeys
    by (apply set_present; eauto).
  split; [split|]; simpl.
  - intros k Hk. rewrite Hkeys in Hk. by apply Hnum.
  - intros x y Hxy Hne. rewrite !Hrk.
    destruct (decide (a = x)) as [<-|Hax].
    + rewrite get_set_eq in Hxy. by injection Hxy as <-.
    + rewrite get_set_ne in Hxy by done. by apply Hinc.
  - intros k Hk. simpl in Hk.
    assert (a ≠ k) as Hak.
    { intros <-. rewrite get_set_eq in Hk. congruence. }
    rewrite get_set_ne in Hk by done.
    destruct (Hroomy k Hk) as (l & Hnd & Hlen & Hl).
    exists l. split; [done|]. split; [done|].
    intros z Hz. destruct (Hl z Hz) as [Hzk Hzr]. simpl.
    split; [by rewrite Hkeys|].
    pose proof (link_rootof p a b z k) as Hlink.
    rewrite decide_False in Hlink by done. apply Hlink; try done.
    + exists 0. by apply root_self.
    + exists 0. by apply root_self.
Qed.

(** Linking two representatives of equal rank [n]: [b] goes under [a],
    whose rank becomes [n + 1]. *)
Lemma link_bump_sound p rkt a b n :
  let uf := UnionFind.mk p rkt in
  let uf' := UnionFind.mk (JsMap.set b a p) (JsMap.set a (Some (S n)) rkt) in
  JsMap.get a p = Some a → JsMap.get b p = Some b → a ≠ b →
  UnionFind.rank_get a uf = Some n → UnionFind.rank_get b uf = Some n →
  ranked uf → roomy uf → ranked uf' ∧ roomy uf'.
Proof.
  intros uf uf' Ha Hb Hab Hra Hrb [Hnum Hinc] Hroomy.
  assert (rk uf' a = S n) as Hrka.
  { unfold rk, UnionFind.rank_get. simpl. by rewrite get_set_eq. }
  assert (∀ k, k ≠ a → UnionFind.rank_get k uf' = UnionFind.rank_get k uf) as Hget.
  { intros k Hk. unfold UnionFind.rank_get. simpl. by rewrite get_set_ne. }
  assert (∀ k, k ≠ a → rk uf' k = rk uf k) as Hrk.
  { intros k Hk. unfold rk. by rewrite Hget. }
  assert (rk uf a = n) as Hna by (unfold rk; by rewrite Hra).
  assert (rk uf b = n) as Hnb by (unfold rk; by rewrite Hrb).
  assert (∀ k, rk uf k ≤ rk uf' k)%nat as Hmono.
  { intros k. destruct (decide (k = a)) as [->|Hk]; [lia|]. by rewrite Hrk. }
  assert (JsMap.keys (JsMap.set b a p) = JsMap.keys p) as Hkeys
    by (apply set_present; eauto).
  assert (rootof p a a) as Hroota by (exists 0; by apply root_self).
  assert (rootof p b b) as Hrootb by (exists 0; by apply root_self).
  split; [split|]; simpl.
  - intros k Hk. rewrite Hkeys in Hk.
    destruct (decide (k = a)) as [->|Hka].
    + unfold UnionFind.rank_get. simpl. rewrite get_set_eq. eauto.
    + rewrite Hget by done. by apply Hnum.
  - intros x y Hxy Hne.
    destruct (decide (b = x)) as [<-|Hbx].
    + rewrite get_set_eq in Hxy. injection Hxy as <-.
      rewrite (Hrk b) by done. lia.
    + rewrite get_set_ne in Hxy by done.
      assert (x ≠ a) as Hxa by (intros ->; congruence).
      rewrite (Hrk x) by done.
      specialize (Hinc x y Hxy Hne). specialize (Hmono y). lia.
  - intros k Hk. simpl in Hk.
    assert (b ≠ k) as Hbk.
    { intros <-. rewrite get_set_eq in Hk. congruence. }
    rewrite get_set_ne in Hk by done.
    destruct (decide (k = a)) as [->|Hka].
    + destruct (Hroomy a Ha) as (la & Hnda & Hlena & Hla).
      destruct (Hroomy b Hb) as (lb & Hndb & Hlenb & Hlb).
      exists (la ++ lb). split; [|split].
      * apply NoDup_app. split; [done|]. split; [|done].
        intros z Hza Hzb. apply Hab.
        destruct (Hla z Hza) as [_ H1]. destruct (Hlb z Hzb) as [_ H2].
        by eapply rootof_fun.
      * rewrite Hrka, length_app. rewrite Hna in Hlena. rewrite Hnb in Hlenb.
        simpl. lia.
      * intros z Hz. simpl. rewrite Hkeys.
        apply elem_of_app in Hz as [Hz|Hz].
        -- destruct (Hla z Hz) as [Hzk Hzr]. split; [done|].
           pose proof (link_rootof p b a z a) as Hlink.
           rewrite decide_False in Hlink by done. apply Hlink; first [done | by intros ->].
        -- destruct (Hlb z Hz) as [Hzk Hzr]. split; [done|].
           pose proof (link_rootof p b a z b) as Hlink.
           rewrite decide_True in Hlink by done. apply Hlink; first [done | by intros ->].
    + destruct (Hroomy k Hk) as (l & Hnd & Hlen & Hl).
      exists l. split; [done|]. split; [by rewrite Hrk|].
      intros z Hz. destruct (Hl z Hz) as [Hzk Hzr]. simpl.
      split; [by rewrite Hkeys|].
      pose proof (link_rootof p b a z k) as Hlink.
      rewrite decide_False in Hlink by (by intros ->). apply Hlink; first [done | by intros ->].
Qed.

Lemma union_sound uf es x y :
  sound uf es →
  ∃ uf', UnionFind.union uf x y = Some uf' ∧ sound uf' (es ++ [(x, y)]).
Proof.
  intros Hs.
  destruct (union_represents uf es x y (proj1 Hs)) as (uf' & Hu & Hrep').
  exists uf'. split; [done|].
  destruct (union_closed _ _ _ _ (proj1 (proj2 Hs)) Hu) as [Hc' _].
  split; [done|]. split; [done|].
  unfold UnionFind.union in Hu.
  destruct (find_sound uf es x Hs)
    as (uf1 & rx & Hf1 & Hs1 & _ & _ & Hrx1 & _ & _ & _ & _).
  rewrite Hf1 in Hu. simpl in Hu.
  destruct (find_sound uf1 es y Hs1)
    as (uf2 & ry & Hf2 & Hs2 & _ & _ & Hry & _ & _ & _ & Hstable).
  rewrite Hf2 in Hu. simpl in Hu.
  pose proof (Hstable rx Hrx1) as Hrx.
  destruct Hs2 as (_ & Hc2 & Hr2 & Hroomy2).
  destruct (decide (rx = ry)) as [->|Hne]; [by injection Hu as <-|].
  destruct uf2 as [p2 rkt2]. simpl in *.
  destruct (proj1 Hr2 rx) as [nx Hnx]; [apply get_Some_keys; eauto|].
  destruct (proj1 Hr2 ry) as [ny Hny]; [apply get_Some_keys; eauto|].
  rewrite Hnx, Hny in Hu. simpl in Hu.
  assert (rk (UnionFind.mk p2 rkt2) rx = nx) as Hkx by (unfold rk; by rewrite Hnx).
  assert (rk (UnionFind.mk p2 rkt2) ry = ny) as Hky by (unfold rk; by rewrite Hny).
  case_bool_decide as Hxy.
  - injection Hu as <-.
    apply (link_plain_sound p2 rkt2 rx ry); first [done | lia].
  - case_bool_decide as Hyx.
    + injection Hu as <-.
      apply (link_plain_sound p2 rkt2 ry rx); first [done | congruence | lia].
    + injection Hu as <-.
      assert (ny = nx) as -> by lia.
      by apply (link_bump_sound p2 rkt2 rx ry nx).
Qed.

Lemma sound_new : sound UnionFind.new [].
Proof.
  split; [apply represents_new|]. split; [by intros k v|]. split; [split|].
  - intros k Hk. by apply elem_of_nil in Hk.
  - intros x y Hxy. done.
  - intros r Hr. done.
Qed.

Lemma getRoots_loop_sound elems es : ∀ uf acc uf' roots,
  sound uf es →
  UnionFind.getRoots_loop elems uf acc = Some (uf', roots) →
  sound uf' es.
Proof.
  induction elems as [|e elems IH]; intros uf acc uf' roots Hs; simpl.
  - by intros [= <- _].
  - destruct (find_sound uf es e Hs) as (uf1 & r & -> & Hs1 & _).
    simpl. by apply IH.
Qed.

(** ** [getGroups] *)

Lemma set_same {V} (m : list (string * V)) k v :
  JsMap.get k m = Some v → JsMap.set k v m = m.
Proof.
  induction m as [|[k' v'] m IH]; simpl; [done|].
  destruct (decide (k' = k)) as [->|Hne]; [by intros [= ->]|].
  intros H. by rewrite IH.
Qed.

Lemma set_NoDup {V} (m : list (string * V)) k v :
  NoDup (JsMap.keys m) → NoDup (JsMap.keys (JsMap.set k v m)).
Proof.
  intros Hnd. destruct (JsMap.get k m) eqn:Hk.
  - rewrite set_present; eauto.
  - rewrite set_absent by done. unfold JsMap.keys in *. rewrite fmap_app.
    apply NoDup_app. split; [done|]. split; [|apply NoDup_singleton].
    intros x Hx ->%list_elem_of_singleton. by apply get_None_keys in Hk.
Qed.

(** [getGroups] meets the same representatives as [getRoots], in the
    same order, and leaves the same tables behind. *)
Lemma getGroups_loop_roots elems : ∀ uf groups acc,
  JsMap.keys groups = acc →
  match UnionFind.getRoots_loop elems uf acc with
  | Some (uf1, roots) =>
      ∃ groups', getGroups_loop elems uf groups = Some (uf1, groups')
                 ∧ JsMap.keys groups' = roots
  | None => getGroups_loop elems uf groups = None
  end.
Proof.
  induction elems as [|e elems IH]; intros uf groups acc Hkeys; simpl; [eauto|].
  destruct (UnionFind.find uf e) as [[uf1 r]|]; simpl; [|done].
  unfold JsMap.has. destruct (JsMap.get r groups) as [members|] eqn:Hr.
  - rewrite Hr. apply IH. rewrite set_present by eauto.
    unfold set_add. rewrite decide_True; [done|].
    rewrite <- Hkeys. apply get_Some_keys. eauto.
  - rewrite get_set_eq. apply IH. rewrite set_present by (rewrite get_set_eq; eauto).
    rewrite set_absent by done. unfold set_add.
    rewrite decide_False by (rewrite <- Hkeys; by apply get_None_keys).
    unfold JsMap.keys in *. rewrite fmap_app. by rewrite Hkeys.
Qed.

Lemma getGroups_loop_sound elems es : ∀ uf groups uf' groups',
  sound uf es →
  getGroups_loop elems uf groups = Some (uf', groups') →
  sound uf' es.
Proof.
  induction elems as [|e elems IH]; intros uf groups uf' groups' Hs; simpl.
  - by intros [= <- _].
  - destruct (find_sound uf es e Hs) as (uf1 & r & -> & Hs1 & _). simpl.
    destruct (JsMap.get r _); [|done]. by apply IH.
Qed.

(** Which element sits in which group. *)
Lemma getGroups_loop_members elems es : ∀ uf groups uf' groups',
  sound uf es →
  getGroups_loop elems uf groups = Some (uf', groups') →
  ∀ r e, (∃ l, JsMap.get r groups' = Some l ∧ e ∈ l)
         ↔ (∃ l, JsMap.get r groups = Some l ∧ e ∈ l)
           ∨ (e ∈ elems ∧ rootof (UnionFind.parent uf) e r).
Proof.
  induction elems as [|a elems IH]; intros uf groups uf' groups' Hs; simpl.
  - intros [= <- <-] r e. split; [by left|].
    intros [?|[H _]]; [done | by apply elem_of_nil in H].
  - destruct (find_sound uf es a Hs)
      as (uf1 & ra & -> & Hs1 & Hroot & Hp1 & _). simpl.
    set (groups1 := if JsMap.has ra groups then groups
                    else JsMap.set ra [] groups).
    destruct (JsMap.get ra groups1) as [members|] eqn:Hm; [|done].
    intros Hrest r e. rewrite (IH _ _ _ _ Hs1 Hrest r e).
    pose proof (proj1 (proj1 Hs)) as Hac.
    assert ((∃ l, JsMap.get r (JsMap.set ra (members ++ [a]) groups1) = Some l
                  ∧ e ∈ l)
            ↔ (∃ l, JsMap.get r groups = Some l ∧ e ∈ l) ∨ (r = ra ∧ e = a))
      as Hstep.
    { assert (∀ l, JsMap.get r groups = Some l → JsMap.get r groups1 = Some l)
        as Hkeep.
      { intros l Hl. unfold groups1, JsMap.has.
        destruct (JsMap.get ra groups) eqn:Hra; [done|].
        rewrite get_set_ne; [done|]. intros ->. congruence. }
      assert (∀ l, JsMap.get r groups1 = Some l →
                JsMap.get r groups = Some l ∨ (r = ra ∧ l = [])) as Hback.
      { intros l Hl. unfold groups1, JsMap.has in Hl.
        destruct (JsMap.get ra groups) eqn:Hra; [by left|].
        destruct (decide (ra = r)) as [->|Hne].
        - rewrite get_set_eq in Hl. injection Hl as <-. by right.
        - rewrite get_set_ne in Hl by done. by left. }
      destruct (decide (ra = r)) as [->|Hne].
      - rewrite get_set_eq. split.
        + intros (l & [= <-] & He).
          apply elem_of_app in He as [He|He%list_elem_of_singleton].
          * destruct (Hback _ Hm) as [?|[_ ->]]; [left; eauto|].
            by apply elem_of_nil in He.
          * by right.
        + intros [(l & Hl & He)|[_ ->]].
          * exists (members ++ [a]). split; [done|].
            apply Hkeep in Hl. rewrite Hm in Hl. injection Hl as ->.
            apply elem_of_app. by left.
          * exists (members ++ [a]). split; [done|].
            apply elem_of_app. right. by apply list_elem_of_singleton.
      - rewrite get_set_ne by done. split.
        + intros (l & Hl & He). destruct (Hback _ Hl) as [?|[-> _]]; [|done].
          left. eauto.
        + intros [(l & Hl & He)|[-> _]]; [|done]. eauto. }
    rewrite Hstep. rewrite elem_of_cons. split.
    + intros [[?|[-> ->]]|[He Hr]]; [by left | right; eauto |].
      right. split; [by right|]. by apply (preserves_rootof _ _ e r Hac Hp1).
    + intros [?|[[->|He] Hr]]; [by left; left | |].
      * left. right. split; [|done]. by eapply rootof_fun.
      * right. split; [done|]. by apply Hp1.
Qed.

Lemma concat_set_snoc (groups : list (string * list string)) r members e :
  JsMap.get r groups = Some members →
  concat (JsMap.set r (members ++ [e]) groups).*2 ≡ₚ e :: concat groups.*2.
Proof.
  induction groups as [|[k l] groups IH]; simpl; [done|].
  destruct (decide (k = r)) as [->|Hne].
  - intros [= ->]. simpl. rewrite <- app_assoc. simpl.
    by rewrite <- Permutation_middle.
  - intros H. simpl. rewrite IH by done. by rewrite Permutation_middle.
Qed.

(** The groups together hold each element met exactly once. *)
Lemma getGroups_loop_concat elems : ∀ uf groups uf' groups',
  getGroups_loop elems uf groups = Some (uf', groups') →
  concat groups'.*2 ≡ₚ concat groups.*2 ++ elems.
Proof.
  induction elems as [|a elems IH]; intros uf groups uf' groups'; simpl.
  - intros [= <- <-]. by rewrite app_nil_r.
  - destruct (UnionFind.find uf a) as [[uf1 ra]|]; [|done]. simpl.
    set (groups1 := if JsMap.has ra groups then groups
                    else JsMap.set ra [] groups).
    assert (concat groups1.*2 = concat groups.*2) as H1.
    { unfold groups1, JsMap.has. destruct (JsMap.get ra groups) eqn:Hra; [done|].
      rewrite set_absent by done. rewrite fmap_app, concat_app. simpl.
      by rewrite app_nil_r. }
    destruct (JsMap.get ra groups1) as [members|] eqn:Hm; [|done].
    intros Hrest. rewrite (IH _ _ _ _ Hrest).
    rewrite concat_set_snoc by done. rewrite H1.
    by rewrite <- Permutation_middle.
Qed.

(** ** Runs of operations on one instance *)

Lemma makeSet_nodup uf x :
  NoDup (JsMap.keys (UnionFind.parent uf)) →
  NoDup (JsMap.keys (UnionFind.parent (UnionFind.makeSet x uf))).
Proof.
  intros H. unfold UnionFind.makeSet. destruct (JsMap.has _ _); [done|].
  by apply set_NoDup.
Qed.

Lemma find_rec_nodup fuel : ∀ uf x uf' r,
  NoDup (JsMap.keys (UnionFind.parent uf)) →
  UnionFind.find_rec fuel uf x = Some (uf', r) →
  NoDup (JsMap.keys (UnionFind.parent uf')).
Proof.
  induction fuel as [|fuel IH]; intros uf x uf' r Hnd; simpl; [done|].
  pose proof (makeSet_nodup uf x Hnd) as Hnd1.
  destruct (JsMap.get x _) as [p|] eqn:Hx; [|done].
  destruct (decide (p = x)) as [->|Hne]; [by intros [= <- _]|].
  destruct (UnionFind.find_rec fuel _ p) as [[uf2 r2]|] eqn:Hrec; [|done].
  simpl. rewrite get_set_eq. intros [= <- _]. simpl.
  apply set_NoDup. by eapply IH.
Qed.

Lemma union_nodup uf x y uf' :
  NoDup (JsMap.keys (UnionFind.parent uf)) →
  UnionFind.union uf x y = Some uf' →
  NoDup (JsMap.keys (UnionFind.parent uf')).
Proof.
  intros Hnd. unfold UnionFind.union.
  destruct (UnionFind.find uf x) as [[uf1 rx]|] eqn:Hx; [|done]. simpl.
  destruct (UnionFind.find uf1 y) as [[uf2 ry]|] eqn:Hy; [|done]. simpl.
  apply find_rec_nodup in Hx; [|done]. apply find_rec_nodup in Hy; [|done].
  destruct (decide (rx = ry)); [by intros [= <-]|].
  destruct (UnionFind.num_lt _ _); [|destruct (UnionFind.num_lt _ _)];
    intros [= <-]; simpl; by apply set_NoDup.
Qed.

Lemma getRoots_loop_nodup elems : ∀ uf acc uf' roots,
  NoDup (JsMap.keys (UnionFind.parent uf)) →
  UnionFind.getRoots_loop elems uf acc = Some (uf', roots) →
  NoDup (JsMap.keys (UnionFind.parent uf')).
Proof.
  induction elems as [|e elems IH]; intros uf acc uf' roots Hnd; simpl.
  - by intros [= <- _].
  - destruct (UnionFind.find uf e) as [[uf1 r]|] eqn:Hf; [|done]. simpl.
    apply IH. by eapply find_rec_nodup.
Qed.

Lemma getGroups_loop_nodup elems : ∀ uf groups uf' groups',
  NoDup (JsMap.keys (UnionFind.parent uf)) →
  getGroups_loop elems uf groups = Some (uf', groups') →
  NoDup (JsMap.keys (UnionFind.parent uf')).
Proof.
  induction elems as [|e elems IH]; intros uf groups uf' groups' Hnd; simpl.
  - by intros [= <- _].
  - destruct (UnionFind.find uf e) as [[uf1 r]|] eqn:Hf; [|done]. simpl.
    destruct (JsMap.get r _); [|done]. apply IH. by eapply find_rec_nodup.
Qed.

Lemma getGroups_total uf es :
  sound uf es →
  ∃ uf' roots groups,
    UnionFind.getRoots uf = Some (uf', roots)
    ∧ getGroups uf = Some (uf', groups)
    ∧ JsMap.keys groups = roots.
Proof.
  intros Hs.
  destruct (getRoots_spec uf (proj1 (proj1 Hs))) as (uf' & roots & Hr & _).
  pose proof (getGroups_loop_roots (JsMap.keys (UnionFind.parent uf)) uf [] []
                eq_refl) as Hg.
  unfold UnionFind.getRoots in Hr. rewrite Hr in Hg.
  destruct Hg as (groups & Hg & Hk). by exists uf', roots, groups.
Qed.

(** Every call returns and keeps the invariants; the [union] calls add
    their pairs to the graph, the other calls add nothing. *)
Lemma uf_step_sound uf es op :
  sound uf es → NoDup (JsMap.keys (UnionFind.parent uf)) →
  ∃ uf', uf_step uf op = Some uf'
         ∧ sound uf' (es ++ uf_edges [op])
         ∧ NoDup (JsMap.keys (UnionFind.parent uf')).
Proof.
  intros Hs Hnd. destruct op as [x|x|x y|x y| |]; simpl;
    rewrite ?app_nil_r.
  - eexists. split; [done|]. split; [by apply makeSet_sound|].
    by apply makeSet_nodup.
  - destruct (find_sound uf es x Hs) as (uf1 & r & Hf & Hs1 & _).
    rewrite Hf. simpl. eexists. split; [done|]. split; [done|].
    by eapply find_rec_nodup.
  - destruct (union_sound uf es x y Hs) as (uf' & Hu & Hs').
    exists uf'. split; [done|]. split; [done|]. by eapply union_nodup.
  - unfold UnionFind.connected.
    destruct (find_sound uf es x Hs) as (uf1 & rx & Hf1 & Hs1 & _).
    destruct (find_sound uf1 es y Hs1) as (uf2 & ry & Hf2 & Hs2 & _).
    rewrite Hf1. simpl. rewrite Hf2. simpl.
    eexists. split; [done|]. split; [done|].
    eapply find_rec_nodup; [|done]. by eapply find_rec_nodup.
  - destruct (getGroups_total uf es Hs) as (uf' & roots & groups & Hr & _).
    rewrite Hr. simpl. eexists. split; [done|].
    split; [by eapply getRoots_loop_sound | by eapply getRoots_loop_nodup].
  - destruct (getGroups_total uf es Hs) as (uf' & roots & groups & _ & Hg & _).
    rewrite Hg. simpl. eexists. split; [done|].
    split; [by eapply getGroups_loop_sound | by eapply getGroups_loop_nodup].
Qed.

Lemma uf_edges_cons op ops : uf_edges (op :: ops) = uf_edges [op] ++ uf_edges ops.
Proof. unfold uf_edges. simpl. by destruct op. Qed.

Lemma uf_run_sound ops : ∀ uf es,
  sound uf es → NoDup (JsMap.keys (UnionFind.parent uf)) →
  ∃ uf', uf_run ops uf = Some uf'
         ∧ sound uf' (es ++ uf_edges ops)
         ∧ NoDup (JsMap.keys (UnionFind.parent uf')).
Proof.
  induction ops as [|op ops IH]; intros uf es Hs Hnd.
  - exists uf. simpl. by rewrite app_nil_r.
  - rewrite uf_edges_cons.
    destruct (uf_step_sound uf es op Hs Hnd) as (uf1 & Hstep & Hs1 & Hnd1).
    destruct (IH _ _ Hs1 Hnd1) as (uf' & Hrun & Hs' & Hnd').
    exists uf'. split; [|split; [|done]].
    + cbn [uf_run]. rewrite Hstep. done.
    + by rewrite app_assoc.
Qed.

Lemma uf_run_new ops :
  ∃ uf, uf_run ops UnionFind.new = Some uf
        ∧ sound uf (uf_edges ops)
        ∧ NoDup (JsMap.keys (UnionFind.parent uf)).
Proof. apply (uf_run_sound ops UnionFind.new []); [apply sound_new | constructor]. Qed.

Lemma root_at_rank uf n x r :
  ranked uf → root_at (UnionFind.parent uf) n x r → (rk uf x + n ≤ rk uf r)%nat.
Proof.
  intros [_ Hinc]. induction 1 as [x Hx|x Hx|n x y r Hx Hne H IH]; [lia..|].
  specialize (Hinc x y Hx Hne). lia.
Qed.

Lemma root_at_key p n x r :
  closed p → root_at p n x r → x ∈ JsMap.keys p → JsMap.get r p = Some r.
Proof.
  intros Hc. induction 1 as [x Hx|x Hx|n x y r Hx Hne H IH]; intros Hin.
  - by apply get_None_keys in Hx.
  - done.
  - apply IH. apply get_Some_keys. by eapply Hc.
Qed.

Lemma find_rec_S fuel uf x :
  UnionFind.find_rec (S fuel) uf x
  = let uf1 := UnionFind.makeSet x uf in
    match JsMap.get x (UnionFind.parent uf1) with
    | None => None
    | Some p =>
        if decide (p = x) then Some (uf1, p)
        else
          match UnionFind.find_rec fuel uf1 p with
          | None => None
          | Some (uf2, r) =>
              let uf3 :=
                UnionFind.mk (JsMap.set x r (UnionFind.parent uf2))
                  (UnionFind.rank uf2) in
              match JsMap.get x (UnionFind.parent uf3) with
              | Some r' => Some (uf3, r')
              | None => None
              end
          end
    end.
Proof. done. Qed.

(** ** Further properties: the union-find structure *)

(** X1. After any use of an instance, [find(x)] returns a representative
    [r] in the component of [x]; [r] is registered as its own parent
    and [x] now points straight at it; a second [find], of [x] or of
    [r], returns [r] again and changes nothing. *)
Theorem find_is_idempotent (ops : list UFOp) (x : string) :
  ∃ uf uf1 r,
    uf_run ops UnionFind.new = Some uf
    ∧ UnionFind.find uf x = Some (uf1, r)
    ∧ same_component (uf_edges ops) x r
    ∧ JsMap.get r (UnionFind.parent uf1) = Some r
    ∧ JsMap.get x (UnionFind.parent uf1) = Some r
    ∧ UnionFind.find uf1 r = Some (uf1, r)
    ∧ UnionFind.find uf1 x = Some (uf1, r).
Proof.
  destruct (uf_run_new ops) as (uf & Hrun & Hs & _).
  destruct (find_sound uf _ x Hs)
    as (uf1 & r & Hf & _ & Hroot & _ & Hr & Hx & _).
  exists uf, uf1, r. split; [done|]. split; [done|].
  split; [apply Hs; by apply same_set_root|]. split; [done|]. split; [done|].
  assert (∀ k, JsMap.get k (UnionFind.parent uf1) = Some r → k = r ∨ k = x →
            UnionFind.makeSet k uf1 = uf1) as Hmk.
  { intros k Hk _. apply makeSet_present. apply get_Some_keys. eauto. }
  assert (∀ fuel, UnionFind.find_rec (S fuel) uf1 r = Some (uf1, r)) as Hfr.
  { intros fuel. simpl. rewrite (Hmk r) by eauto. rewrite Hr.
    by rewrite decide_True. }
  split; [apply Hfr|].
  destruct (decide (r = x)) as [->|Hne]; [apply Hfr|].
  unfold UnionFind.find.
  assert (∃ n, length (UnionFind.parent uf1) = S n) as [n Hlen].
  { destruct (UnionFind.parent uf1); [done | eauto]. }
  rewrite Hlen. rewrite find_rec_S. cbv zeta.
  rewrite (Hmk x) by eauto. rewrite Hx. rewrite decide_False by done.
  rewrite (Hfr n). cbv zeta. cbn [UnionFind.parent UnionFind.rank].
  rewrite set_same by done. rewrite Hx. by destruct uf1.
Qed.

(** X2. After any use of an instance, [connected(x, y)] returns, and
    answers [true] exactly when [x] and [y] are joined by the pairs of
    the [union] calls made so far: [makeSet], [find], [connected],
    [getRoots] and [getGroups] calls in between change nothing to it. *)
Theorem connected_after_any_run (ops : list UFOp) (x y : string) :
  ∃ uf uf' b,
    uf_run ops UnionFind.new = Some uf
    ∧ UnionFind.connected uf x y = Some (uf', b)
    ∧ (b = true ↔ same_component (uf_edges ops) x y).
Proof.
  destruct (uf_run_new ops) as (uf & Hrun & Hs & _).
  destruct (connected_spec uf x y (proj1 (proj1 Hs))) as (uf' & b & Hc & _ & Hb).
  exists uf, uf', b. split; [done|]. split; [done|].
  rewrite Hb. apply Hs.
Qed.

(** X3. Union by rank: after any use of an instance every registered
    key has a numeric rank, the rank grows strictly from a key to its
    parent, and a key [n] parent steps away from its representative has
    a rank at least [n] below the representative's. *)
Theorem ranks_grow_towards_root (ops : list UFOp) :
  ∃ uf,
    uf_run ops UnionFind.new = Some uf
    ∧ (∀ k, k ∈ JsMap.keys (UnionFind.parent uf) →
            ∃ n : nat, UnionFind.rank_get k uf = Some n)
    ∧ (∀ x y, JsMap.get x (UnionFind.parent uf) = Some y → y ≠ x →
              (rk uf x < rk uf y)%nat)
    ∧ (∀ n x r, root_at (UnionFind.parent uf) n x r →
                (rk uf x + n ≤ rk uf r)%nat).
Proof.
  destruct (uf_run_new ops) as (uf & Hrun & (_ & _ & Hr & _) & _).
  exists uf. split; [done|]. split; [apply Hr|]. split; [apply Hr|].
  intros n x r. by apply root_at_rank.
Qed.

(** X4. After any use of an instance, a registered key that is [n]
    parent steps away from its representative shares the table with at
    least [2 ^ n] keys: parent chains are at most logarithmic in the
    number of registered ids. *)
Theorem chains_are_logarithmic (ops : list UFOp) :
  ∃ uf,
    uf_run ops UnionFind.new = Some uf
    ∧ ∀ n x r, root_at (UnionFind.parent uf) n x r →
               x ∈ JsMap.keys (UnionFind.parent uf) →
               (2 ^ n ≤ length (JsMap.keys (UnionFind.parent uf)))%nat.
Proof.
  destruct (uf_run_new ops) as (uf & Hrun & (_ & Hc & Hr & Hroomy) & _).
  exists uf. split; [done|]. intros n x r Hroot Hx.
  pose proof (root_at_key _ _ _ _ Hc Hroot Hx) as Hrr.
  destruct (Hroomy r Hrr) as (l & Hnd & Hlen & Hl).
  pose proof (root_at_rank uf n x r Hr Hroot) as Hrank.
  assert (length l ≤ length (JsMap.keys (UnionFind.parent uf)))%nat as Hle.
  { apply submseteq_length. apply NoDup_submseteq; [done|].
    intros k Hk. by apply Hl. }
  assert (2 ^ n ≤ 2 ^ rk uf r)%nat by (apply Nat.pow_le_mono_r; lia).
  lia.
Qed.

(** X5. After any use of an instance, [getRoots()] returns one
    representative per connected component of the registered ids: no
    duplicates, every entry a registered id, every registered id joined
    to some entry, and no two distinct entries joined to each other.
    The call registers nothing and alters no component. *)
Theorem getRoots_one_per_component (ops : list UFOp) :
  ∃ uf uf' roots,
    uf_run ops UnionFind.new = Some uf
    ∧ UnionFind.getRoots uf = Some (uf', roots)
    ∧ NoDup roots
    ∧ (∀ r, r ∈ roots → r ∈ JsMap.keys (UnionFind.parent uf))
    ∧ (∀ e, e ∈ JsMap.keys (UnionFind.parent uf) →
            ∃ r, r ∈ roots ∧ same_component (uf_edges ops) e r)
    ∧ (∀ r1 r2, r1 ∈ roots → r2 ∈ roots →
                same_component (uf_edges ops) r1 r2 → r1 = r2)
    ∧ JsMap.keys (UnionFind.parent uf') = JsMap.keys (UnionFind.parent uf)
    ∧ sound uf' (uf_edges ops).
Proof.
  destruct (uf_run_new ops) as (uf & Hrun & Hs & _).
  pose proof Hs as ((Hac & Hiff) & Hc & _).
  destruct (getRoots_spec uf Hac) as (uf' & roots & Hg & Hnd & Hin).
  exists uf, uf', roots. split; [done|]. split; [done|]. split; [done|].
  assert (∀ r, r ∈ roots → JsMap.get r (UnionFind.parent uf) = Some r) as Hself.
  { intros r (e & He & [n Hr])%Hin. by eapply root_at_key. }
  split; [|split; [|split; [|split]]].
  - intros r Hr. apply get_Some_keys. rewrite (Hself r Hr). eauto.
  - intros e He. destruct (Hac e) as [r Hr]. exists r.
    split; [apply Hin; eauto|]. apply Hiff. by apply same_set_root.
  - intros r1 r2 H1 H2 [r [Hr1 Hr2]]%Hiff.
    assert (rootof (UnionFind.parent uf) r1 r1) as Hs1
      by (exists 0; apply root_self; by apply Hself).
    assert (rootof (UnionFind.parent uf) r2 r2) as Hs2
      by (exists 0; apply root_self; by apply Hself).
    by rewrite (rootof_fun _ _ _ _ Hs1 Hr1), (rootof_fun _ _ _ _ Hs2 Hr2).
  - by eapply getRoots_keys.
  - by eapply getRoots_loop_sound.
Qed.

(** X6. After any use of an instance, [getGroups()] returns a map whose
    keys are the list [getRoots()] returns, in the same order; the
    array under a root holds exactly the registered ids joined to that
    root; no array is empty; and over all arrays every registered id
    occurs exactly once. *)
Theorem getGroups_partitions_keys (ops : list UFOp) :
  ∃ uf uf' roots groups,
    uf_run ops UnionFind.new = Some uf
    ∧ UnionFind.getRoots uf = Some (uf', roots)
    ∧ getGroups uf = Some (uf', groups)
    ∧ JsMap.keys groups = roots
    ∧ (∀ r l, JsMap.get r groups = Some l →
         l ≠ []
         ∧ ∀ e, e ∈ l ↔ e ∈ JsMap.keys (UnionFind.parent uf)
                        ∧ same_component (uf_edges ops) e r)
    ∧ concat groups.*2 ≡ₚ JsMap.keys (UnionFind.parent uf)
    ∧ NoDup (concat groups.*2).
Proof.
  destruct (uf_run_new ops) as (uf & Hrun & Hs & Hnd).
  pose proof Hs as ((Hac & Hiff) & Hc & _).
  destruct (getGroups_total uf _ Hs) as (uf' & roots & groups & Hr & Hg & Hk).
  exists uf, uf', roots, groups.
  split; [done|]. split; [done|]. split; [done|]. split; [done|].
  pose proof (getGroups_loop_members _ _ _ _ _ _ Hs Hg) as Hmem.
  pose proof (getGroups_loop_concat _ _ _ _ _ Hg) as Hperm. simpl in Hperm.
  destruct (getRoots_spec uf Hac) as (uf1 & roots1 & Hr1 & _ & Hin).
  rewrite Hr in Hr1. injection Hr1 as <- <-.
  assert (∀ r l e, JsMap.get r groups = Some l →
            e ∈ l ↔ e ∈ JsMap.keys (UnionFind.parent uf)
                    ∧ rootof (UnionFind.parent uf) e r) as Hl.
  { intros r l e Hrl. split.
    - intros He. destruct (proj1 (Hmem r e)) as [(? & ? & _)|?]; [eauto|done..].
    - intros H. destruct (proj2 (Hmem r e)) as (l' & Hl' & He); [by right|].
      congruence. }
  split; [|split; [done|by rewrite Hperm]].
  intros r l Hrl.
  assert (r ∈ roots) as Hroot.
  { rewrite <- Hk. apply get_Some_keys. eauto. }
  apply Hin in Hroot as (e0 & He0 & Hr0).
  assert (rootof (UnionFind.parent uf) r r) as Hrr by (by eapply rootof_root).
  split.
  - intros ->. assert (e0 ∈ []) as H by (by apply (Hl r [] e0)).
    by apply elem_of_nil in H.
  - intros e. rewrite (Hl r l e Hrl). rewrite <- Hiff. split.
    + intros [? ?]. split; [done|]. by exists r.
    + intros [? ?]. split; [done|]. by eapply same_set_rootof.
Qed.

(** ** Further properties: nets and their names *)

Lemma union_keys_mono uf x y uf' :
  UnionFind.union uf x y = Some uf' →
  JsMap.keys (UnionFind.parent uf) ⊆ JsMap.keys (UnionFind.parent uf').
Proof.
  unfold UnionFind.union.
  destruct (UnionFind.find uf x) as [[uf1 rx]|] eqn:Hx; [|done]. simpl.
  destruct (UnionFind.find uf1 y) as [[uf2 ry]|] eqn:Hy; [|done]. simpl.
  apply find_keys in Hx as [Hx _]. apply find_keys in Hy as [Hy _].
  assert (JsMap.keys (UnionFind.parent uf) ⊆ JsMap.keys (UnionFind.parent uf2))
    as H2 by (by etrans).
  destruct (decide (rx = ry)); [by intros [= <-]|].
  destruct (UnionFind.num_lt _ _); [|destruct (UnionFind.num_lt _ _)];
    intros [= <-]; simpl; (etrans; [apply H2 | apply keys_set_subseteq]).
Qed.

Lemma unions_keys_mono es : ∀ uf uf',
  UnionFind.unions es uf = Some uf' →
  JsMap.keys (UnionFind.parent uf) ⊆ JsMap.keys (UnionFind.parent uf').
Proof.
  induction es as [|[a b] es IH]; intros uf uf'; simpl; [by intros [= <-]|].
  destruct (UnionFind.union uf a b) as [uf1|] eqn:Hu; [|done]. simpl.
  intros Hrest. etrans; [by eapply union_keys_mono | by apply IH].
Qed.

Lemma nodeToNet_loop_keys ns : ∀ uf m uf' m',
  nodeToNet_loop ns uf m = Some (uf', m') →
  JsMap.keys (UnionFind.parent uf) ⊆ JsMap.keys (UnionFind.parent uf')
  ∧ ∀ n, n ∈ ns → Node.id n ∈ JsMap.keys (UnionFind.parent uf').
Proof.
  induction ns as [|a ns IH]; intros uf m uf' m'; simpl.
  - intros [= <- _]. split; [done|]. intros n Hn. by apply elem_of_nil in Hn.
  - destruct (UnionFind.find uf (Node.id a)) as [[uf1 r]|] eqn:Hf; [|done].
    simpl. intros Hrest. apply find_keys in Hf as [Hsub Ha].
    apply IH in Hrest as [Hsub' Hin]. split; [by etrans|].
    intros n [->|Hn]%elem_of_cons; [by apply Hsub' | by apply Hin].
Qed.

(** X7. [buildElectricalNets] returns for every input; [nodeToNet] has
    an entry for every node and for nothing else, and two nodes have the
    same entry exactly when wires join them, directly or through other
    nodes. *)
Theorem nodeToNet_groups_wired_nodes (ns : list Node.t) (conns : list Connection.t) :
  ∃ uf n2n,
    buildElectricalNets ns conns = Some (uf, n2n)
    ∧ (∀ k, is_Some (JsMap.get k n2n) ↔ k ∈ Node.id <$> ns)
    ∧ ∀ n1 n2, n1 ∈ ns → n2 ∈ ns →
        JsMap.get (Node.id n1) n2n = JsMap.get (Node.id n2) n2n
        ↔ same_component (wires conns) (Node.id n1) (Node.id n2).
Proof.
  destruct (buildElectricalNets_spec ns conns) as (uf & n2n & Hb & Hrep).
  exists uf, n2n. split; [done|]. split.
  - pose proof Hb as Hb'. unfold buildElectricalNets in Hb'.
    destruct (UnionFind.unions _ _) as [uf1|] eqn:Hu; [|done]. simpl in Hb'.
    assert (acyclic (UnionFind.parent uf1)) as Hac.
    { assert (represents (UnionFind.parent (registerNodes ns UnionFind.new)) [])
        as Hrep0.
      { eapply represents_preserves; [apply represents_new|].
        apply registerNodes_preserves. }
      destruct (unions_represents (wires conns) _ [] Hrep0) as (uf1' & Hu' & Hr1).
      rewrite Hu in Hu'. injection Hu' as <-. apply Hr1. }
    intros k. destruct (nodeToNet_loop_get ns uf1 [] uf n2n Hac Hb' k) as [Hin Hout].
    split.
    + intros Hk. destruct (decide (k ∈ Node.id <$> ns)) as [|Hn]; [done|].
      rewrite (Hout Hn) in Hk. by destruct Hk.
    + intros Hk. destruct (Hin Hk) as (r & -> & _). eauto.
  - intros n1 n2 H1 H2. by apply (nodeToNet_same_net ns conns uf n2n).
Qed.

Lemma nameRoots_counter g roots :
  (1 ≤ (foldl (nameRoots_step g) ([], 1) roots).2)%nat.
Proof.
  induction roots as [|y roots IH] using rev_ind; [simpl; lia|].
  rewrite foldl_app. simpl. unfold nameRoots_step at 1.
  destruct (decide _); simpl; lia.
Qed.

(** What the naming loop has written after any number of roots. *)
Lemma nameRoots_names g roots :
  NoDup roots →
  let st := foldl (nameRoots_step g) ([], 1) roots in
  JsMap.keys st.1 = roots
  ∧ (∀ r v, JsMap.get r st.1 = Some v →
       (v = "gnd" ∧ Some r = g)
       ∨ (Some r ≠ g ∧ ∃ k, (1 ≤ k < st.2)%nat ∧ v = "net" +:+ pretty k))
  ∧ ∀ r r' v, JsMap.get r st.1 = Some v → JsMap.get r' st.1 = Some v → r = r'.
Proof.
  induction roots as [|x roots IH] using rev_ind; intros Hnd.
  - simpl. split; [done|]. split; intros; done.
  - apply NoDup_app in Hnd as (Hnd & Hx & _).
    specialize (IH Hnd). simpl in IH. destruct IH as (Hkeys & Hform & Hinj).
    rewrite foldl_app. simpl.
    set (st := foldl (nameRoots_step g) ([], 1) roots) in *.
    assert (JsMap.get x st.1 = None) as Hnone.
    { apply get_None_keys. rewrite Hkeys. intros Hin. apply (Hx x Hin).
      by apply list_elem_of_singleton. }
    assert (∀ v, JsMap.keys (JsMap.set x v st.1) = roots ++ [x]) as Hkeys'.
    { intros v. rewrite set_absent by done. unfold JsMap.keys in *.
      rewrite fmap_app. by rewrite Hkeys. }
    assert (∀ k : nat, "net" +:+ pretty k ≠ "gnd") as Hnet
      by (intros k; discriminate).
    unfold nameRoots_step.
    destruct (decide (Some x = g)) as [Heq|Hne]; simpl.
    + split; [apply Hkeys'|]. split.
      * intros r v. destruct (decide (r = x)) as [->|Hrx].
        -- rewrite get_set_eq. intros Hv. apply (inj Some) in Hv. by left.
        -- rewrite get_set_ne by done. apply Hform.
      * assert (∀ r, r ≠ x → JsMap.get r st.1 ≠ Some "gnd") as Hold.
        { intros r Hrx Hr. destruct (Hform _ _ Hr) as [[_ Hg]|[_ (k & _ & Hk)]].
          - rewrite <- Heq in Hg. by apply (inj Some) in Hg.
          - symmetry in Hk. by apply Hnet in Hk. }
        intros r r' v.
        destruct (decide (r = x)) as [->|Hrx], (decide (r' = x)) as [->|Hrx'];
          [done| | |].
        -- rewrite get_set_eq, get_set_ne by done. intros Hv Hr'.
           apply (inj Some) in Hv. subst v. by apply Hold in Hr'.
        -- rewrite get_set_eq, get_set_ne by done. intros Hr Hv.
           apply (inj Some) in Hv. subst v. by apply Hold in Hr.
        -- rewrite !get_set_ne by done. apply Hinj.
    + split; [apply Hkeys'|]. split.
      * intros r v. destruct (decide (r = x)) as [->|Hrx].
        -- rewrite get_set_eq. intros Hv. apply (inj Some) in Hv. right.
           split; [done|]. exists st.2. split; [|done].
           pose proof (nameRoots_counter g roots). fold st in H. lia.
        -- rewrite get_set_ne by done. intros Hr.
           destruct (Hform _ _ Hr) as [?|[? (k & Hk & ?)]]; [by left|].
           right. split; [done|]. exists k. split; [lia | done].
      * assert (∀ r, r ≠ x → JsMap.get r st.1 ≠ Some ("net" +:+ pretty st.2))
          as Hold.
        { intros r Hrx Hr. destruct (Hform _ _ Hr) as [[Hk _]|[_ (k & Hlt & Hk)]].
          - by apply Hnet in Hk.
          - apply (inj (String.append "net")) in Hk. apply (inj pretty) in Hk.
            lia. }
        intros r r' v.
        destruct (decide (r = x)) as [->|Hrx], (decide (r' = x)) as [->|Hrx'];
          [done| | |].
        -- rewrite get_set_eq, get_set_ne by done. intros Hv Hr'.
           apply (inj Some) in Hv. subst v. by apply Hold in Hr'.
        -- rewrite get_set_eq, get_set_ne by done. intros Hr Hv.
           apply (inj Some) in Hv. subst v. by apply Hold in Hr.
        -- rewrite !get_set_ne by done. apply Hinj.
Qed.

(** The entry [nodeToNet] has for a node is the representative of the
    node in the forest [buildElectricalNets] returns. *)
Lemma buildElectricalNets_entries ns conns uf n2n :
  buildElectricalNets ns conns = Some (uf, n2n) →
  ∀ n, n ∈ ns →
    ∃ r, JsMap.get (Node.id n) n2n = Some r
         ∧ rootof (UnionFind.parent uf) (Node.id n) r
         ∧ Node.id n ∈ JsMap.keys (UnionFind.parent uf).
Proof.
  unfold buildElectricalNets. intros Hbuild n Hn.
  assert (represents (UnionFind.parent (registerNodes ns UnionFind.new)) [])
    as Hrep0.
  { eapply represents_preserves; [apply represents_new|].
    apply registerNodes_preserves. }
  destruct (unions_represents (wires conns) _ [] Hrep0) as (uf1 & Hu & Hac & _).
  rewrite Hu in Hbuild. simpl in Hbuild.
  destruct (nodeToNet_loop_spec ns uf1 [] Hac) as (uf' & m' & Hl & Hp).
  rewrite Hl in Hbuild. injection Hbuild as -> ->.
  destruct (nodeToNet_loop_get ns uf1 [] uf n2n Hac Hl (Node.id n)) as [Hin _].
  destruct Hin as (r & Hget & Hr); [apply list_elem_of_fmap; eauto|].
  exists r. split; [done|]. split; [by apply Hp|].
  by apply (nodeToNet_loop_keys ns uf1 [] uf n2n Hl).
Qed.

(** Every node has a name, the label of its representative; names
    tell representatives apart. *)
Lemma getNetName_spec ns conns uf n2n names groundNet :
  buildElectricalNets ns conns = Some (uf, n2n) →
  assignNetNames uf ns = Some (names, groundNet) →
  (∀ r r' v, JsMap.get r names = Some v → JsMap.get r' names = Some v → r = r')
  ∧ ∀ n, n ∈ ns →
      ∃ r v, JsMap.get (Node.id n) n2n = Some r
             ∧ rootof (UnionFind.parent uf) (Node.id n) r
             ∧ JsMap.get r names = Some v
             ∧ getNetName (Node.id n) n2n names = Some v
             ∧ ((v = "gnd" ∧ Some r = groundNet)
                ∨ (Some r ≠ groundNet
                   ∧ ∃ k, (1 ≤ k)%nat ∧ v = "net" +:+ pretty k)).
Proof.
  intros Hb Ha.
  destruct (buildElectricalNets_spec ns conns) as (uf' & n2n' & Hb' & Hac & _).
  rewrite Hb in Hb'. injection Hb' as <- <-.
  pose proof (buildElectricalNets_entries ns conns uf n2n Hb) as Hent.
  destruct (findGround_spec uf ns Hac) as (uf1 & g & Hground & Hp1 & Hg).
  pose proof (preserves_acyclic _ _ Hac Hp1) as Hac1.
  destruct (getRoots_spec uf1 Hac1) as (uf2 & roots & Hroots & Hnd & Hin).
  unfold assignNetNames in Ha. rewrite Hground in Ha. simpl in Ha.
  rewrite Hroots in Ha. simpl in Ha. injection Ha as <- <-.
  destruct (nameRoots_names g roots Hnd) as (Hkeys & Hform & Hinj).
  fold (nameRoots g roots) in Hkeys, Hform, Hinj.
  assert (JsMap.keys (UnionFind.parent uf) ⊆ JsMap.keys (UnionFind.parent uf1))
    as Hsub.
  { unfold findGround in Hground. destruct (findRole battery_minus ns) as [m|].
    - destruct (UnionFind.find uf (Node.id m)) as [[uf' r']|] eqn:Hf; [|done].
      simpl in Hground. injection Hground as <- _.
      by apply find_keys in Hf as [? _].
    - by injection Hground as <- _. }
  split; [done|].
  intros n Hn. destruct (Hent n Hn) as (r & Hget & Hr & Hk).
  assert (is_Some (JsMap.get r (nameRoots g roots))) as [v Hv].
  { apply get_Some_keys. rewrite Hkeys. apply Hin. exists (Node.id n).
    split; [by apply Hsub | by apply Hp1]. }
  exists r, v. split; [done|]. split; [done|]. split; [done|].
  assert (v ≠ "") as Hne.
  { destruct (Hform _ _ Hv) as [[-> _]|[_ (k & _ & ->)]]; discriminate. }
  split.
  - unfold getNetName. rewrite Hget, Hv. by rewrite decide_False.
  - destruct (Hform _ _ Hv) as [?|[? (k & ? & ?)]]; [by left|].
    right. split; [done|]. exists k. split; [lia | done].
Qed.

(** X8. For every input, [buildElectricalNets] and [assignNetNames]
    return, and [getNetName] gives every node a name that is ["gnd"] or
    ["net<k>"] with [k >= 1]; two nodes get the same name exactly when
    wires join them, directly or through other nodes; and a node is
    named ["gnd"] exactly when wires join it to the first node tagged
    [battery_minus] (so no node is, when there is no such node). *)
Theorem net_names_follow_wires (ns : list Node.t) (conns : list Connection.t) :
  ∃ uf n2n names groundNet,
    buildElectricalNets ns conns = Some (uf, n2n)
    ∧ assignNetNames uf ns = Some (names, groundNet)
    ∧ (∀ n, n ∈ ns →
         ∃ name, getNetName (Node.id n) n2n names = Some name
                 ∧ (name = "gnd"
                    ∨ ∃ k, (1 ≤ k)%nat ∧ name = "net" +:+ pretty k))
    ∧ (∀ n1 n2, n1 ∈ ns → n2 ∈ ns →
         getNetName (Node.id n1) n2n names = getNetName (Node.id n2) n2n names
         ↔ same_component (wires conns) (Node.id n1) (Node.id n2))
    ∧ ∀ n, n ∈ ns →
        getNetName (Node.id n) n2n names = Some "gnd"
        ↔ ∃ m, findRole battery_minus ns = Some m
               ∧ same_component (wires conns) (Node.id n) (Node.id m).
Proof.
  destruct (buildElectricalNets_spec ns conns) as (uf & n2n & Hb & Hac & Hiff).
  destruct (findGround_spec uf ns Hac) as (uf1 & groundNet & Hground & Hp1 & Hg).
  pose proof (preserves_acyclic _ _ Hac Hp1) as Hac1.
  destruct (getRoots_spec uf1 Hac1) as (uf2 & roots & Hroots & _).
  assert (assignNetNames uf ns = Some (nameRoots groundNet roots, groundNet))
    as Ha.
  { unfold assignNetNames. rewrite Hground. simpl. by rewrite Hroots. }
  destruct (getNetName_spec ns conns uf n2n _ _ Hb Ha) as [Hinj Hname].
  exists uf, n2n, (nameRoots groundNet roots), groundNet.
  split; [done|]. split; [done|]. split; [|split].
  - intros n Hn. destruct (Hname n Hn) as (r & v & _ & _ & _ & Hv & Hf).
    exists v. split; [done|]. destruct Hf as [[? _]|[_ ?]]; [by left | by right].
  - intros n1 n2 H1 H2.
    destruct (Hname n1 H1) as (r1 & v1 & _ & Hr1 & Hg1 & -> & _).
    destruct (Hname n2 H2) as (r2 & v2 & _ & Hr2 & Hg2 & -> & _).
    rewrite <- Hiff. split.
    + intros Hv. apply (inj Some) in Hv. subst v2.
      destruct (Hinj _ _ _ Hg1 Hg2). by exists r1.
    + intros [r [Hx Hy]].
      destruct (rootof_fun _ _ _ _ Hr1 Hx). destruct (rootof_fun _ _ _ _ Hr2 Hy).
      congruence.
  - intros n Hn. destruct (Hname n Hn) as (r & v & _ & Hr & _ & -> & Hf).
    destruct (findRole battery_minus ns) as [m|].
    + destruct Hg as (g & -> & _ & Hgm). split.
      * intros Hv. apply (inj Some) in Hv. subst v.
        destruct Hf as [[_ Hrg]|[_ (k & _ & Hk)]]; [|discriminate].
        apply (inj Some) in Hrg. subst g. exists m. split; [done|].
        apply Hiff. by exists r.
      * intros (m' & Hm' & Hsame). apply (inj Some) in Hm'. subst m'.
        apply Hiff in Hsame as [r' [Hx Hy]].
        destruct (rootof_fun _ _ _ _ Hr Hx). destruct (rootof_fun _ _ _ _ Hgm Hy).
        destruct Hf as [[-> _]|[Hne _]]; [done | by destruct Hne].
    + subst groundNet. split.
      * intros Hv. apply (inj Some) in Hv. subst v.
        destruct Hf as [[_ ?]|[_ (k & _ & Hk)]]; discriminate.
      * intros (m & Hm & _). done.
Qed.

(** ** Further properties: translation into a netlist *)

Lemma get_Some_elem {V} k (v : V) (m : list (string * V)) :
  JsMap.get k m = Some v → (k, v) ∈ m.
Proof.
  induction m as [|[k' v'] m IH]; simpl; [done|].
  destruct (decide (k' = k)) as [->|Hne].
  - intros [= ->]. left.
  - intros H. right. by apply IH.
Qed.

Lemma createNodes_index E entries : ∀ st st',
  createNodes E entries st = Returns st' →
  (∀ k, k ∈ JsMap.keys st.2 → k ∈ JsMap.keys st'.2)
  ∧ ∀ kv, kv ∈ entries → kv.2 ≠ "gnd" → kv.2 ∈ JsMap.keys st'.2.
Proof.
  induction entries as [|[root name] entries IH]; intros st st'; simpl.
  - intros [= <-]. split; [done|]. intros kv Hkv. by apply elem_of_nil in Hkv.
  - destruct (decide (name = "gnd")) as [->|Hname].
    + intros H. destruct (IH _ _ H) as [Hold Hnew]. split; [done|].
      intros kv [->|Hkv]%elem_of_cons Hne; [done | by apply Hnew].
    + unfold ckt_node. destruct (raises _ _ _); [done|]. simpl.
      intros H. destruct (IH _ _ H) as [Hold Hnew]. simpl in Hold. split.
      * intros k Hk. apply Hold. by apply keys_set_subseteq.
      * intros kv [->|Hkv]%elem_of_cons Hne; [|by apply Hnew].
        simpl. apply Hold. apply get_Some_keys. rewrite get_set_eq. eauto.
Qed.

(** After translation every node of the input resolves to a solver
    handle. *)
Lemma translate_handles E c t :
  translate E c = Returns (inr t) →
  ∀ n, n ∈ nodes c → is_Some (getNodeIndex (t_nets t) (Node.id n)).
Proof.
  intros Ht n Hn.
  destruct (translate_inr E c t Ht)
    as (uf & n2n & names & g & ckt0 & n2i & ckt1 & indices & ckt2
        & _ & _ & Hb & Ha & _ & Hc & Hnets & _).
  destruct (getNetName_spec _ _ _ _ _ _ Hb Ha) as [_ Hname].
  destruct (Hname n Hn) as (r & v & _ & _ & Hv & Hget & _).
  rewrite Hnets. unfold getNodeIndex. simpl. rewrite Hget.
  apply get_Some_keys.
  destruct (createNodes_index _ _ _ _ Hc) as [Hold Hnew]. simpl in *.
  destruct (decide (v = "gnd")) as [->|Hne].
  - apply Hold. unfold JsMap.keys. simpl. left.
  - apply (Hnew (r, v)); [by apply get_Some_elem | done].
Qed.

Section handles.
Context (E : Cktsim) (nets : Nets) (ns : list Node.t).
Hypothesis Hns : ∀ n, n ∈ ns → is_Some (getNodeIndex nets (Node.id n)).

Let handled (ckt : Circuit) : Prop :=
  ∀ d h, d ∈ devices ckt → h ∈ device_nodes d → is_Some h.

Lemma ckt_add_handled ckt d ckt' :
  ckt_add E ckt d = Returns ckt' → handled ckt →
  (∀ h, h ∈ device_nodes d → is_Some h) → handled ckt'.
Proof.
  intros Hadd Hckt Hd d' h. rewrite (ckt_add_devices _ _ _ _ Hadd).
  intros [? | ->%list_elem_of_singleton]%elem_of_app; [by apply Hckt | apply Hd].
Qed.

Lemma addLiveBattery_handled b ckt ckt' :
  addLiveBattery E nets ns b ckt = Returns ckt' → handled ckt → handled ckt'.
Proof.
  unfold addLiveBattery.
  destruct (findRole battery_plus _) as [p|] eqn:Hp;
    [|by intros [= <-]].
  destruct (findRole battery_minus _) as [m|] eqn:Hm;
    [|by intros [= <-]].
  apply findRole_elem in Hp as [Hp%nodesOf_elem _].
  apply findRole_elem in Hm as [Hm%nodesOf_elem _].
  destruct (ckt_node E ckt _) as [[ckt1 i]| |] eqn:Hn; [|done..]. simpl.
  destruct (ckt_add E ckt1 _) as [ckt2| |] eqn:Hv; [|done..]. simpl.
  intros Hr Hckt.
  eapply ckt_add_handled; [exact Hr| |].
  - eapply ckt_add_handled; [exact Hv| |].
    + intros d h. rewrite (ckt_node_devices _ _ _ _ _ Hn). apply Hckt.
    + simpl. intros h [-> | ->]%elem_of_two;
        [eauto | by apply Hns].
  - simpl. intros h [-> | ->]%elem_of_two;
      [by apply Hns | eauto].
Qed.

Lemma addBatteries_handled sh bs : ∀ idx st st',
  addBatteries E nets sh ns bs idx st = Returns st' →
  handled st.1 → handled st'.1.
Proof.
  induction bs as [|b bs IH]; intros idx st st'; simpl.
  - by intros [= <-].
  - unfold addBattery at 1. destruct (decide _).
    + intros H. exact (IH _ _ _ H).
    + destruct (addLiveBattery E nets ns b st.1) as [ckt| |] eqn:Hl; [|done..].
      intros H Hst. apply (IH _ _ _ H). simpl.
      by eapply addLiveBattery_handled.
Qed.

Lemma addResistor_handled (value : Component.t → float) bs : ∀ ckt ckt',
  forEachM (λ b ckt,
    match nodesOf (Component.id b) ns with
    | [n1; n2] =>
        ckt_add E ckt
          (Resistor (getNodeIndex nets (Node.id n1))
             (getNodeIndex nets (Node.id n2)) (value b) (Component.id b))
    | _ => Returns ckt
    end) bs ckt = Returns ckt' →
  handled ckt → handled ckt'.
Proof.
  induction bs as [|b bs IH]; intros ckt ckt'; simpl.
  - by intros [= <-].
  - destruct (nodesOf (Component.id b) ns) as [|n1 [|n2 [|n3 rest]]] eqn:Hnodes;
      simpl; try apply IH.
    destruct (ckt_add E ckt _) as [ckt1| |] eqn:Hadd; [|done..]. simpl.
    intros H Hckt. apply IH in H; [done|].
    eapply ckt_add_handled; [exact Hadd | done |].
    assert (n1 ∈ ns ∧ n2 ∈ ns) as [H1 H2].
    { split; apply (nodesOf_elem (Component.id b)); rewrite Hnodes;
        [left | right; left]. }
    simpl. intros h [-> | ->]%elem_of_two;
      by apply Hns.
Qed.

End handles.

(** X9. When translation completes, every element handed to the solver
    has both of its node handles defined: no terminal of a battery, a
    bulb or a potentiometer is passed on as [undefined]. *)
Theorem netlist_handles_defined E c t :
  translate E c = Returns (inr t) →
  ∀ d h, d ∈ devices (t_ckt t) → h ∈ device_nodes d → is_Some h.
Proof.
  intros Ht.
  pose proof (translate_handles E c t Ht) as Hns.
  destruct (translate_inr E c t Ht)
    as (uf & n2n & names & g & ckt0 & n2i & ckt1 & indices & ckt2
        & _ & _ & _ & _ & _ & Hc & _ & Hbat & Hbulb & Hpot & _).
  apply (addResistor_handled E (t_nets t) (nodes c) Hns potResistance _ _ _ Hpot).
  apply (addResistor_handled E (t_nets t) (nodes c) Hns (λ _, BULB_RESISTANCE)
           _ _ _ Hbulb).
  apply (addBatteries_handled E (t_nets t) (nodes c) Hns _ _ _ _ _ Hbat).
  pose proof (createNodes_devices _ _ _ _ Hc) as Hnone. simpl in Hnone.
  simpl. intros d h. rewrite Hnone. intros Hd. by apply elem_of_nil in Hd.
Qed.

Lemma netlist_handles_defined_witness :
  length (devices (t_ckt (translation_of (counting (λ _, DcUndefined)) lamp))) = 3
  ∧ ∀ d h,
      d ∈ devices (t_ckt (translation_of (counting (λ _, DcUndefined)) lamp)) →
      h ∈ device_nodes d → is_Some h.
Proof.
  split; [reflexivity|].
  apply (netlist_handles_defined (counting (λ _, DcUndefined)) lamp).
  vm_compute. reflexivity.
Defined.

Lemma addBatteries_indices_exact E nets sh ns bs : ∀ idx st st',
  addBatteries E nets sh ns bs idx st = Returns st' →
  ∀ k, k ∈ st'.2 ↔
       k ∈ st.2
       ∨ ∃ i b, bs !! i = Some b ∧ Component.id b ∈ sh ∧ k = idx + i + 1.
Proof.
  induction bs as [|b bs IH]; intros idx st st'; simpl.
  - intros [= <-] k. split; [by left|]. intros [?|(i & b & H & _)]; done.
  - unfold addBattery at 1. destruct (decide _) as [Hin|Hout].
    + intros H k. rewrite (IH _ _ _ H k). simpl.
      rewrite elem_of_app, list_elem_of_singleton. split.
      * intros [[?| ->]|(i & b' & Hi & Hb & ->)]; [by left | |].
        -- right. exists 0, b. split; [done|]. split; [done | lia].
        -- right. exists (S i), b'. split; [done|]. split; [done | lia].
      * intros [?|(i & b' & Hi & Hb & ->)]; [left; by left|].
        destruct i as [|i].
        -- left. right. lia.
        -- right. exists i, b'. split; [done|]. split; [done | lia].
    + destruct (addLiveBattery E nets ns b st.1) as [ckt| |] eqn:Hl; [|done..].
      intros H k. rewrite (IH _ _ _ H k). simpl. split.
      * intros [?|(i & b' & Hi & Hb & ->)]; [by left|].
        right. exists (S i), b'. split; [done|]. split; [done | lia].
      * intros [?|(i & b' & Hi & Hb & ->)]; [by left|].
        destruct i as [|i].
        -- simpl in Hi. injection Hi as <-. done.
        -- right. exists i, b'. split; [done|]. split; [done | lia].
Qed.

Lemma addBatteries_sorted E nets sh ns bs : ∀ idx st st',
  addBatteries E nets sh ns bs idx st = Returns st' →
  StronglySorted lt st.2 → (∀ k, k ∈ st.2 → (k ≤ idx)%nat) →
  StronglySorted lt st'.2.
Proof.
  induction bs as [|b bs IH]; intros idx st st'; simpl.
  - by intros [= <-].
  - unfold addBattery at 1. destruct (decide _) as [Hin|Hout].
    + intros H Hs Hle. apply (IH _ _ _ H); simpl.
      * apply StronglySorted_app_2; [|done|].
        -- intros x1 x2 H1 ->%list_elem_of_singleton. apply Hle in H1. lia.
        -- repeat constructor.
      * intros k [Hk| ->%list_elem_of_singleton]%elem_of_app; [|lia].
        apply Hle in Hk. lia.
    + destruct (addLiveBattery E nets ns b st.1) as [ckt| |] eqn:Hl; [|done..].
      intros H Hs Hle. apply (IH _ _ _ H); simpl; [done|].
      intros k Hk. apply Hle in Hk. lia.
Qed.

Lemma StronglySorted_seq n : ∀ a, StronglySorted lt (seq a n).
Proof.
  induction n as [|n IH]; intros a; simpl; constructor; [apply IH|].
  apply Forall_forall. intros x Hx%list_elem_of_In%in_seq. lia.
Qed.

(** The positions translation has flagged. *)
Lemma translate_indices E c t :
  translate E c = Returns (inr t) →
  StronglySorted lt (batteryIndices (t_result t))
  ∧ ∀ k, k ∈ batteryIndices (t_result t) ↔
      ∃ i b, k = S i ∧ ofType Battery (components c) !! i = Some b
             ∧ terminalsShorted (Component.id b) (nodes c)
                 (nodeToNet (t_nets t)) = true.
Proof.
  intros Ht.
  destruct (translate_inr E c t Ht)
    as (uf & n2n & names & g & ckt0 & n2i & ckt1 & indices & ckt2
        & _ & _ & _ & _ & _ & _ & Hnets & Hbat & _ & _ & Hres).
  rewrite Hres, Hnets. simpl. split.
  - apply (addBatteries_sorted _ _ _ _ _ _ _ _ Hbat); simpl; [constructor|].
    intros k Hk. by apply elem_of_nil in Hk.
  - intros k. rewrite (addBatteries_indices_exact _ _ _ _ _ _ _ _ Hbat k). simpl.
    split.
    + intros [Hk|(i & b & Hi & Hb & ->)]; [by apply elem_of_nil in Hk|].
      exists i, b. split; [lia|]. split; [done|].
      by apply getShortedBatteryIds_elem in Hb as [_ ?].
    + intros (i & b & -> & Hi & Hb). right. exists i, b.
      split; [done|]. split; [|lia].
      apply getShortedBatteryIds_elem. split; [|done].
      exists b. split; [|done]. by eapply list_elem_of_lookup_2.
Qed.

(** X10. When translation completes, [batteryIndices] lists, in
    increasing order and each once, exactly the 1-based positions of
    the batteries whose plus and minus terminals are joined by wires,
    directly or through other nodes. *)
Theorem flagged_positions_after_translation E c t :
  translate E c = Returns (inr t) →
  StronglySorted lt (batteryIndices (t_result t))
  ∧ ∀ k, k ∈ batteryIndices (t_result t) ↔
      ∃ i b p m,
        k = S i ∧ ofType Battery (components c) !! i = Some b
        ∧ findRole battery_plus (nodesOf (Component.id b) (nodes c)) = Some p
        ∧ findRole battery_minus (nodesOf (Component.id b) (nodes c)) = Some m
        ∧ same_component (wires (connections c)) (Node.id p) (Node.id m).
Proof.
  intros Ht. destruct (translate_indices E c t Ht) as [Hsorted Hiff].
  split; [done|]. intros k. rewrite Hiff.
  destruct (translate_inr E c t Ht)
    as (uf & n2n & names & g & ckt0 & n2i & ckt1 & indices & ckt2
        & _ & _ & Hb & _ & _ & _ & Hnets & _).
  rewrite Hnets. simpl.
  assert (∀ b p m,
            findRole battery_plus (nodesOf (Component.id b) (nodes c)) = Some p →
            findRole battery_minus (nodesOf (Component.id b) (nodes c)) = Some m →
            JsMap.get (Node.id p) n2n = JsMap.get (Node.id m) n2n
            ↔ same_component (wires (connections c)) (Node.id p) (Node.id m))
    as Hsame.
  { intros b p m [Hp _]%findRole_elem [Hm _]%findRole_elem.
    apply nodesOf_elem in Hp, Hm.
    by apply (nodeToNet_same_net (nodes c) (connections c) uf n2n). }
  split.
  - intros (i & b & -> & Hi & (p & m & Hp & Hm & Hget)%terminalsShorted_iff).
    exists i, b, p, m. split; [done|]. split; [done|]. split; [done|].
    split; [done|]. by apply (Hsame b).
  - intros (i & b & p & m & -> & Hi & Hp & Hm & Hc).
    exists i, b. split; [done|]. split; [done|].
    apply terminalsShorted_iff. exists p, m. split; [done|]. split; [done|].
    by apply (Hsame b).
Qed.

Lemma flagged_positions_after_translation_witness :
  batteryIndices
    (t_result (translation_of (counting (λ _, DcUndefined)) self_short)) = [1]
  ∧ ∀ k, k ∈ batteryIndices
             (t_result (translation_of (counting (λ _, DcUndefined)) self_short))
       ↔ ∃ i b p m,
           k = S i
           ∧ ofType Battery (components self_short) !! i = Some b
           ∧ findRole battery_plus
               (nodesOf (Component.id b) (nodes self_short)) = Some p
           ∧ findRole battery_minus
               (nodesOf (Component.id b) (nodes self_short)) = Some m
           ∧ same_component (wires (connections self_short))
               (Node.id p) (Node.id m).
Proof.
  split; [reflexivity|].
  apply (flagged_positions_after_translation
           (counting (λ _, DcUndefined)) self_short).
  vm_compute. reflexivity.
Defined.

Lemma translate_inl E c r :
  translate E c = Returns (inl r) → batteryIndices r = [].
Proof.
  unfold translate.
  destruct (_ || _); [by intros [= <-]|].
  destruct (buildElectricalNets _ _) as [[uf n2n]|]; [|done]. simpl.
  destruct (assignNetNames _ _) as [[names g]|]; [|done]. simpl.
  destruct (falsy_string g); [by intros [= <-]|].
  destruct (createNodes _ _ _) as [[ckt0 n2i]| |]; [|done..]. simpl.
  destruct (addBatteries _ _ _ _ _ _ _) as [[ckt1 idxs]| |]; [|done..]. simpl.
  destruct (forEachM _ _ _) as [ckt2| |]; [|done..]. simpl.
  destruct (forEachM _ _ _) as [ckt3| |]; [|done..]. simpl. done.
Qed.

(** X11. In every result [simulateCircuit] returns, [batteryIndices]
    is strictly increasing (so without repetition) and holds only
    1-based positions of batteries of the input. *)
Theorem batteryIndices_sorted_in_range E c r :
  simulateCircuit E c = Returns r →
  StronglySorted lt (batteryIndices r)
  ∧ ∀ k, k ∈ batteryIndices r →
         (1 ≤ k ≤ length (ofType Battery (components c)))%nat.
Proof.
  unfold simulateCircuit.
  destruct (translate E c) as [[r0|t]| |] eqn:Ht; [| |done..]; simpl.
  - intros [= <-]. rewrite (translate_inl _ _ _ Ht). split; [constructor|].
    intros k Hk. by apply elem_of_nil in Hk.
  - intros [= <-].
    assert (StronglySorted lt (getAllBatteryIndices (components c))
            ∧ ∀ k, k ∈ getAllBatteryIndices (components c) →
                   (1 ≤ k ≤ length (ofType Battery (components c)))%nat)
      as Hall.
    { rewrite getAllBatteryIndices_seq. split; [apply StronglySorted_seq|].
      intros k Hk%list_elem_of_In%in_seq. lia. }
    assert (StronglySorted lt (batteryIndices (t_result t))
            ∧ ∀ k, k ∈ batteryIndices (t_result t) →
                   (1 ≤ k ≤ length (ofType Battery (components c)))%nat)
      as Hsome.
    { destruct (translate_indices E c t Ht) as [Hs Hiff]. split; [done|].
      intros k (i & b & -> & Hi%lookup_lt_Some & _)%Hiff. lia. }
    unfold solveAndInterpret. destruct (dc E (t_ckt t)) as [m| |]; [|done..].
    by destruct (interpret_batteryIndices c t m) as [-> | ->].
Qed.

Lemma batteryIndices_sorted_in_range_witness :
  let r := result_of (counting (λ _, DcSolved series_short_solution)) series_short in
  StronglySorted lt (batteryIndices r)
  ∧ ∀ k, k ∈ batteryIndices r →
         (1 ≤ k ≤ length (ofType Battery (components series_short)))%nat.
Proof.
  apply (batteryIndices_sorted_in_range
           (counting (λ _, DcSolved series_short_solution)) series_short).
  vm_compute. reflexivity.
Defined.

(** ** Further properties: interpretation of a solved circuit *)

Lemma simulateCircuit_solved E c t m :
  translate E c = Returns (inr t) → dc E (t_ckt t) = DcSolved m →
  simulateCircuit E c = Returns (interpret c t m).
Proof.
  intros Ht Hdc. rewrite (simulateCircuit_inr _ _ _ Ht).
  unfold solveAndInterpret. by rewrite Hdc.
Qed.

Lemma translate_result E c t :
  translate E c = Returns (inr t) →
  hasClosedLoop (t_result t) = false ∧ bulbsOnCount (t_result t) = 0
  ∧ bulbStates (t_result t) = initBulbStates (components c)
  ∧ nodeVoltages (t_result t) = ∅ ∧ totalCurrent (t_result t) = 0%float.
Proof.
  intros Ht.
  destruct (translate_inr E c t Ht)
    as (uf & n2n & names & g & ckt0 & n2i & ckt1 & indices & ckt2
        & _ & _ & _ & _ & _ & _ & _ & _ & _ & _ & ->).
  done.
Qed.

Lemma interpret_nodeVoltages c t m :
  nodeVoltages (interpret c t m)
  = filter (λ kv : string * float,
              String.prefix "I(" kv.1 = false ∧ kv.1 ≠ "__proto__") m
    ∪ nodeVoltages (t_result t).
Proof.
  unfold interpret.
  destruct (shortCircuitCheck_fields (components c)
              (closedLoopCheck
                 (foldl (interpretBulb (t_nets t) (nodes c) m)
                    (foldl (readBatteryCurrent m) (copyVoltages m (t_result t))
                       (ofType Battery (components c)))
                    (ofType Bulb (components c)))))
    as (_ & _ & _ & -> & _).
  destruct (closedLoopCheck_fields
              (foldl (interpretBulb (t_nets t) (nodes c) m)
                 (foldl (readBatteryCurrent m) (copyVoltages m (t_result t))
                    (ofType Battery (components c)))
                 (ofType Bulb (components c))))
    as (_ & _ & -> & _).
  destruct (interpretBulb_fold_other (t_nets t) (nodes c) m
              (ofType Bulb (components c))
              (foldl (readBatteryCurrent m) (copyVoltages m (t_result t))
                 (ofType Battery (components c))))
    as (_ & -> & _).
  destruct (readBatteryCurrent_fold m (ofType Battery (components c))
              (copyVoltages m (t_result t)))
    as (_ & _ & _ & _ & -> & _).
  done.
Qed.

(** X12. On solver success the own entries of [nodeVoltages] are
    exactly the entries of the solved map whose key does not start
    with ["I("] and is not ["__proto__"], with the values the solver
    gave: branch currents are not copied, and the write of a number
    under ["__proto__"] stores nothing. *)
Theorem nodeVoltages_are_the_solved_voltages E c t m :
  translate E c = Returns (inr t) → dc E (t_ckt t) = DcSolved m →
  ∃ r, simulateCircuit E c = Returns r
       ∧ ∀ k, nodeVoltages r !! k
              = if String.prefix "I(" k || bool_decide (k = "__proto__")
                then None else m !! k.
Proof.
  intros Ht Hdc. exists (interpret c t m).
  split; [by apply simulateCircuit_solved|].
  intros k. rewrite interpret_nodeVoltages.
  destruct (translate_result E c t Ht) as (_ & _ & _ & -> & _).
  rewrite (right_id_L ∅ (∪)).
  apply option_eq. intros v. rewrite map_lookup_filter_Some. simpl.
  destruct (String.prefix "I(" k); simpl.
  - split; [by intros [_ [? _]] | done].
  - case_bool_decide as Hk.
    + split; [by intros [_ [_ ?]] | done].
    + split; [by intros [? _] | done].
Qed.

Lemma nodeVoltages_are_the_solved_voltages_witness :
  ∃ r, simulateCircuit (counting (λ _, DcSolved lamp_solution)) lamp = Returns r
       ∧ ∀ k, nodeVoltages r !! k
              = if String.prefix "I(" k || bool_decide (k = "__proto__")
                then None else lamp_solution !! k.
Proof.
  apply (nodeVoltages_are_the_solved_voltages
           (counting (λ _, DcSolved lamp_solution)) lamp
           (translation_of (counting (λ _, DcSolved lamp_solution)) lamp)).
  - vm_compute. reflexivity.
  - vm_compute. reflexivity.
Defined.

Lemma interpretBulb_fold_count nets ns m bulbs : ∀ r,
  let r' := foldl (interpretBulb nets ns m) r bulbs in
  bulbsOnCount r'
  = bulbsOnCount r + length (filter (λ b, bulbLit nets ns m b = true) bulbs)
  ∧ ((hasClosedLoop r = true ↔ (0 < bulbsOnCount r)%nat) →
     (hasClosedLoop r' = true ↔ (0 < bulbsOnCount r')%nat)).
Proof.
  induction bulbs as [|b bulbs IH]; intros r; simpl.
  - split; [lia | done].
  - destruct (IH (interpretBulb nets ns m r b)) as [Hcount Hloop].
    simpl in Hcount, Hloop.
    assert (bulbsOnCount (interpretBulb nets ns m r b)
            = (bulbsOnCount r + if bulbLit nets ns m b then 1 else 0)%nat
            ∧ ((hasClosedLoop r = true ↔ (0 < bulbsOnCount r)%nat) →
               (hasClosedLoop (interpretBulb nets ns m r b) = true
                ↔ (0 < bulbsOnCount (interpretBulb nets ns m r b))%nat)))
      as [Hone Hinv].
    { unfold interpretBulb, bulbLit.
      destruct (nodesOf (Component.id b) ns) as [|n1 [|n2 [|n3 rest]]];
        try (split; [lia | done]).
      destruct (isOn (computeBulbState _ _)); simpl.
      - split; [lia|]. intros _. split; [lia | done].
      - split; [lia | done]. }
    split.
    + rewrite Hcount, Hone. destruct (bulbLit nets ns m b) eqn:Hlit.
      * rewrite filter_cons_True by done. simpl. lia.
      * rewrite filter_cons_False by (by rewrite Hlit). lia.
    + intros H. exact (Hloop (Hinv H)).
Qed.

Lemma interpretBulb_fold_untouched nets ns m id bulbs : ∀ r,
  length (nodesOf id ns) ≠ 2 →
  bulbStates (foldl (interpretBulb nets ns m) r bulbs) !! id = bulbStates r !! id.
Proof.
  induction bulbs as [|b bulbs IH]; intros r Hid; simpl; [done|].
  rewrite IH by done. unfold interpretBulb.
  destruct (nodesOf (Component.id b) ns) as [|n1 [|n2 [|n3 rest]]] eqn:Hb;
    try done.
  assert (Component.id b ≠ id) as Hne.
  { intros <-. rewrite Hb in Hid. by apply Hid. }
  destruct (isOn _); simpl; by rewrite obj_lookup_insert_ne.
Qed.

Lemma interpretBulb_fold_dom nets ns m bulbs : ∀ r id,
  is_Some (bulbStates (foldl (interpretBulb nets ns m) r bulbs) !! id)
  ↔ is_Some (bulbStates r !! id)
    ∨ ∃ b, b ∈ bulbs ∧ Component.id b = id
           ∧ length (nodesOf (Component.id b) ns) = 2.
Proof.
  induction bulbs as [|b bulbs IH]; intros r id; simpl.
  - split; [by left|]. intros [?|(b & Hb & _)]; [done|].
    by apply elem_of_nil in Hb.
  - rewrite IH. clear IH.
    assert (is_Some (bulbStates (interpretBulb nets ns m r b) !! id)
            ↔ is_Some (bulbStates r !! id)
              ∨ (Component.id b = id
                 ∧ length (nodesOf (Component.id b) ns) = 2)) as ->.
    { unfold interpretBulb.
      destruct (nodesOf (Component.id b) ns) as [|n1 [|n2 [|n3 rest]]] eqn:Hb;
        try (split; [by left | by intros [?|[_ ?]]]).
      assert (is_Some (<[Component.id b := computeBulbState
                (terminalVoltage m
                   (getNetName (Node.id n1) (nodeToNet nets) (netNames nets)))
                (terminalVoltage m
                   (getNetName (Node.id n2) (nodeToNet nets) (netNames nets)))]>
                (bulbStates r) !! id)
              ↔ is_Some (bulbStates r !! id) ∨ Component.id b = id) as Hins.
      { destruct (decide (Component.id b = id)) as [->|Hne].
        - rewrite obj_lookup_insert_eq. split; [by right | eauto].
        - rewrite obj_lookup_insert_ne by done. split; [by left|].
          by intros [?|?]. }
      destruct (isOn _); simpl; rewrite Hins; split;
        (intros [?|?]; [by left|]); right; [done | tauto | done | tauto]. }
    split.
    + intros [[?|[Hid Hlen]]|(b' & Hb' & Hid & Hlen)]; [by left | |].
      * right. exists b. split; [left | done].
      * right. exists b'. split; [by right | done].
    + intros [?|(b' & [->|Hb']%elem_of_cons & Hid & Hlen)].
      * left. by left.
      * left. by right.
      * right. exists b'. done.
Qed.

Lemma interpret_fields c t m :
  let r3 := foldl (interpretBulb (t_nets t) (nodes c) m)
              (foldl (readBatteryCurrent m) (copyVoltages m (t_result t))
                 (ofType Battery (components c)))
              (ofType Bulb (components c)) in
  hasClosedLoop (interpret c t m)
  = hasClosedLoop r3 || (CURRENT_THRESHOLD <? totalCurrent r3)%float
  ∧ bulbsOnCount (interpret c t m) = bulbsOnCount r3
  ∧ totalCurrent (interpret c t m) = totalCurrent r3.
Proof.
  intros r3. unfold interpret. fold r3.
  destruct (shortCircuitCheck_fields (components c) (closedLoopCheck r3))
    as (-> & -> & _ & _ & ->).
  destruct (closedLoopCheck_fields r3) as (-> & _ & _ & -> & _).
  split; [|done]. unfold closedLoopCheck.
  destruct (hasClosedLoop r3) eqn:Hh; simpl; [done|].
  destruct (CURRENT_THRESHOLD <? totalCurrent r3)%float; simpl; done.
Qed.

Lemma interpret_counts c t m :
  hasClosedLoop (t_result t) = false → bulbsOnCount (t_result t) = 0 →
  let r3 := foldl (interpretBulb (t_nets t) (nodes c) m)
              (foldl (readBatteryCurrent m) (copyVoltages m (t_result t))
                 (ofType Battery (components c)))
              (ofType Bulb (components c)) in
  bulbsOnCount r3
  = length (filter (λ b, bulbLit (t_nets t) (nodes c) m b = true)
              (ofType Bulb (components c)))
  ∧ (hasClosedLoop r3 = true ↔ (0 < bulbsOnCount r3)%nat).
Proof.
  intros Hh Hn r3.
  destruct (readBatteryCurrent_fold m (ofType Battery (components c))
              (copyVoltages m (t_result t))) as (_ & Hh2 & Hn2 & _).
  simpl in Hh2, Hn2.
  destruct (interpretBulb_fold_count (t_nets t) (nodes c) m
              (ofType Bulb (components c))
              (foldl (readBatteryCurrent m) (copyVoltages m (t_result t))
                 (ofType Battery (components c)))) as [Hcount Hloop].
  fold r3 in Hcount, Hloop. rewrite Hn2, Hh2 in *. rewrite Hh, Hn in *.
  split; [done|]. apply Hloop. split; [done | lia].
Qed.

(** A returned result is that of an incomplete or unsolved circuit,
    with nothing counted, or the interpretation of a solved map. *)
Lemma result_cases E c r :
  simulateCircuit E c = Returns r →
  (hasClosedLoop r = false ∧ bulbsOnCount r = 0 ∧ totalCurrent r = 0%float)
  ∨ ∃ t m, translate E c = Returns (inr t) ∧ dc E (t_ckt t) = DcSolved m
           ∧ r = interpret c t m.
Proof.
  unfold simulateCircuit.
  destruct (translate E c) as [[r0|t]| |] eqn:Ht; [| |done..]; simpl;
    intros [= <-].
  - left. unfold translate in Ht.
    destruct (_ || _); [by injection Ht as <-|].
    destruct (buildElectricalNets _ _) as [[uf n2n]|]; [|done]. simpl in Ht.
    destruct (assignNetNames _ _) as [[names g]|]; [|done]. simpl in Ht.
    destruct (falsy_string g); [by injection Ht as <-|].
    destruct (createNodes _ _ _) as [[ckt0 n2i]| |]; [|done..]. simpl in Ht.
    destruct (addBatteries _ _ _ _ _ _ _) as [[ckt1 idxs]| |]; [|done..].
    simpl in Ht.
    destruct (forEachM _ _ _) as [ckt2| |]; [|done..]. simpl in Ht.
    destruct (forEachM _ _ _) as [ckt3| |]; [|done..]. simpl in Ht. done.
  - destruct (translate_result E c t Ht) as (Hh & Hn & _ & _ & Hzero).
    unfold solveAndInterpret.
    destruct (dc E (t_ckt t)) as [m| |] eqn:Hdc; [right; by exists t, m|..];
      left; done.
Qed.

(** X13. In every result [simulateCircuit] returns, [hasClosedLoop] is
    set exactly when a bulb is counted as on or the total current
    exceeds 1 mA. *)
Theorem hasClosedLoop_iff_lit_or_current E c r :
  simulateCircuit E c = Returns r →
  hasClosedLoop r = true
  ↔ (0 < bulbsOnCount r)%nat
    ∨ (CURRENT_THRESHOLD <? totalCurrent r)%float = true.
Proof.
  intros [(-> & -> & ->) | (t & m & Ht & Hdc & ->)]%result_cases.
  - split; [done|]. intros [?|?]; [lia | done].
  - destruct (translate_result E c t Ht) as (Hh & Hn & _).
    destruct (interpret_fields c t m) as (-> & -> & ->).
    destruct (interpret_counts c t m Hh Hn) as [_ Hloop].
    rewrite orb_true_iff. by rewrite Hloop.
Qed.

Lemma hasClosedLoop_iff_lit_or_current_witness :
  let r := result_of (counting (λ _, DcSolved lamp_solution)) lamp in
  hasClosedLoop r = true
  ↔ (0 < bulbsOnCount r)%nat
    ∨ (CURRENT_THRESHOLD <? totalCurrent r)%float = true.
Proof.
  apply (hasClosedLoop_iff_lit_or_current
           (counting (λ _, DcSolved lamp_solution)) lamp).
  vm_compute. reflexivity.
Defined.

(** X14. On solver success [bulbsOnCount] is the number of bulb
    components whose entry in [bulbStates] is on. *)
Theorem bulbsOnCount_counts_lit_bulbs E c t m :
  translate E c = Returns (inr t) → dc E (t_ckt t) = DcSolved m →
  ∃ r, simulateCircuit E c = Returns r
       ∧ bulbsOnCount r
         = length (filter
                     (λ b, isOn <$> bulbStates r !! Component.id b = Some true)
                     (ofType Bulb (components c))).
Proof.
  intros Ht Hdc. exists (interpret c t m).
  split; [by apply simulateCircuit_solved|].
  destruct (translate_result E c t Ht) as (Hh & Hn & Hstates & _).
  destruct (interpret_fields c t m) as (_ & -> & _).
  destruct (interpret_counts c t m Hh Hn) as [-> _].
  rewrite interpret_bulbStates. f_equal. apply filter_ext_in. intros b Hb.
  destruct (decide (length (nodesOf (Component.id b) (nodes c)) = 2))
    as [Hlen|Hlen].
  - unfold bulbLit.
    destruct (nodesOf (Component.id b) (nodes c)) as [|n1 [|n2 [|n3 rest]]]
      eqn:Hnodes; try done.
    rewrite (interpretBulb_fold_lookup _ _ _ _ b n1 n2 _ Hb Hnodes). simpl.
    split; [by intros -> | by intros [= ->]].
  - rewrite interpretBulb_fold_untouched by done.
    destruct (readBatteryCurrent_fold m (ofType Battery (components c))
                (copyVoltages m (t_result t))) as (_ & _ & _ & Hs & _).
    simpl in Hs. rewrite Hs, Hstates, initBulbStates_lookup.
    rewrite decide_True by (apply list_elem_of_fmap; eauto).
    unfold bulbLit.
    destruct (nodesOf (Component.id b) (nodes c)) as [|n1 [|n2 [|n3 rest]]];
      done.
Qed.

Lemma bulbsOnCount_counts_lit_bulbs_witness :
  ∃ r, simulateCircuit (counting (λ _, DcSolved lamp_solution)) lamp = Returns r
       ∧ bulbsOnCount r
         = length (filter
                     (λ b, isOn <$> bulbStates r !! Component.id b = Some true)
                     (ofType Bulb (components lamp))).
Proof.
  apply (bulbsOnCount_counts_lit_bulbs
           (counting (λ _, DcSolved lamp_solution)) lamp
           (translation_of (counting (λ _, DcSolved lamp_solution)) lamp)
           lamp_solution).
  - vm_compute. reflexivity.
  - vm_compute. reflexivity.
Defined.

Lemma translate_inl_result E c r :
  translate E c = Returns (inl r) →
  ((nodes c = [] ∨ components c = []) ∧ r = emptyResult)
  ∨ r = initResult (components c).
Proof.
  unfold translate.
  destruct (nodes c) as [|n ns]; [intros [= <-]; left; split; [by left | done]|].
  destruct (components c) as [|cmp cs];
    [intros [= <-]; left; split; [by right | done]|].
  simpl.
  destruct (buildElectricalNets _ _) as [[uf n2n]|]; [|done]. simpl.
  destruct (assignNetNames _ _) as [[names g]|]; [|done]. simpl.
  destruct (falsy_string g); [intros [= <-]; by right|].
  destruct (createNodes _ _ _) as [[ckt0 n2i]| |]; [|done..]. simpl.
  destruct (addBatteries _ _ _ _ _ _ _) as [[ckt1 idxs]| |]; [|done..]. simpl.
  destruct (forEachM _ _ _) as [ckt2| |]; [|done..]. simpl.
  destruct (forEachM _ _ _) as [ckt3| |]; [|done..]. simpl. done.
Qed.

(** What reading [bulbStates[id]] gives, for every returned result. *)
Lemma bulbStates_reads_every_bulb E c r :
  simulateCircuit E c = Returns r →
  nodes c ≠ [] → components c ≠ [] →
  (∀ id, is_Some (bulbStates r !! id)
         ↔ id ∈ Component.id <$> ofType Bulb (components c))
  ∧ ∀ b, b ∈ ofType Bulb (components c) →
         length (nodesOf (Component.id b) (nodes c)) ≠ 2 →
         bulbStates r !! Component.id b = Some defaultBulbState.
Proof.
  intros Hsim Hns Hcs.
  assert ((∀ id, is_Some (initBulbStates (components c) !! id)
                 ↔ id ∈ Component.id <$> ofType Bulb (components c))
          ∧ ∀ b, b ∈ ofType Bulb (components c) →
                 initBulbStates (components c) !! Component.id b
                 = Some defaultBulbState) as [Hdom Hdef].
  { split.
    - intros id. rewrite initBulbStates_lookup.
      destruct (decide _); split; first [done | by intros [? ?] | eauto].
    - intros b Hb. rewrite initBulbStates_lookup.
      rewrite decide_True; [done|]. apply list_elem_of_fmap. eauto. }
  unfold simulateCircuit in Hsim.
  destruct (translate E c) as [[r0|t]| |] eqn:Ht; [| |done..]; simpl in Hsim;
    injection Hsim as <-.
  - destruct (translate_inl_result _ _ _ Ht) as [[[?|?] _] | ->]; [done..|].
    simpl. split; [done|]. intros b Hb _. by apply Hdef.
  - destruct (translate_result E c t Ht) as (_ & _ & Hstates & _).
    unfold solveAndInterpret.
    destruct (dc E (t_ckt t)) as [m| |]; simpl; rewrite ?Hstates;
      [|split; [done | by intros b Hb _; apply Hdef]..].
    rewrite interpret_bulbStates.
    destruct (readBatteryCurrent_fold m (ofType Battery (components c))
                (copyVoltages m (t_result t))) as (_ & _ & _ & Hs & _).
    simpl in Hs. split.
    + intros id. rewrite interpretBulb_fold_dom, Hs, Hstates, Hdom.
      split; [|by left]. intros [?|(b & Hb & <- & _)]; [done|].
      apply list_elem_of_fmap. eauto.
    + intros b Hb Hlen. rewrite interpretBulb_fold_untouched by done.
      rewrite Hs, Hstates. by apply Hdef.
Qed.

Lemma interpretBulb_fold_own_proto nets ns m bulbs : ∀ r,
  own (bulbStates r) !! "__proto__" = None →
  own (bulbStates (foldl (interpretBulb nets ns m) r bulbs)) !! "__proto__" = None.
Proof.
  induction bulbs as [|b bulbs IH]; intros r Hr; simpl; [done|].
  apply IH. unfold interpretBulb.
  destruct (nodesOf (Component.id b) ns) as [|n1 [|n2 [|n3 rest]]]; try done.
  destruct (isOn _); simpl; rewrite obj_own_insert;
    by rewrite decide_False by (intros [-> ?]; done).
Qed.

(** No write ever leaves an own property named ["__proto__"]. *)
Lemma bulbStates_own_proto_none E c r :
  simulateCircuit E c = Returns r → own (bulbStates r) !! "__proto__" = None.
Proof.
  intros Hsim.
  assert (own (initBulbStates (components c)) !! "__proto__" = None) as Hinit.
  { rewrite initBulbStates_own. by rewrite decide_False by (intros [_ ?]; done). }
  unfold simulateCircuit in Hsim.
  destruct (translate E c) as [[r0|t]| |] eqn:Ht; [| |done..]; simpl in Hsim;
    injection Hsim as <-.
  - destruct (translate_inl_result _ _ _ Ht) as [[_ ->] | ->]; [done|].
    exact Hinit.
  - destruct (translate_result E c t Ht) as (_ & _ & Hstates & _).
    unfold solveAndInterpret.
    destruct (dc E (t_ckt t)) as [m| |]; simpl; rewrite ?Hstates; [|done..].
    rewrite interpret_bulbStates. apply interpretBulb_fold_own_proto.
    destruct (readBatteryCurrent_fold m (ofType Battery (components c))
                (copyVoltages m (t_result t))) as (_ & _ & _ & Hs & _).
    simpl in Hs. by rewrite Hs, Hstates.
Qed.

(** X15. Whenever [simulateCircuit] returns for an input with at least
    one node and one component, whatever the solver did, the own
    properties of [bulbStates] are the ids of the bulb components other
    than ["__proto__"], and nothing else; a bulb whose id is
    ["__proto__"] gets no own property: its state becomes the prototype
    of [bulbStates], which no write sets otherwise.  A bulb that does
    not have exactly two terminals keeps the default state (as own
    property, or as prototype when its id is ["__proto__"]). *)
Theorem bulbStates_has_every_bulb E c r :
  simulateCircuit E c = Returns r →
  nodes c ≠ [] → components c ≠ [] →
  (∀ id, is_Some (own (bulbStates r) !! id)
         ↔ id ∈ Component.id <$> ofType Bulb (components c)
           ∧ id ≠ "__proto__")
  ∧ (is_Some (proto (bulbStates r))
     ↔ "__proto__" ∈ Component.id <$> ofType Bulb (components c))
  ∧ ∀ b, b ∈ ofType Bulb (components c) →
         length (nodesOf (Component.id b) (nodes c)) ≠ 2 →
         if decide (Component.id b = "__proto__")
         then proto (bulbStates r) = Some defaultBulbState
         else own (bulbStates r) !! Component.id b = Some defaultBulbState.
Proof.
  intros Hsim Hns Hcs.
  destruct (bulbStates_reads_every_bulb E c r Hsim Hns Hcs) as [Hdom Hdef].
  pose proof (bulbStates_own_proto_none E c r Hsim) as Hnone.
  split; [|split].
  - intros id. destruct (decide (id = "__proto__")) as [->|Hid].
    + rewrite Hnone. split; [by intros [? ?] | by intros [_ ?]].
    + rewrite <- obj_lookup_own by done. rewrite Hdom. tauto.
  - rewrite <- obj_lookup_proto. apply Hdom.
  - intros b Hb Hlen. specialize (Hdef b Hb Hlen).
    destruct (decide (Component.id b = "__proto__")) as [Heq|Hne].
    + rewrite Heq in Hdef. by rewrite <- obj_lookup_proto.
    + by rewrite <- obj_lookup_own.
Qed.

Lemma bulbStates_has_every_bulb_witness :
  is_Some (own (bulbStates
                  (result_of (counting (λ _, DcSolved lamp_solution)) lamp))
           !! "4")
  ∧ ∀ id, is_Some (own (bulbStates
                          (result_of (counting (λ _, DcSolved lamp_solution))
                             lamp))
                   !! id)
          ↔ id ∈ Component.id <$> ofType Bulb (components lamp)
            ∧ id ≠ "__proto__".
Proof.
  split; [vm_compute; eauto|].
  apply (bulbStates_has_every_bulb
           (counting (λ _, DcSolved lamp_solution)) lamp).
  - vm_compute. reflexivity.
  - done.
  - done.
Defined.

Lemma abs_not_negative (x : float) : (PrimFloat.abs x <? 0)%float = false.
Proof.
  rewrite ltb_spec, abs_spec.
  destruct (Prim2SF x) as [s|s| |s mx ex]; reflexivity.
Qed.

(** X16. In no result [simulateCircuit] returns is [totalCurrent]
    below zero, whatever sign the solver gave the branch currents. *)
Theorem totalCurrent_never_negative E c r :
  simulateCircuit E c = Returns r → (totalCurrent r <? 0)%float = false.
Proof.
  unfold simulateCircuit.
  destruct (translate E c) as [[r0|t]| |] eqn:Ht; [| |done..]; simpl;
    intros [= <-].
  - by destruct (translate_inl_result _ _ _ Ht) as [[_ ->] | ->].
  - destruct (translate_result E c t Ht) as (_ & _ & _ & _ & Hzero).
    unfold solveAndInterpret.
    destruct (dc E (t_ckt t)) as [m| |]; simpl; rewrite ?Hzero; [|done..].
    rewrite (interpret_totalCurrent c t m Hzero).
    destruct (last _); [apply abs_not_negative | done].
Qed.

Lemma totalCurrent_never_negative_witness :
  (totalCurrent (result_of (counting (λ _, DcSolved lamp_solution)) lamp) <? 0)%float
  = false.
Proof.
  apply (totalCurrent_never_negative (counting (λ _, DcSolved lamp_solution)) lamp).
  vm_compute. reflexivity.
Defined.

(** ** Further properties: brightness

    Facts about binary64 arithmetic, from its specification in the
    standard library: rounding a non-negative mantissa never gives NaN,
    and the order is total on numbers. *)

Lemma shr_1_nonneg mrs : (0 ≤ shr_m mrs)%Z → (0 ≤ shr_m (shr_1 mrs))%Z.
Proof.
  destruct mrs as [m r s]. simpl. destruct m as [|p|p]; [simpl; lia| |lia].
  intros _. destruct p; simpl; lia.
Qed.

Lemma iter_pos_shr_1_nonneg p : ∀ mrs,
  (0 ≤ shr_m mrs)%Z → (0 ≤ shr_m (SpecFloat.iter_pos shr_1 p mrs))%Z.
Proof.
  induction p as [p IH|p IH|]; simpl; intros mrs H.
  - apply IH, IH, shr_1_nonneg, H.
  - apply IH, IH, H.
  - apply shr_1_nonneg, H.
Qed.

Lemma shr_fexp_nonneg prec emax m e l :
  (0 ≤ m)%Z → (0 ≤ shr_m (shr_fexp prec emax m e l).1)%Z.
Proof.
  intros H. unfold shr_fexp, shr.
  assert (0 ≤ shr_m (shr_record_of_loc m l))%Z as H'.
  { by destruct l as [|[]]. }
  destruct (_ - e)%Z; simpl; [done| |done].
  by apply iter_pos_shr_1_nonneg.
Qed.

Lemma round_nearest_even_nonneg m l :
  (0 ≤ m)%Z → (0 ≤ round_nearest_even m l)%Z.
Proof.
  intros H. destruct l as [|[]]; simpl; try lia.
  destruct (IntDef.Z.even m); lia.
Qed.

Lemma binary_round_aux_not_nan prec emax sx mx ex lx :
  (0 ≤ mx)%Z → binary_round_aux prec emax sx mx ex lx ≠ S754_nan.
Proof.
  intros H. unfold binary_round_aux.
  pose proof (shr_fexp_nonneg prec emax mx ex lx H) as H1.
  destruct (shr_fexp prec emax mx ex lx) as [mrs' e']. simpl in H1.
  pose proof (shr_fexp_nonneg prec emax
                (round_nearest_even (shr_m mrs') (loc_of_shr_record mrs'))
                e' loc_Exact (round_nearest_even_nonneg _ _ H1)) as H2.
  destruct (shr_fexp prec emax _ e' loc_Exact) as [mrs'' e'']. simpl in H2.
  destruct (shr_m mrs''); [done| |lia].
  by destruct (_ <=? _)%Z.
Qed.

Lemma binary_normalize_not_nan prec emax m e szero :
  binary_normalize prec emax m e szero ≠ S754_nan.
Proof.
  unfold binary_normalize, binary_round.
  destruct m as [|p|p]; [done| |];
    destruct (shl_align _ _ _) as [mz ez];
    apply binary_round_aux_not_nan; lia.
Qed.

Lemma SFsub_finite_not_nan prec emax sx mx ex sy my ey :
  SFsub prec emax (S754_finite sx mx ex) (S754_finite sy my ey) ≠ S754_nan.
Proof. simpl. apply binary_normalize_not_nan. Qed.

Lemma SFdiv_finite_not_nan prec emax x sy my ey :
  x ≠ S754_nan → SFdiv prec emax x (S754_finite sy my ey) ≠ S754_nan.
Proof.
  intros Hx. destruct x as [sx|sx| |sx mx ex]; [done..|]. simpl.
  destruct (SFdiv_core_binary prec emax (Z.pos mx) ex (Z.pos my) ey)
    as [[mz ez] lz] eqn:Hcore.
  apply binary_round_aux_not_nan.
  unfold SFdiv_core_binary in Hcore.
  set (m' := match _ with 0%Z => Z.pos mx | Z.pos _ => _ | Z.neg _ => 0%Z end)
    in Hcore.
  assert (0 ≤ m')%Z as Hm'.
  { subst m'. destruct (_ - _ - _)%Z; [lia| |lia]. apply Z.shiftl_nonneg. lia. }
  pose proof (Z_div_mod m' (Z.pos my) eq_refl) as Hdiv.
  change IntDef.Z.div_eucl with Z.div_eucl in Hcore.
  destruct (Z.div_eucl m' (Z.pos my)) as [q r]. injection Hcore as <- _ _.
  nia.
Qed.

Lemma is_nan_false x : PrimFloat.is_nan x = false ↔ Prim2SF x ≠ S754_nan.
Proof.
  unfold PrimFloat.is_nan. rewrite FloatAxioms.eqb_spec. unfold SFeqb.
  destruct (Prim2SF x) as [s|s| |s m e]; simpl.
  - done.
  - by destruct s.
  - done.
  - rewrite Z.compare_refl, Pos.compare_cont_refl. by destruct s.
Qed.

Lemma ltb_leb x y : (x <? y)%float = true → (x <=? y)%float = true.
Proof.
  rewrite FloatAxioms.ltb_spec, FloatAxioms.leb_spec. unfold SFltb, SFleb.
  by destruct (SFcompare _ _) as [[]|].
Qed.

Lemma SFcompare_antisym x y :
  SFcompare y x = CompOpp <$> SFcompare x y.
Proof.
  destruct x as [sx|sx| |sx mx ex], y as [sy|sy| |sy my ey]; simpl;
    try done; try (by destruct sx); try (by destruct sy);
    try (by destruct sx, sy).
  destruct sx, sy; simpl; try done.
  - rewrite (Z.compare_antisym ex ey). destruct (ex ?= ey)%Z; simpl; try done.
    f_equal. f_equal. apply ZC4.
  - rewrite (Z.compare_antisym ex ey). destruct (ex ?= ey)%Z; simpl; try done.
    f_equal. apply ZC4.
Qed.

Lemma not_ltb_leb x y :
  PrimFloat.is_nan x = false → PrimFloat.is_nan y = false →
  (y <? x)%float = false → (x <=? y)%float = true.
Proof.
  rewrite !is_nan_false, FloatAxioms.ltb_spec, FloatAxioms.leb_spec. unfold SFltb, SFleb.
  rewrite (SFcompare_antisym (Prim2SF x) (Prim2SF y)).
  destruct (SFcompare (Prim2SF x) (Prim2SF y)) as [[]|] eqn:Hc; simpl; try done.
  intros Hx Hy _. exfalso.
  destruct (Prim2SF x) as [sx|sx| |sx mx ex], (Prim2SF y) as [sy|sy| |sy my ey];
    simpl in Hc; done.
Qed.

Lemma Math_min_le_2 (x : float) :
  PrimFloat.is_nan x = false →
  PrimFloat.is_nan (Math_min x 2) = false ∧ (Math_min x 2 <=? 2)%float = true.
Proof.
  intros Hx. unfold Math_min. rewrite Hx.
  change (PrimFloat.is_nan 2) with false. simpl.
  destruct (x <? 2)%float eqn:Hlt; [split; [done | by apply ltb_leb]|].
  destruct (2 <? x)%float eqn:Hgt; [done|].
  destruct (PrimFloat.get_sign x); [|done].
  split; [done | by apply not_ltb_leb].
Qed.

Lemma Math_max_0_range (y : float) :
  PrimFloat.is_nan y = false → (y <=? 2)%float = true →
  (0 <=? Math_max 0 y)%float = true ∧ (Math_max 0 y <=? 2)%float = true.
Proof.
  intros Hy Hle. unfold Math_max. rewrite Hy.
  change (PrimFloat.is_nan 0) with false. simpl.
  destruct (0 <? y)%float eqn:Hlt; [split; [by apply ltb_leb | done]|].
  destruct (y <? 0)%float eqn:Hgt; [done|].
  destruct (PrimFloat.get_sign 0); [|done].
  split; [by apply not_ltb_leb | done].
Qed.

(** The brightness of a computed state is a number from 0 to 2. *)
Lemma computeBulbState_brightness (v1 v2 : float) :
  ∃ b, brightness (computeBulbState v1 v2) = Some b
       ∧ (0 <=? b)%float = true ∧ (b <=? 2)%float = true.
Proof.
  unfold computeBulbState. simpl.
  set (cur := (PrimFloat.abs (v1 - v2) / BULB_RESISTANCE)%float).
  destruct (negb (BURNOUT_CURRENT <? cur)%float
            && (CURRENT_THRESHOLD <? cur)%float) eqn:Hon;
    [|by exists 0%float].
  apply andb_true_iff in Hon as [Hburn Hthr].
  apply negb_true_iff in Hburn.
  eexists. split; [done|].
  assert (∃ m e, Prim2SF cur = S754_finite false m e) as (m & e & Hcur).
  { rewrite FloatAxioms.ltb_spec in Hburn, Hthr.
    assert (∃ m0 e0, Prim2SF CURRENT_THRESHOLD = S754_finite false m0 e0)
      as (m0 & e0 & H0) by (do 2 eexists; vm_compute; reflexivity).
    assert (∃ m1 e1, Prim2SF BURNOUT_CURRENT = S754_finite false m1 e1)
      as (m1 & e1 & H1) by (do 2 eexists; vm_compute; reflexivity).
    rewrite H0 in Hthr. rewrite H1 in Hburn. unfold SFltb in Hthr, Hburn.
    destruct (Prim2SF cur) as [s|s| |s m e]; simpl in Hthr, Hburn; try done.
    - by destruct s.
    - destruct s; [done|]. eauto. }
  assert (PrimFloat.is_nan
            ((cur - CURRENT_THRESHOLD) / (NORMAL_CURRENT - CURRENT_THRESHOLD))%float
          = false) as Hx.
  { apply is_nan_false. rewrite div_spec, sub_spec, Hcur.
    assert (∃ s0 m0 e0, Prim2SF CURRENT_THRESHOLD = S754_finite s0 m0 e0)
      as (s0 & m0 & e0 & ->) by (do 3 eexists; vm_compute; reflexivity).
    assert (∃ s1 m1 e1, Prim2SF (NORMAL_CURRENT - CURRENT_THRESHOLD)%float
                        = S754_finite s1 m1 e1)
      as (s1 & m1 & e1 & ->) by (do 3 eexists; vm_compute; reflexivity).
    apply SFdiv_finite_not_nan, SFsub_finite_not_nan. }
  destruct (Math_min_le_2 _ Hx) as [Hy Hle].
  by apply Math_max_0_range.
Qed.

Lemma interpretBulb_fold_entries nets ns m bulbs : ∀ r,
  let r' := foldl (interpretBulb nets ns m) r bulbs in
  ∀ id st, bulbStates r' !! id = Some st →
    bulbStates r !! id = Some st ∨ ∃ v1 v2, st = computeBulbState v1 v2.
Proof.
  induction bulbs as [|b bulbs IH]; intros r; simpl; [by left|].
  intros id st Hst. destruct (IH _ id st Hst) as [Hold|?]; [|by right].
  unfold interpretBulb in Hold.
  destruct (nodesOf (Component.id b) ns) as [|n1 [|n2 [|n3 rest]]];
    try (by left).
  assert (∀ s, <[Component.id b := s]> (bulbStates r) !! id = Some st →
               bulbStates r !! id = Some st ∨ st = s) as Hins.
  { intros s. destruct (decide (Component.id b = id)) as [->|Hne].
    - rewrite obj_lookup_insert_eq. intros [= <-]. by right.
    - rewrite obj_lookup_insert_ne by done. by left. }
  destruct (isOn _); simpl in Hold; apply Hins in Hold as [?| ->];
    first [by left | right; eauto].
Qed.

(** X17. In every result [simulateCircuit] returns, an entry of
    [bulbStates] is either the default state (which has no brightness)
    or has a brightness that is a number from 0 to 2, never NaN,
    whatever voltages the solver reported. *)
Theorem brightness_is_between_0_and_2 E c r id st :
  simulateCircuit E c = Returns r →
  bulbStates r !! id = Some st →
  st = defaultBulbState
  ∨ ∃ b, brightness st = Some b
         ∧ (0 <=? b)%float = true ∧ (b <=? 2)%float = true.
Proof.
  intros Hsim Hst.
  assert (∀ cs, initBulbStates cs !! id = Some st → st = defaultBulbState)
    as Hinit.
  { intros cs. rewrite initBulbStates_lookup. destruct (decide _); [|done].
    by intros [= <-]. }
  unfold simulateCircuit in Hsim.
  destruct (translate E c) as [[r0|t]| |] eqn:Ht; [| |done..]; simpl in Hsim;
    injection Hsim as <-.
  - left.
    destruct (translate_inl_result _ _ _ Ht) as [[_ ->] | ->];
      [simpl in Hst; by rewrite obj_lookup_empty in Hst
      | by apply (Hinit (components c))].
  - destruct (translate_result E c t Ht) as (_ & _ & Hstates & _).
    unfold solveAndInterpret in Hst.
    destruct (dc E (t_ckt t)) as [m| |]; simpl in Hst;
      [|left; rewrite Hstates in Hst; by apply (Hinit (components c))..].
    rewrite interpret_bulbStates in Hst.
    apply interpretBulb_fold_entries in Hst as [Hst|(v1 & v2 & ->)].
    + left.
      destruct (readBatteryCurrent_fold m (ofType Battery (components c))
                  (copyVoltages m (t_result t))) as (_ & _ & _ & Hs & _).
      simpl in Hs. rewrite Hs, Hstates in Hst. by apply (Hinit (components c)).
    + right. apply computeBulbState_brightness.
Qed.

Lemma brightness_is_between_0_and_2_witness :
  ∃ st, bulbStates (result_of (counting (λ _, DcSolved lamp_solution)) lamp)
        !! "4" = Some st
        ∧ (st = defaultBulbState
           ∨ ∃ b, brightness st = Some b
                  ∧ (0 <=? b)%float = true ∧ (b <=? 2)%float = true).
Proof.
  eexists. split; [vm_compute; reflexivity|].
  apply (brightness_is_between_0_and_2
           (counting (λ _, DcSolved lamp_solution)) lamp
           (result_of (counting (λ _, DcSolved lamp_solution)) lamp) "4").
  - vm_compute. reflexivity.
  - vm_compute. reflexivity.
Defined.

(** ** Further properties: when [simulateCircuit] returns *)

(** X18. For every input, if the solver library raises no exception
    while nodes and elements are handed to it, [simulateCircuit]
    returns a result: no lookup of its own fails, the recursion of
    [find] ends, and whatever the DC analysis does (a solution,
    [undefined] or an exception) is turned into a result. *)
Theorem simulateCircuit_returns_when_builder_quiet E c :
  quiet E → ∃ r, simulateCircuit E c = Returns r.
Proof.
  intros Hq. unfold simulateCircuit.
  assert (∃ tr, translate E c = Returns tr) as [tr ->].
  { unfold translate. destruct (_ || _); [eauto|].
    destruct (buildElectricalNets_spec (nodes c) (connections c))
      as (uf & n2n & -> & Hrep). simpl.
    destruct (assignNetNames_total uf (nodes c) (proj1 Hrep))
      as (names & g & -> & _). simpl.
    destruct (falsy_string g); [eauto|].
    destruct (createNodes_quiet E names (ckt_new, [("gnd", gnd_node E)]) Hq)
      as [[ckt0 n2i] ->]. simpl.
    destruct (addBatteries_quiet E (mkNets n2n names n2i)
                (getShortedBatteryIds (components c) (nodes c) n2n) (nodes c)
                (ofType Battery (components c)) 0
                (ckt0, []) Hq)
      as [[ckt1 indices] ->]. simpl.
    destruct (forEachM_total (addBulb E (mkNets n2n names n2i) (nodes c))
                (ofType Bulb (components c)) ckt1) as [ckt2 ->].
    { intros. by apply addBulb_quiet. }
    simpl.
    destruct (forEachM_total (addPot E (mkNets n2n names n2i) (nodes c))
                (ofType Potentiometer (components c)) ckt2) as [ckt3 ->].
    { intros. by apply addPot_quiet. }
    simpl. eauto. }
  simpl. destruct tr; eauto.
Qed.

Lemma simulateCircuit_returns_when_builder_quiet_witness :
  ∃ r, simulateCircuit (counting (λ _, DcThrows)) lamp = Returns r.
Proof.
  apply (simulateCircuit_returns_when_builder_quiet (counting (λ _, DcThrows)) lamp).
  intros ckt call. reflexivity.
Defined.

(** ** Further properties: the status bar *)

(** X19. Whatever simulation result it is given ([bulbsOnCount] being
    a natural number), also none at all, [StatusBar] never shows the
    message it starts from (["Place a battery and a bulb, ..."]): one
    of the four branches always replaces it. *)
Theorem placeholder_message_never_shown (simulation : option SimulationResult) :
  (statusMessage simulation).2 ≠ PLACEHOLDER_MESSAGE.
Proof.
  unfold statusMessage.
  destruct simulation as [r|]; simpl; [|discriminate].
  destruct (batteryIndices r) as [|i [|j l]]; simpl; [|discriminate..].
  destruct (bulbsOnCount r) as [|n]; simpl.
  - destruct (hasClosedLoop r); simpl; discriminate.
  - destruct (hasClosedLoop r); simpl; discriminate.
Qed.

(** X20. The message type [StatusBar] shows for a result of
    [simulateCircuit]: an error when a battery is flagged; otherwise
    success when a bulb is counted as on (the closed-loop flag is then
    set, so testing it changes nothing); otherwise a warning when the
    total current exceeds 1 mA; otherwise the open-circuit message. *)
Theorem status_of_a_simulation E c r :
  simulateCircuit E c = Returns r →
  statusMessage (Some r)
  = if Nat.ltb 0 (length (batteryIndices r)) then
      (msg_error, (statusMessage (Some r)).2)
    else if Nat.ltb 0 (bulbsOnCount r) then
      (msg_success, "Nice! You built a complete circuit and lit the bulb.")
    else if (CURRENT_THRESHOLD <? totalCurrent r)%float then
      (msg_warning,
       "You have a loop, but no bulb in the current path yet. Try wiring through a bulb.")
    else
      (msg_info,
       "Circuit is open. Make sure both sides of the battery are connected.").
Proof.
  intros Hsim.
  assert (hasClosedLoop r
          = Nat.ltb 0 (bulbsOnCount r)
            || (CURRENT_THRESHOLD <? totalCurrent r)%float) as Hloop.
  { apply result_cases in Hsim as [(-> & -> & ->) | (t & m & Ht & Hdc & ->)];
      [done|].
    destruct (translate_result E c t Ht) as (Hh & Hn & _).
    destruct (interpret_fields c t m) as (-> & -> & ->).
    destruct (interpret_counts c t m Hh Hn) as [_ Hiff].
    f_equal. apply eq_true_iff_eq. rewrite Hiff. symmetry. apply Nat.ltb_lt. }
  unfold statusMessage. simpl.
  destruct (Nat.ltb 0 (length (batteryIndices r))); [done|].
  rewrite Hloop.
  destruct (bulbsOnCount r) as [|n]; simpl; [|done].
  by destruct (CURRENT_THRESHOLD <? totalCurrent r)%float.
Qed.

Lemma status_of_a_simulation_witness :
  let r := result_of (counting (λ _, DcSolved lamp_solution)) lamp in
  statusMessage (Some r)
  = if Nat.ltb 0 (length (batteryIndices r)) then
      (msg_error, (statusMessage (Some r)).2)
    else if Nat.ltb 0 (bulbsOnCount r) then
      (msg_success, "Nice! You built a complete circuit and lit the bulb.")
    else if (CURRENT_THRESHOLD <? totalCurrent r)%float then
      (msg_warning,
       "You have a loop, but no bulb in the current path yet. Try wiring through a bulb.")
    else
      (msg_info,
       "Circuit is open. Make sure both sides of the battery are connected.").
Proof.
  apply (status_of_a_simulation (counting (λ _, DcSolved lamp_solution)) lamp).
  vm_compute. reflexivity.
Defined.

(** ** Further properties: the editor

    Ids made by [makeId] are decimals, so none is empty. *)

Lemma pretty_N_go_length (x : N) : ∀ s,
  (String.length s ≤ String.length (pretty_N_go x s))%nat.
Proof.
  induction (N.lt_wf_0 x) as [x _ IH]; intros s.
  destruct (decide (x = 0)%N) as [->|Hx]; [by rewrite pretty_N_go_0|].
  rewrite pretty_N_go_step by lia.
  etrans; [|apply IH, N.div_lt; lia]. simpl. lia.
Qed.

Lemma pretty_N_nonempty (k : N) : pretty k ≠ "".
Proof.
  unfold pretty, pretty_N. destruct (decide (k = 0)%N) as [->|Hk]; [done|].
  rewrite pretty_N_go_step by lia. intros H.
  pose proof (pretty_N_go_length (k `div` 10)%N
                (String (pretty_N_char (k `mod` 10)%N) "")) as Hlen.
  rewrite H in Hlen. simpl in Hlen. lia.
Qed.

Lemma filter_fmap {A B} (f : A → B) (P : B → Prop) `{∀ x, Decision (P x)}
  (l : list A) :
  filter P (f <$> l) = f <$> filter (λ x, P (f x)) l.
Proof.
  induction l as [|a l IH]; [done|].
  rewrite fmap_cons, !filter_cons, IH. by destruct (decide (P (f a))).
Qed.

Lemma filter_terminals (P : string → Prop) `{∀ x, Decision (P x)}
  (cs : list App.Component.t) :
  filter (λ p : string * option Role, P p.1) (cs ≫= terminals_of)
  = filter (λ c, P (App.Component.id c)) cs ≫= terminals_of.
Proof.
  induction cs as [|c cs IH]; [done|].
  change ((c :: cs) ≫= terminals_of) with (terminals_of c ++ (cs ≫= terminals_of)).
  rewrite filter_app, IH, filter_cons. unfold terminals_of at 1.
  rewrite !filter_cons, filter_nil. simpl.
  destruct (decide (P (App.Component.id c))); [|done].
  by change ((c :: filter (λ c0, P (App.Component.id c0)) cs) ≫= terminals_of)
    with (terminals_of c ++ (filter (λ c0, P (App.Component.id c0)) cs
                               ≫= terminals_of)).
Qed.

(** The ids of a state, kind by kind. *)
Lemma elem_of_all_ids s id :
  id ∈ App.all_ids s
  ↔ id ∈ App.Component.id <$> App.components s
    ∨ id ∈ App.Node.id <$> App.nodes s
    ∨ id ∈ App.Connection.id <$> App.connections s.
Proof. unfold App.all_ids. by rewrite !elem_of_app. Qed.

Lemma well_formed_initial : well_formed App.initialEditor.
Proof.
  split; simpl.
  - lia.
  - intros id Hid. by apply elem_of_nil in Hid.
  - constructor.
  - done.
  - intros c Hc. by apply elem_of_nil in Hc.
  - intros w Hw. by apply elem_of_nil in Hw.
  - done.
Qed.

Lemma makeId_exact (n : N) :
  (n < 2 ^ 53)%N → App.makeId n = (pretty n, (n + 1)%N).
Proof.
  intros Hn. unfold App.makeId.
  by destruct (N.ltb_spec n (2 ^ 53)%N); [|lia].
Qed.

Lemma NoDup_three_more (l1 l2 l3 : list string) a b c :
  NoDup (l1 ++ l2 ++ l3) →
  a ∉ l1 ++ l2 ++ l3 → b ∉ l1 ++ l2 ++ l3 → c ∉ l1 ++ l2 ++ l3 →
  a ≠ b → a ≠ c → b ≠ c →
  NoDup ((l1 ++ [a]) ++ (l2 ++ [b; c]) ++ l3).
Proof.
  intros Hnd Ha Hb Hc Hab Hac Hbc.
  assert ((l1 ++ [a]) ++ (l2 ++ [b; c]) ++ l3 ≡ₚ a :: b :: c :: l1 ++ l2 ++ l3)
    as ->.
  { rewrite <- !(assoc_L (++)). simpl.
    rewrite <- (Permutation_middle l1 _ a). constructor.
    rewrite (assoc_L (++) l1 l2). rewrite <- (Permutation_middle (l1 ++ l2) _ b).
    constructor. rewrite <- (Permutation_middle (l1 ++ l2) _ c).
    by rewrite <- (assoc_L (++)). }
  repeat constructor; [| |done..].
  - rewrite !elem_of_cons. intros [?|[?|?]]; done.
  - rewrite elem_of_cons. intros [?|?]; done.
Qed.

Lemma PLACE_well_formed n s type x y :
  well_formed (App.mkEditor n s) →
  type ∈ ["battery"; "bulb"; "potentiometer"] → (n + 2 < 2 ^ 53)%N →
  well_formed
    (App.mkEditor (n + 3)
       (App.circuitReducer s
          (App.PLACE_COMPONENT type x y (pretty n) (pretty (n + 1)%N)
             (pretty (n + 2)%N)))).
Proof.
  intros [Hcount Hfresh Hnodup Hterm Hparts Hwires Hpending] Htype Hbound.
  simpl in *.
  assert (∀ k : N, (n ≤ k)%N → pretty k ∉ App.all_ids s) as Hnew.
  { intros k Hk Hin. apply Hfresh in Hin as (k' & Heq & Hk').
    apply (inj pretty) in Heq. lia. }
  set (c := if decide (type = "potentiometer")
            then App.Component.mk (pretty n) type x y (Some 500%float)
            else App.Component.mk (pretty n) type x y None).
  assert (App.Component.id c = pretty n ∧ App.Component.type c = type)
    as [Hcid Hctype] by (subst c; by destruct (decide _)).
  split; simpl; fold c.
  - lia.
  - intros id. rewrite elem_of_all_ids. simpl. rewrite !fmap_app. simpl.
    rewrite !elem_of_app, Hcid.
    intros [[Hid| ->%list_elem_of_singleton]|[[Hid|Hid]|Hid]].
    + destruct (Hfresh id) as (k & -> & Hk);
        [apply elem_of_all_ids; by left|]. exists k. split; [done | lia].
    + exists n. split; [done | lia].
    + destruct (Hfresh id) as (k & -> & Hk);
        [apply elem_of_all_ids; right; by left|]. exists k. split; [done | lia].
    + apply elem_of_two in Hid as [-> | ->]; eexists; (split; [done | lia]).
    + destruct (Hfresh id) as (k & -> & Hk);
        [apply elem_of_all_ids; right; by right|]. exists k. split; [done | lia].
  - unfold App.all_ids. simpl. rewrite !fmap_app. simpl. rewrite Hcid.
    apply NoDup_three_more; try done.
    + apply Hnew. lia.
    + apply Hnew. lia.
    + apply Hnew. lia.
    + intros H%(inj pretty). lia.
    + intros H%(inj pretty). lia.
    + intros H%(inj pretty). lia.
  - rewrite fmap_app, bind_app, Hterm. f_equal. simpl.
    unfold terminals_of. by rewrite Hcid, Hctype.
  - intros c' [Hc'| ->%list_elem_of_singleton]%elem_of_app; [by apply Hparts|].
    rewrite Hctype. split; [done|]. intros ->. subst c. simpl.
    exists 500%float. split; [done|]. unfold App.presets. do 2 right. left.
  - intros w Hw. destruct (Hwires w Hw) as (a & Ha & Hin & Hto & Hne).
    exists a. rewrite fmap_app, !elem_of_app. split; [done|].
    split; [by left|]. split; [by left | done].
  - intros m Hm. rewrite fmap_app, elem_of_app. left. by apply Hpending.
Qed.

Lemma all_ids_sublist s s' :
  App.components s' `sublist_of` App.components s →
  App.nodes s' `sublist_of` App.nodes s →
  App.connections s' `sublist_of` App.connections s →
  App.all_ids s' `sublist_of` App.all_ids s.
Proof.
  intros Hc Hn Hw. unfold App.all_ids.
  repeat apply sublist_app; by apply fmap_sublist.
Qed.

Lemma node_survives (ns : list App.Node.t) X a :
  a ∈ App.Node.id <$> ns →
  a ∉ App.Node.id <$> filter (λ n, App.Node.componentId n = X) ns →
  a ∈ App.Node.id <$> filter (λ n, App.Node.componentId n ≠ X) ns.
Proof.
  intros (m & -> & Hm)%list_elem_of_fmap Hout.
  apply list_elem_of_fmap. exists m. split; [done|].
  apply list_elem_of_filter. split; [|done]. intros Hx. apply Hout.
  apply list_elem_of_fmap. exists m. split; [done|].
  by apply list_elem_of_filter.
Qed.

Lemma DELETE_COMPONENT_well_formed n s X :
  well_formed (App.mkEditor n s) →
  well_formed (App.mkEditor n (App.circuitReducer s (App.DELETE_COMPONENT X))).
Proof.
  intros [Hcount Hfresh Hnodup Hterm Hparts Hwires Hpending]. simpl in *.
  set (s' := App.circuitReducer s (App.DELETE_COMPONENT X)).
  assert (App.all_ids s' `sublist_of` App.all_ids s) as Hsub.
  { apply all_ids_sublist; apply sublist_filter. }
  split; simpl.
  - done.
  - intros id Hid. apply Hfresh. by eapply elem_of_sublist.
  - by eapply sublist_NoDup.
  - etrans;
      [|exact (@filter_terminals (λ i, i ≠ X) (λ i, decide (i ≠ X))
                 (App.components s))].
    rewrite <- Hterm. symmetry.
    exact (@filter_fmap _ _
             (λ n, (App.Node.componentId n, App.Node.role n))
             (λ p : string * option Role, p.1 ≠ X)
             (λ p, decide (p.1 ≠ X)) (App.nodes s)).
  - intros c [_ Hc]%list_elem_of_filter. by apply Hparts.
  - intros w [Hkeep Hw]%list_elem_of_filter.
    destruct (Hwires w Hw) as (a & Ha & Hin & Hto & Hne).
    rewrite Ha in Hkeep. simpl in Hkeep.
    apply andb_true_iff in Hkeep as [H1 H2].
    apply negb_true_iff, bool_decide_eq_false in H1, H2.
    exists a. split; [done|].
    split; [by apply node_survives|]. split; [by apply node_survives | done].
  - intros m. destruct (App.pendingWireStartNodeId s) as [p|] eqn:Hp; [|done].
    simpl. specialize (Hpending p eq_refl).
    assert (p ≠ "") as Hne.
    { destruct (Hfresh p) as (k & -> & _);
        [apply elem_of_all_ids; right; by left | apply pretty_N_nonempty]. }
    rewrite bool_decide_eq_false_2 by done. simpl.
    case_bool_decide as Hin; [done|]. intros [= <-]. by apply node_survives.
Qed.

(** A state with the same ids, types, roles and wires is well-formed
    as well. *)
Lemma well_formed_ext n s s' :
  well_formed (App.mkEditor n s) →
  App.Component.id <$> App.components s' = App.Component.id <$> App.components s →
  App.components s' ≫= terminals_of = App.components s ≫= terminals_of →
  (∀ c, c ∈ App.components s' →
     App.Component.type c ∈ ["battery"; "bulb"; "potentiometer"]
     ∧ (App.Component.type c = "potentiometer" →
        ∃ p, App.Component.resistance c = Some p ∧ p ∈ App.presets)) →
  App.Node.id <$> App.nodes s' = App.Node.id <$> App.nodes s →
  (λ n, (App.Node.componentId n, App.Node.role n)) <$> App.nodes s'
  = (λ n, (App.Node.componentId n, App.Node.role n)) <$> App.nodes s →
  App.connections s' = App.connections s →
  (∀ m, App.pendingWireStartNodeId s' = Some m →
        m ∈ App.Node.id <$> App.nodes s) →
  well_formed (App.mkEditor n s').
Proof.
  intros [Hcount Hfresh Hnodup Hterm Hparts Hwires Hpending]
    Hcids Hterms Hparts' Hnids Hroles Hconns Hpending'.
  simpl in *.
  assert (App.all_ids s' = App.all_ids s) as Hids.
  { unfold App.all_ids. by rewrite Hcids, Hnids, Hconns. }
  split; simpl; rewrite ?Hids, ?Hnids, ?Hconns; try done.
  by rewrite Hroles, Hterms.
Qed.

Lemma fmap_ext_id {A B} (f : A → B) (g : A → A) (l : list A) :
  (∀ a, f (g a) = f a) → f <$> (g <$> l) = f <$> l.
Proof.
  intros H. rewrite <- list_fmap_compose. apply list_fmap_ext.
  intros i a _. apply H.
Qed.

Lemma bind_ext_id {A B} (f : A → list B) (g : A → A) (l : list A) :
  (∀ a, f (g a) = f a) → (g <$> l) ≫= f = l ≫= f.
Proof.
  intros H. induction l as [|a l IH]; [done|].
  rewrite fmap_cons, !bind_cons, H. by rewrite IH.
Qed.

Lemma MOVE_COMPONENT_well_formed n s X newX newY :
  well_formed (App.mkEditor n s) →
  well_formed
    (App.mkEditor n (App.circuitReducer s (App.MOVE_COMPONENT X newX newY))).
Proof.
  intros Hwf. simpl.
  destruct (List.find _ (App.components s)) as [component|]; [|done].
  set (f := λ c, if decide (App.Component.id c = X)
                 then App.Component.mk (App.Component.id c)
                        (App.Component.type c) newX newY
                        (App.Component.resistance c)
                 else c).
  assert (∀ c, App.Component.id (f c) = App.Component.id c
               ∧ App.Component.type (f c) = App.Component.type c
               ∧ App.Component.resistance (f c) = App.Component.resistance c)
    as Hf.
  { intros c. unfold f. by destruct (decide _). }
  set (newNodes := match filter _ (App.nodes s) with
                   | [a; b] => _
                   | _ => App.nodes s
                   end).
  assert (∃ g, newNodes = g <$> App.nodes s
               ∧ ∀ m, App.Node.id (g m) = App.Node.id m
                      ∧ App.Node.componentId (g m) = App.Node.componentId m
                      ∧ App.Node.role (g m) = App.Node.role m)
    as (g & -> & Hg).
  { subst newNodes.
    destruct (filter _ (App.nodes s)) as [|a [|b [|? ?]]];
      try (exists id; split; [by rewrite list_fmap_id | done]).
    eexists. split; [done|]. intros m. simpl.
    destruct (decide _); [done|]. by destruct (decide _). }
  apply (well_formed_ext n s); simpl; try done.
  - apply fmap_ext_id. intros c. apply Hf.
  - apply bind_ext_id. intros c. unfold terminals_of.
    destruct (Hf c) as (-> & -> & _). done.
  - intros c' (c & -> & Hc)%list_elem_of_fmap.
    destruct (Hf c) as (_ & -> & ->). by apply (wf_parts _ Hwf).
  - apply fmap_ext_id. intros m. apply Hg.
  - apply fmap_ext_id. intros m. destruct (Hg m) as (_ & -> & ->). done.
  - apply (wf_pending _ Hwf).
Qed.

Lemma next_preset (r : option float) :
  ∃ p, App.presets !! App.nextIdx (App.indexOf App.presets r) = Some p
       ∧ p ∈ App.presets.
Proof.
  assert (App.nextIdx (App.indexOf App.presets r) < length App.presets)%nat
    as Hlt.
  { unfold App.nextIdx. destruct (App.indexOf _ _); [|simpl; lia].
    apply Nat.mod_upper_bound. discriminate. }
  apply lookup_lt_is_Some in Hlt as [p Hp]. exists p. split; [done|].
  by eapply list_elem_of_lookup_2.
Qed.

Lemma ADJUST_RESISTANCE_well_formed n s X :
  well_formed (App.mkEditor n s) →
  well_formed (App.mkEditor n (App.circuitReducer s (App.ADJUST_RESISTANCE X))).
Proof.
  intros Hwf.
  assert (∀ c, App.Component.id (App.adjust X c) = App.Component.id c
               ∧ App.Component.type (App.adjust X c) = App.Component.type c)
    as Hf.
  { intros c. unfold App.adjust. by destruct (decide _). }
  apply (well_formed_ext n s); simpl; try done.
  - apply fmap_ext_id. intros c. apply Hf.
  - apply bind_ext_id. intros c. unfold terminals_of.
    destruct (Hf c) as (-> & ->). done.
  - intros c' (c & -> & Hc)%list_elem_of_fmap.
    destruct (Hf c) as (_ & ->).
    destruct (wf_parts _ Hwf c Hc) as [Hty Hres]. split; [done|].
    intros Hpot. unfold App.adjust. destruct (decide _); [|by apply Hres].
    simpl. apply next_preset.
  - apply (wf_pending _ Hwf).
Qed.

Lemma DELETE_WIRE_well_formed n s X :
  well_formed (App.mkEditor n s) →
  well_formed (App.mkEditor n (App.circuitReducer s (App.DELETE_WIRE X))).
Proof.
  intros [Hcount Hfresh Hnodup Hterm Hparts Hwires Hpending]. simpl in *.
  set (s' := App.circuitReducer s (App.DELETE_WIRE X)).
  assert (App.all_ids s' `sublist_of` App.all_ids s) as Hsub.
  { apply all_ids_sublist; simpl; [done..|apply sublist_filter]. }
  split; simpl; try done.
  - intros id Hid. apply Hfresh. by eapply elem_of_sublist.
  - by eapply sublist_NoDup.
  - intros w [_ Hw]%list_elem_of_filter. by apply Hwires.
Qed.

Lemma COMPLETE_WIRE_well_formed n s a b :
  well_formed (App.mkEditor n s) → (n < 2 ^ 53)%N →
  App.pendingWireStartNodeId s = Some a → a ≠ b →
  b ∈ App.Node.id <$> App.nodes s →
  well_formed
    (App.mkEditor (n + 1)
       (App.circuitReducer s (App.COMPLETE_WIRE (pretty n) b))).
Proof.
  intros [Hcount Hfresh Hnodup Hterm Hparts Hwires Hpending] Hn Ha Hab Hb.
  simpl in Hcount, Hfresh, Hnodup, Hterm, Hparts, Hwires, Hpending.
  assert (App.all_ids (App.circuitReducer s (App.COMPLETE_WIRE (pretty n) b))
          = App.all_ids s ++ [pretty n]) as Hids.
  { unfold App.all_ids. simpl. by rewrite fmap_app, !(assoc_L (++)). }
  split; cbn [App.nextId App.state]; rewrite ?Hids; simpl; try done.
  - lia.
  - intros id [Hid| ->%list_elem_of_singleton]%elem_of_app.
    + destruct (Hfresh id Hid) as (k & -> & Hk). exists k. split; [done | lia].
    + exists n. split; [done | lia].
  - apply NoDup_app. split; [done|]. split; [|apply NoDup_singleton].
    intros id Hid ->%list_elem_of_singleton.
    destruct (Hfresh _ Hid) as (k & Hk%(inj pretty) & Hlt). lia.
  - intros w [Hw| ->%list_elem_of_singleton]%elem_of_app; [by apply Hwires|].
    simpl. exists a. split; [done|]. split; [by apply Hpending | done].
Qed.

Lemma handle_well_formed e ev :
  well_formed e → App.valid e ev = true → well_formed (App.handle e ev).
Proof.
  destruct e as [n s]. intros Hwf Hvalid.
  assert (∀ s', App.components s' = App.components s →
                App.nodes s' = App.nodes s →
                App.connections s' = App.connections s →
                (∀ m, App.pendingWireStartNodeId s' = Some m →
                      m ∈ App.Node.id <$> App.nodes s) →
                well_formed (App.mkEditor n s')) as Hsame.
  { intros s' Hc Hn Hw Hp.
    apply (well_formed_ext n s); rewrite ?Hc, ?Hn, ?Hw; try done.
    apply (wf_parts _ Hwf). }
  pose proof (wf_pending _ Hwf) as Hpending. simpl in Hpending.
  destruct ev; unfold App.handle; cbn [App.nextId App.state].
  - simpl in Hvalid. apply andb_true_iff in Hvalid as [Htype Hbound].
    apply bool_decide_eq_true in Htype. apply N.ltb_lt in Hbound.
    rewrite (makeId_exact n) by lia.
    rewrite (makeId_exact (n + 1)) by lia.
    rewrite (makeId_exact (n + 1 + 1)) by lia.
    replace (n + 1 + 1 + 1)%N with (n + 3)%N by lia.
    replace (n + 1 + 1)%N with (n + 2)%N by lia.
    by apply PLACE_well_formed.
  - by apply ADJUST_RESISTANCE_well_formed.
  - by apply MOVE_COMPONENT_well_formed.
  - by apply DELETE_COMPONENT_well_formed.
  - by apply DELETE_WIRE_well_formed.
  - simpl in Hvalid. apply andb_true_iff in Hvalid as [Hnode Hbound].
    apply bool_decide_eq_true in Hnode. apply N.ltb_lt in Hbound.
    destruct (App.truthy_id (App.pendingWireStartNodeId s)) eqn:Htruthy;
      cbn [negb].
    + case_bool_decide as Hsame_node.
      * apply Hsame; try done.
      * destruct (App.pendingWireStartNodeId s) as [a|] eqn:Ha; [|done].
        rewrite (makeId_exact n) by lia.
        apply (COMPLETE_WIRE_well_formed n s a); try done.
        congruence.
    + apply Hsame; try done. simpl. by intros m [= <-].
  - by apply Hsame.
  - by apply Hsame.
  - by apply Hsame.
  - by apply Hsame.
  - by apply Hsame.
  - by apply Hsame.
Qed.

Lemma run_well_formed evs : ∀ e e',
  well_formed e → App.run evs e = Some e' → well_formed e'.
Proof.
  induction evs as [|ev evs IH]; intros e e' Hwf; simpl.
  - by intros [= <-].
  - destruct (App.valid e ev) eqn:Hvalid; [|done].
    apply IH. by apply handle_well_formed.
Qed.

(** X21. In every session (the three parts of the palette placed,
    clicks on drawn nodes, fewer than [2^53] ids made) all ids of the
    state, of components, nodes and wires together, are pairwise
    distinct, and each is the decimal of a counter value already used,
    so none is empty. *)
Theorem session_ids_are_unique evs e :
  App.run evs App.initialEditor = Some e →
  NoDup (App.all_ids (App.state e))
  ∧ ∀ id, id ∈ App.all_ids (App.state e) →
          id ≠ "" ∧ ∃ k : N, id = pretty k ∧ (1 ≤ k < App.nextId e)%N.
Proof.
  intros Hrun.
  pose proof (run_well_formed evs _ _ well_formed_initial Hrun) as Hwf.
  split; [apply (wf_nodup _ Hwf)|].
  intros id Hid. destruct (wf_fresh _ Hwf id Hid) as (k & -> & Hk).
  split; [apply pretty_N_nonempty | eauto].
Qed.

Lemma session_ids_are_unique_witness :
  NoDup (App.all_ids (App.state lamp_editor))
  ∧ ∀ id, id ∈ App.all_ids (App.state lamp_editor) →
          id ≠ "" ∧ ∃ k : N, id = pretty k ∧ (1 ≤ k < App.nextId lamp_editor)%N.
Proof.
  apply (session_ids_are_unique lamp_session lamp_editor).
  vm_compute. reflexivity.
Defined.

(** X22. In every session each wire joins two different nodes that are
    still on the board, also after components were deleted, and a
    pending wire starts at a node that is still on the board. *)
Theorem session_wires_join_drawn_nodes evs e :
  App.run evs App.initialEditor = Some e →
  (∀ w, w ∈ App.connections (App.state e) →
     ∃ a, App.Connection.fromNodeId w = Some a
          ∧ a ∈ App.Node.id <$> App.nodes (App.state e)
          ∧ App.Connection.toNodeId w ∈ App.Node.id <$> App.nodes (App.state e)
          ∧ a ≠ App.Connection.toNodeId w)
  ∧ ∀ n, App.pendingWireStartNodeId (App.state e) = Some n →
         n ∈ App.Node.id <$> App.nodes (App.state e).
Proof.
  intros Hrun.
  pose proof (run_well_formed evs _ _ well_formed_initial Hrun) as Hwf.
  split; [apply (wf_wires _ Hwf) | apply (wf_pending _ Hwf)].
Qed.

Lemma session_wires_join_drawn_nodes_witness :
  length (App.connections (App.state lamp_editor)) = 2
  ∧ ∀ w, w ∈ App.connections (App.state lamp_editor) →
      ∃ a, App.Connection.fromNodeId w = Some a
           ∧ a ∈ App.Node.id <$> App.nodes (App.state lamp_editor)
           ∧ App.Connection.toNodeId w
             ∈ App.Node.id <$> App.nodes (App.state lamp_editor)
           ∧ a ≠ App.Connection.toNodeId w.
Proof.
  split; [reflexivity|].
  apply (session_wires_join_drawn_nodes lamp_session lamp_editor).
  vm_compute. reflexivity.
Defined.

Lemma filter_none {A} (P : A → Prop) `{∀ x, Decision (P x)} (l : list A) :
  (∀ x, x ∈ l → ¬ P x) → filter P l = [].
Proof.
  induction l as [|a l IH]; intros Hl; [done|].
  rewrite filter_cons_False; [|apply Hl; left].
  apply IH. intros x Hx. apply Hl. by right.
Qed.

Lemma filter_unique {A} (f : A → string) (l : list A) c :
  NoDup (f <$> l) → c ∈ l → filter (λ x, f x = f c) l = [c].
Proof.
  induction l as [|a l IH]; intros Hnd Hc; [by apply elem_of_nil in Hc|].
  rewrite fmap_cons in Hnd. apply NoDup_cons in Hnd as [Ha Hnd].
  apply elem_of_cons in Hc as [->|Hc].
  - rewrite filter_cons_True by done. f_equal.
    apply filter_none. intros x Hx Heq. apply Ha.
    rewrite <- Heq. apply list_elem_of_fmap. eauto.
  - rewrite filter_cons_False; [by apply IH|].
    intros Heq. apply Ha. rewrite Heq. apply list_elem_of_fmap. eauto.
Qed.

(** The nodes of a component of a well-formed state. *)
Lemma well_formed_terminals e c :
  well_formed e → c ∈ App.components (App.state e) →
  ∃ a b,
    filter (λ n, App.Node.componentId n = App.Component.id c)
      (App.nodes (App.state e)) = [a; b]
    ∧ App.Node.role a = App.getRole (App.Component.type c) App.left_side
    ∧ App.Node.role b = App.getRole (App.Component.type c) App.right_side.
Proof.
  intros Hwf Hc.
  assert (NoDup (App.Component.id <$> App.components (App.state e))) as Hnd.
  { pose proof (wf_nodup _ Hwf) as H. unfold App.all_ids in H.
    by apply NoDup_app in H as [? _]. }
  assert ((λ n, (App.Node.componentId n, App.Node.role n))
            <$> filter (λ n, App.Node.componentId n = App.Component.id c)
                  (App.nodes (App.state e))
          = terminals_of c) as Hfilter.
  { etrans.
    { symmetry.
      exact (@filter_fmap _ _
               (λ n, (App.Node.componentId n, App.Node.role n))
               (λ p : string * option Role, p.1 = App.Component.id c)
               (λ p, decide (p.1 = App.Component.id c))
               (App.nodes (App.state e))). }
    rewrite (wf_terminals _ Hwf).
    etrans.
    { exact (@filter_terminals (λ i, i = App.Component.id c)
               (λ i, decide (i = App.Component.id c))
               (App.components (App.state e))). }
    transitivity ([c] ≫= terminals_of); [|done].
    f_equal. exact (filter_unique App.Component.id _ c Hnd Hc). }
  destruct (filter (λ n, App.Node.componentId n = App.Component.id c)
              (App.nodes (App.state e))) as [|a [|b [|? ?]]]; try done.
  exists a, b. split; [done|]. simpl in Hfilter.
  injection Hfilter as _ Ha _ Hb. done.
Qed.

(** X23. In every session each component on the board has exactly two
    nodes, the left one first, with the roles of its type: for a
    battery the minus terminal, then the plus terminal. *)
Theorem session_components_have_two_terminals evs e c :
  App.run evs App.initialEditor = Some e →
  c ∈ App.components (App.state e) →
  ∃ a b,
    filter (λ n, App.Node.componentId n = App.Component.id c)
      (App.nodes (App.state e)) = [a; b]
    ∧ App.Node.role a = App.getRole (App.Component.type c) App.left_side
    ∧ App.Node.role b = App.getRole (App.Component.type c) App.right_side
    ∧ (App.Component.type c = "battery" →
       App.Node.role a = Some battery_minus
       ∧ App.Node.role b = Some battery_plus).
Proof.
  intros Hrun Hc.
  pose proof (run_well_formed evs _ _ well_formed_initial Hrun) as Hwf.
  destruct (well_formed_terminals e c Hwf Hc) as (a & b & Hab & Ha & Hb).
  exists a, b. split; [done|]. split; [done|]. split; [done|].
  intros Hty. by rewrite Ha, Hb, Hty.
Qed.

Lemma session_components_have_two_terminals_witness :
  ∃ a b,
    filter (λ n, App.Node.componentId n = "1")
      (App.nodes (App.state lamp_editor)) = [a; b]
    ∧ App.Node.role a = Some battery_minus
    ∧ App.Node.role b = Some battery_plus.
Proof.
  destruct (session_components_have_two_terminals lamp_session lamp_editor
              (App.Component.mk "1" "battery" 5 5 None))
    as (a & b & Hab & _ & _ & Hroles).
  - vm_compute. reflexivity.
  - left.
  - exists a, b. split; [done|]. by apply Hroles.
Defined.

(** ** Further properties: from the editor to the simulator *)

Lemma parseType_known type :
  type ∈ ["battery"; "bulb"; "potentiometer"] → is_Some (parseType type).
Proof.
  unfold parseType. intros H.
  repeat (destruct (decide _); [eauto|]).
  apply elem_of_cons in H as [?|H]; [done|].
  apply elem_of_two in H as [?|?]; done.
Qed.

Lemma parseType_potentiometer type :
  parseType type = Some Potentiometer → type = "potentiometer".
Proof. unfold parseType. by repeat (destruct (decide _); [done|]). Qed.

Lemma parseType_bulb type : parseType type = Some Bulb → type = "bulb".
Proof. unfold parseType. by repeat (destruct (decide _); [done|]). Qed.

Lemma preset_truthy p : p ∈ App.presets → truthy_number (Some p) = true.
Proof.
  unfold App.presets. rewrite !elem_of_cons.
  intros [->|[->|[->|[->|[->|[->|[->|H]]]]]]]; [reflexivity..|].
  by apply elem_of_nil in H.
Qed.

Lemma toComponent_fields a b :
  toComponent a = Some b →
  Component.id b = App.Component.id a
  ∧ parseType (App.Component.type a) = Some (Component.type b)
  ∧ Component.resistance b = App.Component.resistance a.
Proof.
  unfold toComponent. destruct (parseType _) as [ty|]; [|done]. simpl.
  by intros [= <-].
Qed.

(** What [simulateCircuit] is given in a well-formed state. *)
Lemma well_formed_input e :
  well_formed e →
  ∃ cs ws,
    toInput (App.state e)
    = Some (mkInput (toNode <$> App.nodes (App.state e)) ws cs)
    ∧ Forall2 (λ a b, toComponent a = Some b) (App.components (App.state e)) cs
    ∧ Forall2 (λ a b, toConnection a = Some b) (App.connections (App.state e)) ws.
Proof.
  intros Hwf. unfold toInput.
  destruct (mapM toComponent (App.components (App.state e))) as [cs|] eqn:Hcs.
  - destruct (mapM toConnection (App.connections (App.state e))) as [ws|] eqn:Hws.
    + exists cs, ws. split; [done|]. by split; apply mapM_Some.
    + exfalso. apply eq_None_not_Some in Hws. apply Hws, mapM_is_Some.
      apply Forall_forall. intros w Hw.
      destruct (wf_wires _ Hwf w Hw) as (a & Ha & _).
      unfold compose, toConnection. rewrite Ha. simpl. eauto.
  - exfalso. apply eq_None_not_Some in Hcs. apply Hcs, mapM_is_Some.
    apply Forall_forall. intros c Hc.
    destruct (wf_parts _ Hwf c Hc) as [Hty _].
    destruct (parseType_known _ Hty) as [ty Hparse].
    unfold compose, toComponent. rewrite Hparse. simpl. eauto.
Qed.

Lemma Forall2_elem_of_r {A B} (P : A → B → Prop) l k y :
  Forall2 P l k → y ∈ k → ∃ x, x ∈ l ∧ P x y.
Proof.
  intros HF [i Hi]%list_elem_of_lookup.
  destruct (Forall2_lookup_r _ _ _ _ _ HF Hi) as (x & Hx & HP).
  exists x. split; [by eapply list_elem_of_lookup_2 | done].
Qed.

Lemma nodesOf_toNode id (ns : list App.Node.t) :
  nodesOf id (toNode <$> ns)
  = toNode <$> filter (λ n, App.Node.componentId n = id) ns.
Proof.
  unfold nodesOf.
  exact (@filter_fmap _ _ toNode (λ n, Node.componentId n = id)
           (λ n, decide (Node.componentId n = id)) ns).
Qed.

(** X24. In every session the state is a circuit the simulator
    accepts: every component has one of the three types and every wire
    has both ends set; every component has exactly two nodes; every
    potentiometer has a resistance that [pot.resistance || 500] leaves
    as it is; no node id is empty; and both ends of every wire are
    nodes of the circuit. *)
Theorem session_state_is_a_circuit evs e :
  App.run evs App.initialEditor = Some e →
  ∃ c, toInput (App.state e) = Some c
       ∧ (∀ b, b ∈ components c →
            ∃ n1 n2, nodesOf (Component.id b) (nodes c) = [n1; n2])
       ∧ (∀ b, b ∈ components c → Component.type b = Potentiometer →
            ∃ p, Component.resistance b = Some p ∧ potResistance b = p)
       ∧ (∀ n, n ∈ nodes c → Node.id n ≠ "")
       ∧ (∀ w, w ∈ connections c →
            Connection.fromNodeId w ∈ Node.id <$> nodes c
            ∧ Connection.toNodeId w ∈ Node.id <$> nodes c).
Proof.
  intros Hrun.
  pose proof (run_well_formed evs _ _ well_formed_initial Hrun) as Hwf.
  destruct (well_formed_input e Hwf) as (cs & ws & Hin & Hcs & Hws).
  eexists. split; [exact Hin|]. simpl.
  assert (Node.id <$> (toNode <$> App.nodes (App.state e))
          = App.Node.id <$> App.nodes (App.state e)) as Hids.
  { by rewrite <- list_fmap_compose. }
  split; [|split; [|split]].
  - intros b Hb.
    destruct (Forall2_elem_of_r _ _ _ _ Hcs Hb) as (a & Ha & Hab).
    destruct (toComponent_fields _ _ Hab) as (-> & _).
    destruct (well_formed_terminals e a Hwf Ha) as (x & y & Hxy & _).
    rewrite nodesOf_toNode, Hxy. by eexists _, _.
  - intros b Hb Hpot.
    destruct (Forall2_elem_of_r _ _ _ _ Hcs Hb) as (a & Ha & Hab).
    destruct (toComponent_fields _ _ Hab) as (_ & Hty & Hres).
    rewrite Hpot in Hty. apply parseType_potentiometer in Hty.
    destruct (wf_parts _ Hwf a Ha) as [_ Hp].
    destruct (Hp Hty) as (p & Hr & Hpreset).
    exists p. rewrite Hres. split; [done|].
    unfold potResistance. rewrite Hres, Hr.
    by rewrite (preset_truthy p Hpreset).
  - intros n (a & -> & Ha)%list_elem_of_fmap. simpl.
    destruct (wf_fresh _ Hwf (App.Node.id a)) as (k & -> & _).
    + apply elem_of_all_ids. right. left. apply list_elem_of_fmap. eauto.
    + apply pretty_N_nonempty.
  - intros w Hw.
    destruct (Forall2_elem_of_r _ _ _ _ Hws Hw) as (a & Ha & Haw).
    destruct (wf_wires _ Hwf a Ha) as (x & Hx & Hfrom & Hto & _).
    unfold toConnection in Haw. rewrite Hx in Haw. simpl in Haw.
    injection Haw as <-. simpl. by rewrite Hids.
Qed.

Lemma session_state_is_a_circuit_witness :
  ∃ c, toInput (App.state lamp_editor) = Some c
       ∧ ∀ b, b ∈ components c →
           ∃ n1 n2, nodesOf (Component.id b) (nodes c) = [n1; n2].
Proof.
  destruct (session_state_is_a_circuit lamp_session lamp_editor)
    as (c & Hc & Htwo & _).
  - vm_compute. reflexivity.
  - exists c. by split.
Defined.





Lemma mapM_ext_id {A B} (f : A → option B) (g : A → A) (l : list A) :
  (∀ a, f (g a) = f a) → mapM f (g <$> l) = mapM f l.
Proof.
  intros H. induction l as [|a l IH]; [done|].
  rewrite fmap_cons. simpl. by rewrite H, IH.
Qed.

(** X26. Moving a component, starting or cancelling a wire, and the
    tool, hover and drag actions change nothing [simulateCircuit]
    reads: the circuit of the state is the same before and after, in
    every state. *)
Theorem layout_actions_keep_the_circuit (s : App.State) (a : App.Action) :
  layout_only a = true →
  toInput (App.circuitReducer s a) = toInput s.
Proof.
  destruct a; try done; intros _; simpl.
  destruct (List.find _ (App.components s)) as [component|]; [|done].
  unfold toInput. simpl.
  assert (mapM toComponent
            ((λ c, if decide (App.Component.id c = componentId)
                   then App.Component.mk (App.Component.id c)
                          (App.Component.type c) newX newY
                          (App.Component.resistance c)
                   else c) <$> App.components s)
          = mapM toComponent (App.components s)) as ->.
  { apply mapM_ext_id. intros c. by destruct (decide _). }
  destruct (mapM toComponent (App.components s)) as [cs|]; [|done]. simpl.
  destruct (mapM toConnection (App.connections s)) as [ws|]; [|done]. simpl.
  do 2 f_equal.
  destruct (filter _ (App.nodes s)) as [|n1 [|n2 [|? ?]]]; try done.
  apply fmap_ext_id. intros m. unfold toNode.
  destruct (decide _); [done|]. by destruct (decide _).
Qed.

Lemma layout_actions_keep_the_circuit_witness :
  toInput (App.circuitReducer (App.state lamp_editor)
             (App.MOVE_COMPONENT "4" 12 7))
  = toInput (App.state lamp_editor).
Proof.
  apply (layout_actions_keep_the_circuit (App.state lamp_editor)
           (App.MOVE_COMPONENT "4" 12 7)).
  reflexivity.
Defined.

(** One adjustment of a stored resistance. *)
Lemma adjust_iter X (c : App.Component.t) k :
  App.Component.id c = X → App.Component.type c = "potentiometer" →
  Nat.iter k (App.adjust X) c
  = App.Component.mk (App.Component.id c) (App.Component.type c)
      (App.Component.x c) (App.Component.y c)
      (Nat.iter k (λ r, App.presets !! App.nextIdx (App.indexOf App.presets r))
         (App.Component.resistance c)).
Proof.
  intros Hid Hty. induction k as [|k IH]; [by destruct c|].
  simpl. rewrite IH. unfold App.adjust at 1. simpl.
  by rewrite decide_True.
Qed.

Lemma presets_cycle p :
  p ∈ App.presets →
  Nat.iter 7 (λ r, App.presets !! App.nextIdx (App.indexOf App.presets r))
    (Some p) = Some p.
Proof.
  unfold App.presets at 1. rewrite !elem_of_cons.
  intros [->|[->|[->|[->|[->|[->|[->|H]]]]]]];
    [vm_compute; reflexivity..|].
  by apply elem_of_nil in H.
Qed.

Lemma handle_adjust_iter X k : ∀ e,
  Nat.iter k (λ e, App.handle e (App.AdjustResistance X)) e
  = App.mkEditor (App.nextId e)
      (App.mkState (Nat.iter k (App.adjust X) <$> App.components (App.state e))
         (App.nodes (App.state e)) (App.connections (App.state e))
         (App.selectedTool (App.state e))
         (App.pendingWireStartNodeId (App.state e))
         (App.hoverPosition (App.state e))
         (App.isDraggingFromPalette (App.state e))).
Proof.
  induction k as [|k IH]; intros e.
  - simpl. rewrite list_fmap_id. by destruct e as [n []].
  - simpl. rewrite IH. unfold App.handle. simpl. f_equal. f_equal.
    by rewrite <- list_fmap_compose.
Qed.

Lemma preset_step p :
  p ∈ App.presets →
  ∃ j, (j < 7)%nat ∧ App.presets !! j = Some p
       ∧ App.nextIdx (App.indexOf App.presets (Some p)) = ((j + 1) mod 7)%nat.
Proof.
  unfold App.presets at 1. rewrite !elem_of_cons.
  intros [->|[->|[->|[->|[->|[->|[->|H]]]]]]].
  - exists 0%nat. split; [lia|]. split; vm_compute; reflexivity.
  - exists 1%nat. split; [lia|]. split; vm_compute; reflexivity.
  - exists 2%nat. split; [lia|]. split; vm_compute; reflexivity.
  - exists 3%nat. split; [lia|]. split; vm_compute; reflexivity.
  - exists 4%nat. split; [lia|]. split; vm_compute; reflexivity.
  - exists 5%nat. split; [lia|]. split; vm_compute; reflexivity.
  - exists 6%nat. split; [lia|]. split; vm_compute; reflexivity.
  - by apply elem_of_nil in H.
Qed.

(** X27. In every session, pressing the resistance button of a
    component seven times brings the whole state back: a
    potentiometer's resistance runs through the seven presets in a
    cycle, and nothing else changes.  One press leaves the id counter,
    the nodes, the wires, the tool, the pending wire, the hover
    position and the drag flag as they are, and keeps every component
    in its place; a component that is not the potentiometer named is
    unchanged; the potentiometer named holds one of the presets 100,
    250, 500, 1000, 2000, 5000, 10000, and the press moves it to the
    next one in this list, from the last to the first, keeping its id,
    type and position. *)
Theorem seven_adjustments_restore_the_state evs e X :
  App.run evs App.initialEditor = Some e →
  Nat.iter 7 (λ e, App.handle e (App.AdjustResistance X)) e = e
  ∧ App.nextId (App.handle e (App.AdjustResistance X)) = App.nextId e
  ∧ App.nodes (App.state (App.handle e (App.AdjustResistance X)))
    = App.nodes (App.state e)
  ∧ App.connections (App.state (App.handle e (App.AdjustResistance X)))
    = App.connections (App.state e)
  ∧ App.selectedTool (App.state (App.handle e (App.AdjustResistance X)))
    = App.selectedTool (App.state e)
  ∧ App.pendingWireStartNodeId
      (App.state (App.handle e (App.AdjustResistance X)))
    = App.pendingWireStartNodeId (App.state e)
  ∧ App.hoverPosition (App.state (App.handle e (App.AdjustResistance X)))
    = App.hoverPosition (App.state e)
  ∧ App.isDraggingFromPalette
      (App.state (App.handle e (App.AdjustResistance X)))
    = App.isDraggingFromPalette (App.state e)
  ∧ length (App.components (App.state (App.handle e (App.AdjustResistance X))))
    = length (App.components (App.state e))
  ∧ ∀ i c,
      App.components (App.state e) !! i = Some c →
      ∃ c',
        App.components (App.state (App.handle e (App.AdjustResistance X))) !! i
        = Some c'
        ∧ if decide (App.Component.id c = X
                     ∧ App.Component.type c = "potentiometer")
          then ∃ j, (j < 7)%nat
                 ∧ App.Component.resistance c
                   = [100; 250; 500; 1000; 2000; 5000; 10000]%float !! j
                 ∧ c' = App.Component.mk (App.Component.id c)
                          (App.Component.type c) (App.Component.x c)
                          (App.Component.y c)
                          ([100; 250; 500; 1000; 2000; 5000; 10000]%float
                             !! ((j + 1) mod 7)%nat)
          else c' = c.
Proof.
  intros Hrun.
  pose proof (run_well_formed evs _ _ well_formed_initial Hrun) as Hwf.
  split.
  { rewrite handle_adjust_iter.
    assert (Nat.iter 7 (App.adjust X) <$> App.components (App.state e)
            = App.components (App.state e)) as ->.
    { etrans; [|apply list_fmap_id]. apply list_fmap_ext. intros i c Hc.
      apply list_elem_of_lookup_2 in Hc.
      destruct (decide (App.Component.id c = X
                        ∧ App.Component.type c = "potentiometer"))
        as [[Hid Hty]|Hno].
      - rewrite (adjust_iter X c 7 Hid Hty).
        destruct (wf_parts _ Hwf c Hc) as [_ Hp].
        destruct (Hp Hty) as (p & Hr & Hpreset).
        rewrite Hr, (presets_cycle p Hpreset), <- Hr. by destruct c.
      - assert (App.adjust X c = c) as Hfix.
        { unfold App.adjust. by rewrite decide_False. }
        simpl. by rewrite !Hfix. }
    by destruct e as [n []]. }
  do 7 (split; [done|]).
  split; [simpl; by rewrite length_fmap|].
  intros i c Hc. exists (App.adjust X c). split.
  { simpl. by rewrite list_lookup_fmap, Hc. }
  apply list_elem_of_lookup_2 in Hc.
  unfold App.adjust.
  destruct (decide (App.Component.id c = X
                    ∧ App.Component.type c = "potentiometer"))
    as [[Hid Hty]|Hno]; [|done].
  destruct (wf_parts _ Hwf c Hc) as [_ Hp].
  destruct (Hp Hty) as (p & Hr & Hpreset).
  destruct (preset_step p Hpreset) as (j & Hj & Hp' & Hnext).
  exists j. split; [done|]. rewrite Hr, Hnext. by split.
Qed.

Lemma seven_adjustments_restore_the_state_witness :
  Nat.iter 7 (λ e, App.handle e (App.AdjustResistance "4")) dimmer_editor
  = dimmer_editor
  ∧ App.Component.resistance
      <$> App.components
            (App.state (App.handle dimmer_editor (App.AdjustResistance "4")))
    = [None; Some 2000%float].
Proof.
  split.
  - apply (seven_adjustments_restore_the_state dimmer_session dimmer_editor "4").
    vm_compute. reflexivity.
  - vm_compute. reflexivity.
Defined.
